(** * better-memory-mcp: the knowledge-graph manager of [index.ts]

    A shallow embedding of [KnowledgeGraphManager] (query parser, matcher,
    scorer, JSONL store, CRUD operations, graph algorithms and the search
    orchestrator) together with the properties its specification states.

    Conventions of the embedding:
    - a JavaScript string is a [string]; the development covers ASCII text:
      [toLowerCase] folds the letters A-Z and the class [\s] is the six ASCII
      white-space characters;
    - a JavaScript array is a [list]; a [Set] used for membership only is a
      [gset string], a [Set] that is iterated is a duplicate-free list in
      insertion order; a [Map] is a [gmap];
    - hop counts, scores and lengths are natural numbers;
    - the memory file is an [option string] ([None]: the file does not
      exist); every public operation is a computation in the monad [M], which
      threads the file and propagates thrown errors. *)

From Stdlib Require Import String Ascii List ZArith Lia Bool.
From stdpp Require Import gmap strings list.

Local Open Scope string_scope.

(* [simpl] computes string concatenation on a known prefix *)
#[local] Arguments String.append !s1 s2 : simpl nomatch.

(** ** JavaScript string primitives *)

Module Js.

Definition isUpper (c : ascii) : bool :=
  Nat.leb 65 (nat_of_ascii c) && Nat.leb (nat_of_ascii c) 90.

Definition lowerChar (c : ascii) : ascii :=
  if isUpper c then ascii_of_nat (nat_of_ascii c + 32) else c.

(** [s.toLowerCase()] *)
Fixpoint toLowerCase (s : string) : string :=
  match s with
  | EmptyString => EmptyString
  | String c s' => String (lowerChar c) (toLowerCase s')
  end.

(** the character class [\s] *)
Definition isSpace (c : ascii) : bool :=
  let n := nat_of_ascii c in
  Nat.eqb n 32 || (Nat.leb 9 n && Nat.leb n 13).

(** [s.startsWith(p)] *)
Fixpoint startsWith (s p : string) {struct p} : bool :=
  match p, s with
  | EmptyString, _ => true
  | String _ _, EmptyString => false
  | String b p', String a s' => Ascii.eqb a b && startsWith s' p'
  end.

(** [s.includes(t)] *)
Fixpoint includes (s t : string) : bool :=
  startsWith s t ||
  match s with
  | EmptyString => false
  | String _ s' => includes s' t
  end.

(** [s.slice(n)] for [0 <= n] *)
Fixpoint slice (n : nat) (s : string) : string :=
  match n, s with
  | O, _ => s
  | S _, EmptyString => EmptyString
  | S k, String _ s' => slice k s'
  end.

Definition isEmpty (s : string) : bool :=
  match s with EmptyString => true | String _ _ => false end.

(** [s.split(/\s+/)]: the pieces between maximal runs of white space; a
    string that begins (ends) with white space yields a leading (trailing)
    empty piece, and the empty string yields one empty piece. *)
Fixpoint splitWs (s : string) : list string :=
  match s with
  | EmptyString => [EmptyString]
  | String c s' =>
      let r := splitWs s' in
      if isSpace c then
        match s' with
        | String c' _ => if isSpace c' then r else EmptyString :: r
        | EmptyString => EmptyString :: r
        end
      else
        match r with
        | w :: ws => String c w :: ws
        | [] => [String c EmptyString]
        end
  end.

(** [s.split(/\s+/).filter(t => t.length > 0)] *)
Definition words (s : string) : list string :=
  List.filter (fun t => negb (isEmpty t)) (splitWs s).

Fixpoint trimStart (s : string) : string :=
  match s with
  | EmptyString => EmptyString
  | String c s' => if isSpace c then trimStart s' else s
  end.

Fixpoint trimEnd (s : string) : string :=
  match s with
  | EmptyString => EmptyString
  | String c s' =>
      let t := trimEnd s' in
      if isSpace c && isEmpty t then EmptyString else String c t
  end.

(** [s.trim()] *)
Definition trim (s : string) : string := trimEnd (trimStart s).

(** [s.replace(pat, rep)] with a string pattern: the first occurrence only *)
Fixpoint replaceFirst (s pat rep : string) : string :=
  if startsWith s pat then rep ++ slice (String.length pat) s
  else match s with
       | EmptyString => EmptyString
       | String c s' => String c (replaceFirst s' pat rep)
       end.

(** [arr.join(sep)] *)
Fixpoint join (sep : string) (l : list string) : string :=
  match l with
  | [] => EmptyString
  | [x] => x
  | x :: rest => x ++ sep ++ join sep rest
  end.

(** The loop [while ((m = re.exec(s)) !== null)] of a global regular
    expression: [matchAt] tries the expression at the head of its argument
    and gives the match and its length; after a match the scan resumes
    behind it ([lastIndex]), which [skip] counts down. *)
Fixpoint execAll {A} (matchAt : string -> option (A * nat)) (skip : nat)
    (s : string) : list A :=
  match s with
  | EmptyString => []
  | String _ s' =>
      match skip with
      | S k => execAll matchAt k s'
      | O =>
          match matchAt s with
          | Some (m, len) => m :: execAll matchAt (len - 1) s'
          | None => execAll matchAt 0 s'
          end
      end
  end.

(** [s.replace(re, '')] with a global regular expression: every match is
    cut out. *)
Fixpoint removeAll {A} (matchAt : string -> option (A * nat)) (skip : nat)
    (s : string) : string :=
  match s with
  | EmptyString => EmptyString
  | String c s' =>
      match skip with
      | S k => removeAll matchAt k s'
      | O =>
          match matchAt s with
          | Some (_, len) => removeAll matchAt (len - 1) s'
          | None => String c (removeAll matchAt 0 s')
          end
      end
  end.

(** the longest prefix of characters satisfying [p], and the rest *)
Fixpoint span (p : ascii -> bool) (s : string) : string * string :=
  match s with
  | EmptyString => (EmptyString, EmptyString)
  | String c s' =>
      if p c then let '(run, rest) := span p s' in (String c run, rest)
      else (EmptyString, s)
  end.

(** the double-quote character, code 34 *)
Definition quote : ascii := ascii_of_nat 34.
Definition isQuote (c : ascii) : bool := Ascii.eqb c quote.

(** a quoted phrase at the head of [s] (a quote, one or more characters
    other than a quote, a quote): the captured group and the length of the
    whole match *)
Definition quotedAt (s : string) : option (string * nat) :=
  match s with
  | String c s' =>
      if isQuote c then
        match span (fun x => negb (isQuote x)) s' with
        | (String a run, String _ _) =>
            Some (String a run, String.length (String a run) + 2)
        | _ => None
        end
      else None
  | EmptyString => None
  end.

(** the expression [\S+] at the head of [s] *)
Definition nonSpaceAt (s : string) : option (string * nat) :=
  match span (fun x => negb (isSpace x)) s with
  | (String a run, _) => Some (String a run, String.length (String a run))
  | _ => None
  end.

End Js.

(** ** Data model *)

Record Entity := {
  name : string;
  entityType : string;
  observations : list string
}.

Record Relation := {
  from : string;
  to : string;
  relationType : string
}.

Record KnowledgeGraph := {
  entities : list Entity;
  relations : list Relation
}.

Record ParsedQuery := {
  required : list string;
  optional : list string;
  excluded : list string;
  phrases : list string
}.

Record FieldQuery := {
  fq_name : option ParsedQuery;
  fq_type : option ParsedQuery;
  fq_obs : option ParsedQuery;
  fq_all : option ParsedQuery
}.

(** ** Search helper methods *)

(** [tokenize] *)
Definition tokenize (text : string) : list string :=
  Js.words (Js.toLowerCase text).

Definition emptyParsed : ParsedQuery :=
  {| required := []; optional := []; excluded := []; phrases := [] |}.

(** one iteration of [for (const token of tokens)] in [parseQuery] *)
Definition classify (result : ParsedQuery) (token : string) : ParsedQuery :=
  if Js.startsWith token "+" && Nat.ltb 1 (String.length token) then
    {| required := required result ++ [Js.toLowerCase (Js.slice 1 token)];
       optional := optional result;
       excluded := excluded result;
       phrases := phrases result |}
  else if Js.startsWith token "-" && Nat.ltb 1 (String.length token) then
    {| required := required result;
       optional := optional result;
       excluded := excluded result ++ [Js.toLowerCase (Js.slice 1 token)];
       phrases := phrases result |}
  else if negb (Js.startsWith token "+") && negb (Js.startsWith token "-") then
    {| required := required result;
       optional := optional result ++ [Js.toLowerCase token];
       excluded := excluded result;
       phrases := phrases result |}
  else result.

(** the matches of [phraseRegex] on the query: the captured groups *)
Definition phraseMatches (query : string) : list string :=
  Js.execAll Js.quotedAt 0 query.

(** [remainingQuery] after the phrase loop: each match, with its quotes,
    replaced by a blank *)
Definition stripPhrases (query : string) : string :=
  fold_left
    (fun remaining m =>
       Js.replaceFirst remaining (String Js.quote (m ++ String Js.quote EmptyString)) " ")
    (phraseMatches query) query.

(** the tokens [parseQuery] classifies *)
Definition queryTokens (query : string) : list string :=
  Js.words (stripPhrases query).

(** [parseQuery] *)
Definition parseQuery (query : string) : ParsedQuery :=
  let result :=
    {| required := []; optional := []; excluded := [];
       phrases := map Js.toLowerCase (phraseMatches query) |} in
  fold_left classify (queryTokens query) result.

Inductive Field := FName | FType | FObs.

(** the alternation [(name|type|obs)] under the flag [i], at the head of [s] *)
Definition keywordAt (s : string) : option (Field * nat) :=
  if Js.startsWith (Js.toLowerCase s) "name" then Some (FName, 4)
  else if Js.startsWith (Js.toLowerCase s) "type" then Some (FType, 4)
  else if Js.startsWith (Js.toLowerCase s) "obs" then Some (FObs, 3)
  else None.

(** the text a match of length [len] covers *)
Definition matched (len : nat) (s : string) : string := String.substring 0 len s.

(** [fieldRegex] at the head of [s]: the field, [match[2] || match[3]], and
    [match[0]] with its length *)
Definition fieldAt (s : string) : option ((Field * string * string) * nat) :=
  match keywordAt s with
  | Some (f, k) =>
      let afterKw := Js.slice k s in
      if Js.startsWith afterKw ":" then
        let v := Js.slice 1 afterKw in
        match Js.quotedAt v with
        | Some (value, len) =>
            Some ((f, value, matched (k + 1 + len) s), k + 1 + len)
        | None =>
            match Js.nonSpaceAt v with
            | Some (value, len) =>
                Some ((f, value, matched (k + 1 + len) s), k + 1 + len)
            | None => None
            end
        end
      else None
  | None => None
  end.

Definition setField (fq : FieldQuery) (f : Field) (p : ParsedQuery) : FieldQuery :=
  match f with
  | FName => {| fq_name := Some p; fq_type := fq_type fq; fq_obs := fq_obs fq; fq_all := fq_all fq |}
  | FType => {| fq_name := fq_name fq; fq_type := Some p; fq_obs := fq_obs fq; fq_all := fq_all fq |}
  | FObs => {| fq_name := fq_name fq; fq_type := fq_type fq; fq_obs := Some p; fq_all := fq_all fq |}
  end.

Definition emptyFieldQuery : FieldQuery :=
  {| fq_name := None; fq_type := None; fq_obs := None; fq_all := None |}.

(** [parseFieldQuery] *)
Definition parseFieldQuery (query : string) : FieldQuery :=
  let ms := Js.execAll fieldAt 0 query in
  let fq :=
    fold_left (fun fq '(f, value, _) => setField fq f (parseQuery value))
      ms emptyFieldQuery in
  let remainingQuery :=
    Js.trim (fold_left (fun remaining '(_, _, m0) => Js.replaceFirst remaining m0 " ")
               ms query) in
  if Js.isEmpty remainingQuery then fq
  else {| fq_name := fq_name fq; fq_type := fq_type fq; fq_obs := fq_obs fq;
          fq_all := Some (parseQuery remainingQuery) |}.

(** [matchesParsedQuery] *)
Definition matchesParsedQuery (text : string) (parsed : ParsedQuery) : bool :=
  let lowerText := Js.toLowerCase text in
  if negb (Nat.eqb (length (required parsed)) 0)
     && existsb (fun term => negb (Js.includes lowerText term)) (required parsed)
  then false
  else if existsb (fun term => Js.includes lowerText term) (excluded parsed)
  then false
  else if existsb (fun phrase => negb (Js.includes lowerText phrase)) (phrases parsed)
  then false
  else if negb (Nat.eqb (length (optional parsed)) 0)
          && Nat.eqb (length (required parsed)) 0
          && Nat.eqb (length (phrases parsed)) 0
          && negb (existsb (fun term => Js.includes lowerText term) (optional parsed))
  then false
  else true.

(** [`${entity.name} ${entity.entityType} ${entity.observations.join(' ')}`] *)
Definition allText (entity : Entity) : string :=
  name entity ++ " " ++ entityType entity ++ " " ++ Js.join " " (observations entity).

Definition passes (text : string) (q : option ParsedQuery) : bool :=
  match q with
  | Some p => matchesParsedQuery text p
  | None => true
  end.

(** [entityMatchesFieldQuery] *)
Definition entityMatchesFieldQuery (entity : Entity) (fieldQuery : FieldQuery) : bool :=
  if negb (passes (name entity) (fq_name fieldQuery)) then false
  else if negb (passes (entityType entity) (fq_type fieldQuery)) then false
  else if negb (passes (Js.join " " (observations entity)) (fq_obs fieldQuery)) then false
  else if negb (passes (allText entity) (fq_all fieldQuery)) then false
  else true.

(** [levenshteinDistance]: the matrix is built row by row; [levRow] fills
    [matrix[i][1..]] from the row above ([up], whose head is
    [matrix[i-1][j-1]]) and the cell to the left. *)
Fixpoint levRow (ai : ascii) (b : string) (up : list nat) (left : nat) : list nat :=
  match b, up with
  | String bj b', diag :: ((above :: _) as up') =>
      let cost := if Ascii.eqb ai bj then 0 else 1 in
      let v := Nat.min (Nat.min (above + 1) (left + 1)) (diag + cost) in
      v :: levRow ai b' up' v
  | _, _ => []
  end.

Fixpoint levRows (a b : string) (i : nat) (row : list nat) : list nat :=
  match a with
  | EmptyString => row
  | String ai a' => levRows a' b (S i) (S i :: levRow ai b row (S i))
  end.

Definition levenshteinDistance (a b : string) : nat :=
  List.last (levRows a b 0 (seq 0 (S (String.length b)))) 0.

Definition absDiff (n m : nat) : nat := (n - m) + (m - n).

(** [fuzzyMatch] *)
Definition fuzzyMatch (text query : string) (maxDistance : option nat) : bool :=
  let ws := Js.splitWs (Js.toLowerCase text) in
  let queryLower := Js.toLowerCase query in
  let distance :=
    match maxDistance with
    | Some d => d
    | None => Nat.max 1 (String.length queryLower / 4)
    end in
  existsb
    (fun word =>
       if Js.includes word queryLower || Js.includes queryLower word then true
       else if Nat.leb (absDiff (String.length word) (String.length queryLower)) distance
       then Nat.leb (levenshteinDistance word queryLower) distance
       else false)
    ws.

(** the name branch of [scoreEntity] *)
Definition nameScore (entity : Entity) (query : string) (fuzzy : bool) : nat :=
  let queryLower := Js.toLowerCase query in
  let tokens := tokenize query in
  let nameLower := Js.toLowerCase (name entity) in
  if String.eqb nameLower queryLower then 100
  else if Js.includes nameLower queryLower then 50
  else if existsb (fun t => Js.includes nameLower t) tokens then 30
  else if fuzzy && fuzzyMatch (name entity) query None then 15
  else 0.

(** the type branch of [scoreEntity] *)
Definition typeScore (entity : Entity) (query : string) : nat :=
  let queryLower := Js.toLowerCase query in
  let tokens := tokenize query in
  let typeLower := Js.toLowerCase (entityType entity) in
  if String.eqb typeLower queryLower then 40
  else if existsb (fun t => Js.includes typeLower t) tokens then 20
  else 0.

(** one iteration of the observation loop of [scoreEntity] *)
Definition obsScore (query : string) (fuzzy : bool) (obs : string) : nat :=
  let queryLower := Js.toLowerCase query in
  let tokens := tokenize query in
  let obsLower := Js.toLowerCase obs in
  if Js.includes obsLower queryLower then 15
  else if existsb (fun t => Js.includes obsLower t) tokens then 10
  else if fuzzy && fuzzyMatch obs query None then 5
  else 0.

(** [scoreEntity] *)
Definition scoreEntity (entity : Entity) (query : string) (fuzzy : bool) : nat :=
  fold_left (fun score obs => score + obsScore query fuzzy obs)
    (observations entity)
    (0 + nameScore entity query fuzzy + typeScore entity query).

(** ** JSON text: [JSON.stringify] and [JSON.parse] *)

Module Json.

#[local] Set Warnings "-register-all".

Inductive json :=
| JNull
| JBool (b : bool)
| JNumber (lexeme : string)
| JString (s : string)
| JArray (items : list json)
| JObject (members : list (string * json)).

Definition backslash : ascii := ascii_of_nat 92.
Definition newline : ascii := ascii_of_nat 10.

Definition hexDigit (n : nat) : ascii :=
  if Nat.ltb n 10 then ascii_of_nat (48 + n) else ascii_of_nat (87 + n).

(** one character of a quoted JSON string, as [JSON.stringify] writes it *)
Definition escapeChar (c : ascii) : string :=
  let n := nat_of_ascii c in
  if Nat.eqb n 34 then String backslash (String Js.quote EmptyString)
  else if Nat.eqb n 92 then String backslash (String backslash EmptyString)
  else if Nat.eqb n 8 then String backslash "b"
  else if Nat.eqb n 12 then String backslash "f"
  else if Nat.eqb n 10 then String backslash "n"
  else if Nat.eqb n 13 then String backslash "r"
  else if Nat.eqb n 9 then String backslash "t"
  else if Nat.ltb n 32 then
    String backslash
      (String "u" (String "0" (String "0"
         (String (hexDigit (n / 16)) (String (hexDigit (n mod 16)) EmptyString)))))
  else String c EmptyString.

Fixpoint escape (s : string) : string :=
  match s with
  | EmptyString => EmptyString
  | String c s' => escapeChar c ++ escape s'
  end.

Definition quoteJSON (s : string) : string :=
  String Js.quote (escape s ++ String Js.quote EmptyString).

(** [JSON.stringify(v)] without indentation *)
Fixpoint stringify (v : json) : string :=
  match v with
  | JNull => "null"
  | JBool true => "true"
  | JBool false => "false"
  | JNumber lexeme => lexeme
  | JString s => quoteJSON s
  | JArray items => "[" ++ Js.join "," (map stringify items) ++ "]"
  | JObject members =>
      "{" ++ Js.join "," (map (fun kv => quoteJSON (fst kv) ++ ":" ++ stringify (snd kv)) members)
          ++ "}"
  end.

(** JSON white space: space, tab, line feed, carriage return *)
Definition isWs (c : ascii) : bool :=
  let n := nat_of_ascii c in
  Nat.eqb n 32 || Nat.eqb n 9 || Nat.eqb n 10 || Nat.eqb n 13.

Fixpoint skipWs (s : string) : string :=
  match s with
  | EmptyString => EmptyString
  | String c s' => if isWs c then skipWs s' else s
  end.

Definition hexValue (c : ascii) : option nat :=
  let n := nat_of_ascii c in
  if Nat.leb 48 n && Nat.leb n 57 then Some (n - 48)
  else if Nat.leb 97 n && Nat.leb n 102 then Some (n - 87)
  else if Nat.leb 65 n && Nat.leb n 70 then Some (n - 55)
  else None.

(** the code unit of [\uXXXX]; a code unit above 255 is outside the strings
    of this development *)
Definition unicodeEscape (h1 h2 h3 h4 : ascii) : option ascii :=
  match hexValue h1, hexValue h2, hexValue h3, hexValue h4 with
  | Some a, Some b, Some c, Some d =>
      if Nat.eqb a 0 && Nat.eqb b 0 then Some (ascii_of_nat (16 * c + d)) else None
  | _, _, _, _ => None
  end.

Definition simpleEscape (e : ascii) : option ascii :=
  let n := nat_of_ascii e in
  if Nat.eqb n 34 then Some Js.quote
  else if Nat.eqb n 92 then Some backslash
  else if Nat.eqb n 47 then Some "/"%char
  else if Nat.eqb n 98 then Some (ascii_of_nat 8)
  else if Nat.eqb n 102 then Some (ascii_of_nat 12)
  else if Nat.eqb n 110 then Some (ascii_of_nat 10)
  else if Nat.eqb n 114 then Some (ascii_of_nat 13)
  else if Nat.eqb n 116 then Some (ascii_of_nat 9)
  else None.

Definition consChar (c : ascii) (r : option (string * string)) : option (string * string) :=
  match r with
  | Some (str, rest) => Some (String c str, rest)
  | None => None
  end.

(** a JSON string behind its opening quote: the decoded string and the text
    behind the closing quote *)
Fixpoint parseStringBody (s : string) : option (string * string) :=
  match s with
  | EmptyString => None
  | String c rest =>
      if Js.isQuote c then Some (EmptyString, rest)
      else if Ascii.eqb c backslash then
        match rest with
        | String e rest' =>
            if Ascii.eqb e "u" then
              match rest' with
              | String h1 (String h2 (String h3 (String h4 rest''))) =>
                  match unicodeEscape h1 h2 h3 h4 with
                  | Some ch => consChar ch (parseStringBody rest'')
                  | None => None
                  end
              | _ => None
              end
            else
              match simpleEscape e with
              | Some ch => consChar ch (parseStringBody rest')
              | None => None
              end
        | EmptyString => None
        end
      else if Nat.ltb (nat_of_ascii c) 32 then None
      else consChar c (parseStringBody rest)
  end.

Definition isDigit (c : ascii) : bool :=
  Nat.leb 48 (nat_of_ascii c) && Nat.leb (nat_of_ascii c) 57.

Definition digitsAt (s : string) : option (string * string) :=
  match Js.span isDigit s with
  | (String d ds, rest) => Some (String d ds, rest)
  | _ => None
  end.

(** a JSON number at the head of [s]: its lexeme and the rest *)
Definition parseNumber (s : string) : option (string * string) :=
  let '(sign, s1) :=
    match s with
    | String "-" r => ("-", r)
    | _ => (EmptyString, s)
    end in
  match digitsAt s1 with
  | Some (int, s2) =>
      let '(int, s2) :=
        match int with
        | String "0" (String d ds) => ("0", String d ds ++ s2)
        | _ => (int, s2)
        end in
      let '(frac, s3) :=
        match s2 with
        | String "." r =>
            match digitsAt r with
            | Some (ds, r') => (String "." ds, r')
            | None => (EmptyString, s2)
            end
        | _ => (EmptyString, s2)
        end in
      let '(exp, s4) :=
        match s3 with
        | String e r =>
            if Ascii.eqb e "e" || Ascii.eqb e "E" then
              let '(sg, r1) :=
                match r with
                | String "+" r' => ("+", r')
                | String "-" r' => ("-", r')
                | _ => (EmptyString, r)
                end in
              match digitsAt r1 with
              | Some (ds, r2) => (String e (sg ++ ds), r2)
              | None => (EmptyString, s3)
              end
            else (EmptyString, s3)
        | EmptyString => (EmptyString, s3)
        end in
      Some (sign ++ int ++ frac ++ exp, s4)
  | None => None
  end.

Definition literalAt (s : string) : option (json * string) :=
  if Js.startsWith s "true" then Some (JBool true, Js.slice 4 s)
  else if Js.startsWith s "false" then Some (JBool false, Js.slice 5 s)
  else if Js.startsWith s "null" then Some (JNull, Js.slice 4 s)
  else match parseNumber s with
       | Some (lexeme, rest) => Some (JNumber lexeme, rest)
       | None => None
       end.

(** recursive descent over the JSON grammar; [fuel] bounds the nesting of
    calls and [None] is the [SyntaxError] of [JSON.parse] *)
Fixpoint parseValue (fuel : nat) (s : string) {struct fuel} : option (json * string) :=
  match fuel with
  | O => None
  | S f =>
      match skipWs s with
      | String c rest =>
          if Js.isQuote c then
            match parseStringBody rest with
            | Some (str, rest') => Some (JString str, rest')
            | None => None
            end
          else if Ascii.eqb c "[" then
            match skipWs rest with
            | String c' rest' =>
                if Ascii.eqb c' "]" then Some (JArray [], rest')
                else match parseElements f rest with
                     | Some (items, r) => Some (JArray items, r)
                     | None => None
                     end
            | EmptyString => None
            end
          else if Ascii.eqb c "{" then
            match skipWs rest with
            | String c' rest' =>
                if Ascii.eqb c' "}" then Some (JObject [], rest')
                else match parseMembers f rest with
                     | Some (members, r) => Some (JObject members, r)
                     | None => None
                     end
            | EmptyString => None
            end
          else literalAt (String c rest)
      | EmptyString => None
      end
  end
with parseElements (fuel : nat) (s : string) {struct fuel} : option (list json * string) :=
  match fuel with
  | O => None
  | S f =>
      match parseValue f s with
      | Some (v, rest) =>
          match skipWs rest with
          | String c rest' =>
              if Ascii.eqb c "," then
                match parseElements f rest' with
                | Some (vs, r) => Some (v :: vs, r)
                | None => None
                end
              else if Ascii.eqb c "]" then Some ([v], rest')
              else None
          | EmptyString => None
          end
      | None => None
      end
  end
with parseMembers (fuel : nat) (s : string) {struct fuel}
    : option (list (string * json) * string) :=
  match fuel with
  | O => None
  | S f =>
      match skipWs s with
      | String q rest =>
          if Js.isQuote q then
            match parseStringBody rest with
            | Some (key, rest1) =>
                match skipWs rest1 with
                | String colon rest2 =>
                    if Ascii.eqb colon ":" then
                      match parseValue f rest2 with
                      | Some (v, rest3) =>
                          match skipWs rest3 with
                          | String c rest4 =>
                              if Ascii.eqb c "," then
                                match parseMembers f rest4 with
                                | Some (ms, r) => Some ((key, v) :: ms, r)
                                | None => None
                                end
                              else if Ascii.eqb c "}" then Some ([(key, v)], rest4)
                              else None
                          | EmptyString => None
                          end
                      | None => None
                      end
                    else None
                | EmptyString => None
                end
            | None => None
            end
          else None
      | EmptyString => None
      end
  end.

(** [JSON.parse(text)] *)
Definition parse (text : string) : option json :=
  match parseValue (S (String.length text)) text with
  | Some (v, rest) => if Js.isEmpty (skipWs rest) then Some v else None
  | None => None
  end.

(** [obj[key]] on a parsed object: of several members with one key the last
    one counts *)
Fixpoint getMember (key : string) (members : list (string * json)) : option json :=
  match members with
  | [] => None
  | (k, v) :: rest =>
      match getMember key rest with
      | Some v' => Some v'
      | None => if String.eqb k key then Some v else None
      end
  end.

End Json.

(** ** The memory file and the monad of the public operations *)

Inductive Error :=
| ParseError                       (* [JSON.parse] throws a SyntaxError *)
| TypeError                        (* a property of [null] is read *)
| IllTyped                         (* a record that is no [Entity] or [Relation] *)
| EntityNotFound (entityName : string).

Definition File := option string.

Definition M (A : Type) : Type := File -> (Error + A) * File.

Definition ret {A} (a : A) : M A := fun file => (inr a, file).

Definition bind {A B} (m : M A) (k : A -> M B) : M B :=
  fun file =>
    match m file with
    | (inr a, file') => k a file'
    | (inl e, file') => (inl e, file')
    end.

Definition throw {A} (e : Error) : M A := fun file => (inl e, file).

Definition lift {A} (r : Error + A) : M A := fun file => (r, file).

(** [fs.writeFile(this.memoryFilePath, data)] *)
Definition writeFile (data : string) : M unit := fun _ => (inr tt, Some data).

Notation "'let*' x ':=' m 'in' k" := (bind m (fun x => k))
  (at level 10, x name, m at level 100, k at level 200).

Definition emptyGraph : KnowledgeGraph := {| entities := []; relations := [] |}.

(** [data.split("\n")] *)
Fixpoint splitLines (data : string) : list string :=
  match data with
  | EmptyString => [EmptyString]
  | String c s' =>
      let r := splitLines s' in
      if Ascii.eqb c Json.newline then EmptyString :: r
      else match r with
           | w :: ws => String c w :: ws
           | [] => [String c EmptyString]
           end
  end.

Definition newlineStr : string := String Json.newline EmptyString.

Fixpoint jsonStrings (items : list Json.json) : option (list string) :=
  match items with
  | [] => Some []
  | Json.JString x :: rest =>
      match jsonStrings rest with
      | Some xs => Some (x :: xs)
      | None => None
      end
  | _ => None
  end.

(** the cast [entity as Entity] of a parsed record *)
Definition asEntity (members : list (string * Json.json)) : option Entity :=
  match Json.getMember "name" members, Json.getMember "entityType" members,
        Json.getMember "observations" members with
  | Some (Json.JString n), Some (Json.JString t), Some (Json.JArray items) =>
      match jsonStrings items with
      | Some obs => Some {| name := n; entityType := t; observations := obs |}
      | None => None
      end
  | _, _, _ => None
  end.

(** the cast [relation as Relation] of a parsed record *)
Definition asRelation (members : list (string * Json.json)) : option Relation :=
  match Json.getMember "from" members, Json.getMember "to" members,
        Json.getMember "relationType" members with
  | Some (Json.JString f), Some (Json.JString t), Some (Json.JString rt) =>
      Some {| from := f; to := t; relationType := rt |}
  | _, _, _ => None
  end.

(** the reducer of [loadGraph]: one line of the file *)
Definition loadLine (graph : KnowledgeGraph) (line : string) : Error + KnowledgeGraph :=
  match Json.parse line with
  | None => inl ParseError
  | Some Json.JNull => inl TypeError
  | Some (Json.JObject members) =>
      match Json.getMember "type" members with
      | Some (Json.JString ty) =>
          if String.eqb ty "entity" then
            match asEntity members with
            | Some e =>
                inr {| entities := entities graph ++ [e]; relations := relations graph |}
            | None => inl IllTyped
            end
          else if String.eqb ty "relation" then
            match asRelation members with
            | Some r =>
                inr {| entities := entities graph; relations := relations graph ++ [r] |}
            | None => inl IllTyped
            end
          else inr graph
      | _ => inr graph
      end
  | Some _ => inr graph
  end.

Fixpoint reduceLines (graph : KnowledgeGraph) (lines : list string) : Error + KnowledgeGraph :=
  match lines with
  | [] => inr graph
  | line :: rest =>
      match loadLine graph line with
      | inr graph' => reduceLines graph' rest
      | inl e => inl e
      end
  end.

(** what [loadGraph] makes of the text of the file *)
Definition parseGraph (data : string) : Error + KnowledgeGraph :=
  let lines :=
    List.filter (fun line => negb (Js.isEmpty (Js.trim line))) (splitLines data) in
  reduceLines emptyGraph lines.

(** [loadGraph]: a missing file (ENOENT) is the empty graph *)
Definition loadGraph : M KnowledgeGraph :=
  fun file =>
    match file with
    | Some data => (parseGraph data, file)
    | None => (inr emptyGraph, file)
    end.

Definition entityLine (e : Entity) : string :=
  Json.stringify
    (Json.JObject
       [("type", Json.JString "entity");
        ("name", Json.JString (name e));
        ("entityType", Json.JString (entityType e));
        ("observations", Json.JArray (map Json.JString (observations e)))]).

Definition relationLine (r : Relation) : string :=
  Json.stringify
    (Json.JObject
       [("type", Json.JString "relation");
        ("from", Json.JString (from r));
        ("to", Json.JString (to r));
        ("relationType", Json.JString (relationType r))]).

(** the text [saveGraph] writes *)
Definition serialize (graph : KnowledgeGraph) : string :=
  Js.join newlineStr (map entityLine (entities graph) ++ map relationLine (relations graph)).

(** [saveGraph] *)
Definition saveGraph (graph : KnowledgeGraph) : M unit := writeFile (serialize graph).

(** a read-only operation: load the graph, compute on it *)
Definition query {A} (f : KnowledgeGraph -> A) : M A :=
  (let* graph := loadGraph in ret (f graph)).

(** ** CRUD operations *)

Definition hasName (ents : list Entity) (n : string) : bool :=
  existsb (fun existingEntity => String.eqb (name existingEntity) n) ents.

Definition sameRelation (a b : Relation) : bool :=
  String.eqb (from a) (from b) && String.eqb (to a) (to b)
  && String.eqb (relationType a) (relationType b).

(** [createEntities] *)
Definition createEntities (input : list Entity) : M (list Entity) :=
  (let* graph := loadGraph in
   let newEntities := List.filter (fun e => negb (hasName (entities graph) (name e))) input in
   let* _ := saveGraph {| entities := entities graph ++ newEntities; relations := relations graph |} in
   ret newEntities).

(** [createRelations] *)
Definition createRelations (input : list Relation) : M (list Relation) :=
  (let* graph := loadGraph in
   let newRelations :=
     List.filter (fun r => negb (existsb (fun existingRelation => sameRelation existingRelation r)
                                   (relations graph))) input in
   let* _ := saveGraph {| entities := entities graph; relations := relations graph ++ newRelations |} in
   ret newRelations).

Record ObservationRequest := {
  entityName : string;
  contents : list string
}.

Record ObservationResult := {
  res_entityName : string;
  addedObservations : list string
}.

(** [arr.includes(x)] on an array of strings *)
Definition includesStr (l : list string) (x : string) : bool :=
  existsb (fun y => String.eqb y x) l.

(** the callback of [observations.map] in [addObservations]: the entity is
    found by name and its observation array is extended in place, so later
    requests of the batch see the addition *)
Definition addOne (ents : list Entity) (o : ObservationRequest)
    : Error + (ObservationResult * list Entity) :=
  match list_find (fun e => name e = entityName o) ents with
  | None => inl (EntityNotFound (entityName o))
  | Some (i, entity) =>
      let newObservations :=
        List.filter (fun content => negb (includesStr (observations entity) content))
          (contents o) in
      inr ({| res_entityName := entityName o; addedObservations := newObservations |},
           <[i := {| name := name entity; entityType := entityType entity;
                     observations := observations entity ++ newObservations |}]> ents)
  end.

Fixpoint addAll (ents : list Entity) (reqs : list ObservationRequest)
    : Error + (list ObservationResult * list Entity) :=
  match reqs with
  | [] => inr ([], ents)
  | o :: rest =>
      match addOne ents o with
      | inl e => inl e
      | inr (r, ents') =>
          match addAll ents' rest with
          | inl e => inl e
          | inr (rs, ents'') => inr (r :: rs, ents'')
          end
      end
  end.

(** [addObservations] *)
Definition addObservations (reqs : list ObservationRequest) : M (list ObservationResult) :=
  (let* graph := loadGraph in
   let* out := lift (addAll (entities graph) reqs) in
   let* _ := saveGraph {| entities := snd out; relations := relations graph |} in
   ret (fst out)).

(** [deleteEntities] *)
Definition deleteEntities (entityNames : list string) : M unit :=
  (let* graph := loadGraph in
   saveGraph
     {| entities :=
          List.filter (fun e => negb (includesStr entityNames (name e))) (entities graph);
        relations :=
          List.filter (fun r => negb (includesStr entityNames (from r))
                                && negb (includesStr entityNames (to r)))
            (relations graph) |}).

Record ObservationDeletion := {
  del_entityName : string;
  del_observations : list string
}.

(** the callback of [deletions.forEach] in [deleteObservations] *)
Definition deleteOne (ents : list Entity) (d : ObservationDeletion) : list Entity :=
  match list_find (fun e => name e = del_entityName d) ents with
  | None => ents
  | Some (i, entity) =>
      <[i := {| name := name entity; entityType := entityType entity;
                observations :=
                  List.filter (fun o => negb (includesStr (del_observations d) o))
                    (observations entity) |}]> ents
  end.

(** [deleteObservations] *)
Definition deleteObservations (deletions : list ObservationDeletion) : M unit :=
  (let* graph := loadGraph in
   saveGraph {| entities := fold_left deleteOne deletions (entities graph);
                relations := relations graph |}).

(** [deleteRelations] *)
Definition deleteRelations (input : list Relation) : M unit :=
  (let* graph := loadGraph in
   saveGraph
     {| entities := entities graph;
        relations :=
          List.filter (fun r => negb (existsb (fun delRelation => sameRelation r delRelation) input))
            (relations graph) |}).


(** ** Graph traversal *)

(** [new Map(graph.entities.map(e => [e.name, e]))]: a later entity of the
    same name replaces an earlier one *)
Definition entityMap (graph : KnowledgeGraph) : gmap string Entity :=
  fold_left (fun m e => <[name e := e]> m) (entities graph) ∅.


Inductive Direction := Incoming | Outgoing | Both.

Record NeighborResult := {
  nb_entity : Entity;
  nb_relation : Relation;
  nb_direction : Direction
}.

Definition dirEqb (a b : Direction) : bool :=
  match a, b with
  | Incoming, Incoming | Outgoing, Outgoing | Both, Both => true
  | _, _ => false
  end.

(** a string option that is given and not empty (JavaScript truthiness) *)
Definition given (o : option string) : option string :=
  match o with
  | Some s => if Js.isEmpty s then None else Some s
  | None => None
  end.

(** the body of the relation loop of [getNeighbors] *)
Definition neighborsOf (emap : gmap string Entity) (entityName : string)
    (direction : Direction) (relationType' : option string) (rel : Relation)
    : list NeighborResult :=
  let skipped :=
    match given relationType' with
    | Some rt => negb (String.eqb (relationType rel) rt)
    | None => false
    end in
  if skipped then []
  else
    ((if (dirEqb direction Both || dirEqb direction Outgoing) && String.eqb (from rel) entityName
      then match emap !! to rel with
           | Some targetEntity =>
               [{| nb_entity := targetEntity; nb_relation := rel; nb_direction := Outgoing |}]
           | None => []
           end
      else []) ++
     (if (dirEqb direction Both || dirEqb direction Incoming) && String.eqb (to rel) entityName
      then match emap !! from rel with
           | Some sourceEntity =>
               [{| nb_entity := sourceEntity; nb_relation := rel; nb_direction := Incoming |}]
           | None => []
           end
      else []))%list.

(** [getNeighbors]; [direction] defaults to [Both] at the call *)
Definition getNeighbors (entityName : string) (direction : Direction)
    (relationType' : option string) (graph : KnowledgeGraph) : list NeighborResult :=
  let emap := entityMap graph in
  match emap !! entityName with
  | None => []
  | Some _ =>
      flat_map (neighborsOf emap entityName direction relationType') (relations graph)
  end.

Record PathResult := {
  path : list (option Entity);   (* [entityMap.get(name)!]; [None] is [undefined] *)
  pathRelations : list Relation;
  pathLength : nat
}.

(** [adjacency.get(k)?.push(x)] *)
Definition pushTo (k : string) (x : string * Relation)
    (adj : gmap string (list (string * Relation))) : gmap string (list (string * Relation)) :=
  match adj !! k with
  | Some l => <[k := (l ++ [x])%list]> adj
  | None => adj
  end.

(** the adjacency list of [findPath] *)
Definition adjacency (graph : KnowledgeGraph) : gmap string (list (string * Relation)) :=
  let init := fold_left (fun adj entity => <[name entity := []]> adj) (entities graph) ∅ in
  fold_left
    (fun adj rel => pushTo (to rel) (from rel, rel) (pushTo (from rel) (to rel, rel) adj))
    (relations graph) init.

(** [adjacency.get(name) || []] *)
Definition adjacent (adj : gmap string (list (string * Relation))) (n : string)
    : list (string * Relation) :=
  match adj !! n with
  | Some l => l
  | None => []
  end.

Record QueueItem := {
  q_name : string;
  q_path : list string;
  q_relations : list Relation
}.

(** the items the expansion of [current] pushes *)
Definition expand (adj : gmap string (list (string * Relation))) (visited : gset string)
    (current : QueueItem) : list QueueItem :=
  map (fun nr => {| q_name := fst nr;
                    q_path := q_path current ++ [fst nr];
                    q_relations := q_relations current ++ [snd nr] |})
    (List.filter (fun nr => negb (bool_decide (fst nr ∈ visited))) (adjacent adj (q_name current))).

(** the [while (queue.length > 0)] loop of [findPath]; [fuel] bounds the
    number of iterations and the outer [None] says that it ran out *)
Fixpoint bfs (emap : gmap string Entity) (adj : gmap string (list (string * Relation)))
    (toEntity : string) (maxDepth : nat)
    (fuel : nat) (visited : gset string) (queue : list QueueItem)
    : option (option PathResult) :=
  match fuel with
  | O => None
  | S fuel' =>
      match queue with
      | [] => Some None
      | current :: rest =>
          if String.eqb (q_name current) toEntity then
            Some (Some {| path := map (fun n => emap !! n) (q_path current);
                          pathRelations := q_relations current;
                          pathLength := length (q_path current) - 1 |})
          else if Nat.ltb maxDepth (length (q_path current)) then
            bfs emap adj toEntity maxDepth fuel' visited rest
          else if bool_decide (q_name current ∈ visited) then
            bfs emap adj toEntity maxDepth fuel' visited rest
          else
            let visited' := visited ∪ {[q_name current]} in
            bfs emap adj toEntity maxDepth fuel' visited'
              (rest ++ expand adj visited' current)
      end
  end.

(** [findPath] run for at most [fuel] iterations of its loop *)
Definition findPathWithin (fuel : nat) (fromEntity toEntity : string) (maxDepth : nat)
    (graph : KnowledgeGraph) : option (option PathResult) :=
  let emap := entityMap graph in
  match emap !! fromEntity, emap !! toEntity with
  | Some a, Some _ =>
      if String.eqb fromEntity toEntity then
        Some (Some {| path := [Some a]; pathRelations := []; pathLength := 0 |})
      else
        bfs emap (adjacency graph) toEntity maxDepth fuel ∅
          [{| q_name := fromEntity; q_path := [fromEntity]; q_relations := [] |}]
  | _, _ => Some None
  end.

(** every relation is pushed at most twice, and every item is taken once *)
Definition loopBound (graph : KnowledgeGraph) : nat := 2 * length (relations graph) + 2.

(** [findPath]; the inner [None] is [null] *)
Definition findPath (fromEntity toEntity : string) (maxDepth : nat)
    (graph : KnowledgeGraph) : option (option PathResult) :=
  findPathWithin (loopBound graph) fromEntity toEntity maxDepth graph.

(** one round of the expansion loop of [getSubgraph] *)
Definition expandRound (rels : list Relation) (entitySet : gset string) : gset string :=
  let newNeighbors : gset string :=
    fold_left
      (fun acc rel =>
         let acc1 := if bool_decide (from rel ∈ entitySet) then acc ∪ {[to rel]} else acc in
         if bool_decide (to rel ∈ entitySet) then acc1 ∪ {[from rel]} else acc1)
      rels ∅ in
  entitySet ∪ newNeighbors.

Fixpoint expandRounds (rels : list Relation) (depth : nat) (entitySet : gset string)
    : gset string :=
  match depth with
  | O => entitySet
  | S d => expandRounds rels d (expandRound rels entitySet)
  end.

(** [getSubgraph]; [depth] defaults to 1 at the call *)
Definition getSubgraph (entityNames : list string) (depth : nat) (graph : KnowledgeGraph)
    : KnowledgeGraph :=
  let entitySet := expandRounds (relations graph) depth (list_to_set entityNames) in
  {| entities := List.filter (fun e => bool_decide (name e ∈ entitySet)) (entities graph);
     relations :=
       List.filter (fun r => bool_decide (from r ∈ entitySet) && bool_decide (to r ∈ entitySet))
         (relations graph) |}.



(** ** The search orchestrator *)

Record SearchOptions := {
  includeNeighbors : bool;
  fuzzy : bool;
  limit : option Z
}.

Record Score := {
  score_name : string;
  score : nat
}.

Record SearchResult := {
  sr_entities : list Entity;
  sr_relations : list Relation;
  sr_scores : list Score
}.

Definition emptyResult : SearchResult :=
  {| sr_entities := []; sr_relations := []; sr_scores := [] |}.

(** [arr.sort((a, b) => b.score - a.score)]: stable, by descending score;
    [insertByScore] puts an element in front of a sorted tail of later elements *)
Fixpoint insertByScore (x : Entity * nat) (l : list (Entity * nat)) : list (Entity * nat) :=
  match l with
  | [] => [x]
  | y :: rest =>
      if Nat.leb (snd y) (snd x) then x :: y :: rest else y :: insertByScore x rest
  end.

Definition sortByScore (l : list (Entity * nat)) : list (Entity * nat) :=
  fold_right insertByScore [] l.

(** [limit ? scored.slice(0, limit) : scored] *)
Definition applyLimit {A} (limit' : option Z) (scored : list A) : list A :=
  match limit' with
  | None => scored
  | Some n =>
      if Z.eqb n 0 then scored
      else if Z.ltb 0 n then firstn (Z.to_nat n) scored
      else firstn (length scored - Z.to_nat (- n)) scored
  end.

(** [fieldRegex] of [searchNodes], which has no quoted alternative:
    a keyword, a colon and [\S+] *)
Definition plainFieldAt (s : string) : option (unit * nat) :=
  match keywordAt s with
  | Some (_, k) =>
      let afterKw := Js.slice k s in
      if Js.startsWith afterKw ":" then
        match Js.nonSpaceAt (Js.slice 1 afterKw) with
        | Some (_, len) => Some (tt, k + 1 + len)
        | None => None
        end
      else None
  | None => None
  end.

(** [Set.add] on a set that is iterated later *)
Definition addName (names : list string) (n : string) : list string :=
  if includesStr names n then names else names ++ [n].

(** the filter callback of step 1 of [searchNodes] *)
Definition entityMatches (fieldQuery : FieldQuery) (fuzzy' : bool) (entity : Entity) : bool :=
  if negb (entityMatchesFieldQuery entity fieldQuery) then
    match fuzzy', fq_all fieldQuery with
    | true, Some all =>
        existsb (fun token => fuzzyMatch (allText entity) token None)
          (required all ++ optional all ++ phrases all)
    | _, _ => false
    end
  else true.

(** step 4 of [searchNodes]: the entities one hop away *)
Definition withNeighbors (graph : KnowledgeGraph) (matchedEntities : list Entity)
    (matchedEntityNames : gset string) : list Entity * gset string :=
  let neighborNames :=
    fold_left
      (fun acc rel =>
         let acc1 := if bool_decide (from rel ∈ matchedEntityNames) then addName acc (to rel) else acc in
         if bool_decide (to rel ∈ matchedEntityNames) then addName acc1 (from rel) else acc1)
      (relations graph) [] in
  fold_left
    (fun (acc : list Entity * gset string) n =>
       let '(ents, names) := acc in
       if bool_decide (n ∈ names) then (ents, names)
       else match List.find (fun e => String.eqb (name e) n) (entities graph) with
            | Some neighborEntity => ((ents ++ [neighborEntity])%list, names ∪ {[n]})
            | None => (ents, names)
            end)
    neighborNames (matchedEntities, matchedEntityNames).

(** [searchNodes] *)
Definition searchNodes (query' : string) (options : SearchOptions) (graph : KnowledgeGraph)
    : SearchResult :=
  if Js.isEmpty (Js.trim query') then emptyResult
  else
    let fieldQuery := parseFieldQuery query' in
    let hasFieldQueries :=
      match fq_name fieldQuery, fq_type fieldQuery, fq_obs fieldQuery with
      | None, None, None => false
      | _, _, _ => true
      end in
    let hasAllQuery :=
      match fq_all fieldQuery with
      | Some all =>
          Nat.ltb 0 (length (required all)) || Nat.ltb 0 (length (optional all))
          || Nat.ltb 0 (length (phrases all))
      | None => false
      end in
    if negb hasFieldQueries && negb hasAllQuery then emptyResult
    else
      let matched0 := List.filter (entityMatches fieldQuery (fuzzy options)) (entities graph) in
      let rawQuery := Js.trim (Js.removeAll plainFieldAt 0 query') in
      let scoringQuery := if Js.isEmpty rawQuery then query' else rawQuery in
      let scored :=
        sortByScore
          (map (fun entity => (entity, scoreEntity entity scoringQuery (fuzzy options))) matched0) in
      let limitedScored := applyLimit (limit options) scored in
      let matchedEntities := map fst limitedScored in
      let matchedEntityNames : gset string := list_to_set (map name matchedEntities) in
      let '(matchedEntities', matchedEntityNames') :=
        if includeNeighbors options && negb (bool_decide (matchedEntityNames = ∅))
        then withNeighbors graph matchedEntities matchedEntityNames
        else (matchedEntities, matchedEntityNames) in
      {| sr_entities := matchedEntities';
         sr_relations :=
           List.filter (fun r => bool_decide (from r ∈ matchedEntityNames')
                                 || bool_decide (to r ∈ matchedEntityNames'))
             (relations graph);
         sr_scores :=
           map (fun s => {| score_name := name (fst s); score := snd s |}) limitedScored |}.

(** ** Filtering and observation-level search *)


(** [scoreObservation] *)
Definition scoreObservation (observation query' : string) (fuzzy' : bool) : nat :=
  let queryLower := Js.toLowerCase query' in
  let obsLower := Js.toLowerCase observation in
  let tokens := tokenize query' in
  let score0 := if Js.includes obsLower queryLower then 0 + 100 else 0 in
  let score1 :=
    fold_left
      (fun score token =>
         if Js.includes obsLower token then score + 20
         else if fuzzy' && fuzzyMatch observation token None then score + 10
         else score)
      tokens score0 in
  if Js.startsWith obsLower queryLower
     || existsb (fun t => Js.startsWith obsLower t) tokens
  then score1 + 15
  else score1.

Record ObservationMatch := {
  om_entityName : string;
  om_entityType : string;
  om_observation : string;
  om_score : nat
}.

Record ObservationSearchOptions := {
  os_limit : option Z;
  os_includeEntity : bool;
  os_fuzzy : bool
}.

Record ObservationSearchResult := {
  matches : list ObservationMatch;
  os_entities : option (list Entity)   (* [None]: the field is not set *)
}.

(** the replacement of every plus sign, minus sign and double quote by a
    blank, before the query is scored *)
Fixpoint blankOperators (s : string) : string :=
  match s with
  | EmptyString => EmptyString
  | String c s' =>
      String (if Ascii.eqb c "+" || Ascii.eqb c "-" || Js.isQuote c then " "%char else c)
        (blankOperators s')
  end.

(** [allMatches.sort((a, b) => b.score - a.score)]: stable, by descending
    score *)
Fixpoint insertMatch (x : ObservationMatch) (l : list ObservationMatch)
    : list ObservationMatch :=
  match l with
  | [] => [x]
  | y :: rest =>
      if Nat.leb (om_score y) (om_score x) then x :: y :: rest
      else y :: insertMatch x rest
  end.

Definition sortMatches (l : list ObservationMatch) : list ObservationMatch :=
  fold_right insertMatch [] l.

(** [arr.slice(0, n)] for an integer [n] *)
Definition sliceTo {A} (n : Z) (l : list A) : list A :=
  if Z.leb 0 n then firstn (Z.to_nat n) l
  else firstn (length l - Z.to_nat (- n)) l.

(** the body of the inner loop of [searchObservations]: the match an
    observation contributes, if any *)
Definition observationMatch (query' : string) (parsed : ParsedQuery) (fuzzy' : bool)
    (entity : Entity) (observation : string) : list ObservationMatch :=
  let admitted :=
    if negb (matchesParsedQuery observation parsed) then
      if fuzzy' then
        existsb (fun term => fuzzyMatch observation term None)
          (required parsed ++ optional parsed ++ phrases parsed)
      else false
    else true in
  if admitted then
    let rawQuery := Js.trim (blankOperators query') in
    let score := scoreObservation observation rawQuery fuzzy' in
    if Nat.ltb 0 score then
      [{| om_entityName := name entity; om_entityType := entityType entity;
          om_observation := observation; om_score := score |}]
    else []
  else [].

(** [searchObservations]; [limit] defaults to 10 *)
Definition searchObservations (query' : string) (options : ObservationSearchOptions)
    (graph : KnowledgeGraph) : ObservationSearchResult :=
  let limit' := match os_limit options with Some n => n | None => 10%Z end in
  if Js.isEmpty (Js.trim query') then {| matches := []; os_entities := None |}
  else
    let parsed := parseQuery query' in
    let allMatches :=
      flat_map
        (fun entity =>
           flat_map (observationMatch query' parsed (os_fuzzy options) entity)
             (observations entity))
        (entities graph) in
    let limitedMatches := sliceTo limit' (sortMatches allMatches) in
    {| matches := limitedMatches;
       os_entities :=
         if os_includeEntity options && Nat.ltb 0 (length limitedMatches) then
           let entityNames : gset string := list_to_set (map om_entityName limitedMatches) in
           Some (List.filter (fun e => bool_decide (name e ∈ entityNames)) (entities graph))
         else None |}.

(** * Vocabulary of the properties *)

(** ** The query parser *)

Definition isRequiredToken (token : string) : bool :=
  Js.startsWith token "+" && Nat.ltb 1 (String.length token).

Definition isExcludedToken (token : string) : bool :=
  Js.startsWith token "-" && Nat.ltb 1 (String.length token).

(** a token that begins with neither operator *)
Definition isPlainToken (token : string) : bool :=
  negb (Js.startsWith token "+") && negb (Js.startsWith token "-").

Definition stripped (token : string) : string := Js.toLowerCase (Js.slice 1 token).

(** The classification as the specification words it: whatever is not a
    required and not an excluded token is an optional term. *)
Definition classification_as_specified (query : string) : Prop :=
  let tokens := queryTokens query in
  required (parseQuery query) = map stripped (List.filter isRequiredToken tokens)
  /\ excluded (parseQuery query) = map stripped (List.filter isExcludedToken tokens)
  /\ optional (parseQuery query)
     = map Js.toLowerCase
         (List.filter (fun t => negb (isRequiredToken t) && negb (isExcludedToken t)) tokens).

(** ** The matcher *)

Definition isLowered (term : string) : bool := String.eqb (Js.toLowerCase term) term.

(** every term of the query is in lower case, as [parseQuery] stores it *)
Definition lowered (parsed : ParsedQuery) : Prop :=
  forallb isLowered (required parsed ++ optional parsed ++ excluded parsed ++ phrases parsed)
  = true.

(** [term] is a substring of [text] when case is ignored *)
Definition ciIncludes (text term : string) : bool :=
  Js.includes (Js.toLowerCase text) (Js.toLowerCase term).

(** ** The scorer *)

(** the two entities of the counterexample to C4 *)
Definition exactButBare : Entity :=
  {| name := "auth"; entityType := "module"; observations := [] |}.
Definition partialButRich : Entity :=
  {| name := "auth-service"; entityType := "auth"; observations := ["auth for the api"] |}.

(** ** The JSONL store *)

Definition entityJson (e : Entity) : Json.json :=
  Json.JObject
    [("type", Json.JString "entity");
     ("name", Json.JString (name e));
     ("entityType", Json.JString (entityType e));
     ("observations", Json.JArray (map Json.JString (observations e)))].

Definition relationJson (r : Relation) : Json.json :=
  Json.JObject
    [("type", Json.JString "relation");
     ("from", Json.JString (from r));
     ("to", Json.JString (to r));
     ("relationType", Json.JString (relationType r))].

(** the text of an array of strings *)
Definition arrayText (l : list string) : string :=
  Json.stringify (Json.JArray (map Json.JString l)).

(** *** Lines *)

Fixpoint hasNewline (s : string) : bool :=
  match s with
  | EmptyString => false
  | String c s' => Ascii.eqb c Json.newline || hasNewline s'
  end.

Definition graphLines (graph : KnowledgeGraph) : list string :=
  map entityLine (entities graph) ++ map relationLine (relations graph).

(** the file holds the graph: [loadGraph] succeeds with it *)
Definition holds (file : File) (graph : KnowledgeGraph) : Prop :=
  loadGraph file = (inr graph, file).

(** ** CRUD operations on a file that holds a graph *)

(** no entity of the graph has the name *)
Definition absent (graph : KnowledgeGraph) (n : string) : Prop :=
  hasName (entities graph) n = false.

(** the graph mentions the name nowhere: no entity has it and no relation
    starts or ends at it *)
Definition unmentioned (graph : KnowledgeGraph) (n : string) : Prop :=
  absent graph n /\ forall r, In r (relations graph) -> from r <> n /\ to r <> n.

(** a graph of two entities and one relation, and the file that holds it *)
Definition twoEntities : KnowledgeGraph :=
  {| entities :=
       [{| name := "Alice"; entityType := "person"; observations := ["works at Acme"] |};
        {| name := "Bob"; entityType := "person"; observations := [] |}];
     relations := [{| from := "Alice"; to := "Bob"; relationType := "knows" |}] |}.

Definition twoEntitiesFile : File := Some (serialize twoEntities).

(** *** Uniqueness of entity names *)

Definition namesUnique (graph : KnowledgeGraph) : Prop := NoDup (map name (entities graph)).

Definition alice : Entity :=
  {| name := "Alice"; entityType := "person"; observations := ["works at Acme"] |}.

(** *** Observations without repetition *)

Definition aliceFile : File :=
  Some (serialize {| entities := [alice]; relations := [] |}).

(** ** Subgraph extraction *)

(** [r] joins the names [u] and [v], in either direction *)
Definition joins (r : Relation) (u v : string) : Prop :=
  (from r = u /\ to r = v) \/ (to r = u /\ from r = v).

(** [hops rels n a c]: [c] is reached from [a] by following [n] relations,
    each in either direction *)
Inductive hops (rels : list Relation) : nat -> string -> string -> Prop :=
| hops_here a : hops rels 0 a a
| hops_step n a b c r :
    hops rels n a b -> In r rels -> joins r b c -> hops rels (S n) a c.

(** [c] is within [k] hops of a name of [seeds] *)
Definition withinHops (rels : list Relation) (seeds : list string) (k : nat) (c : string)
    : Prop :=
  exists s n, In s seeds /\ n <= k /\ hops rels n s c.

(** *** The adjacency list *)

(** what the relation loop of [findPath] pushes for the name [u] *)
Definition adjOf (rels : list Relation) (u : string) : list (string * Relation) :=
  flat_map
    (fun r =>
       (if String.eqb (from r) u then [(to r, r)] else [])
       ++ (if String.eqb (to r) u then [(from r, r)] else []))%list
    rels.

(** *** Undirected paths of the graph *)

Definition isEntity (graph : KnowledgeGraph) (n : string) : Prop :=
  hasName (entities graph) n = true.

(** from the entity [u] the stored relation [r] leads to [v] *)
Definition adjstep (graph : KnowledgeGraph) (u v : string) (r : Relation) : Prop :=
  isEntity graph u /\ In r (relations graph) /\ joins r u v.

(** [chain graph p rs]: the names [p] are visited in turn, the [i]-th
    relation of [rs] leading from the [i]-th name, an entity, to the next *)
Inductive chain (graph : KnowledgeGraph) : list string -> list Relation -> Prop :=
| chain_one a : chain graph [a] []
| chain_cons a b l r rs :
    adjstep graph a b r -> chain graph (b :: l) rs -> chain graph (a :: b :: l) (r :: rs).

(** an undirected path from [a] to [b]: every name on it is an entity and
    every step follows a stored relation, forwards or backwards *)
Definition isPath (graph : KnowledgeGraph) (a b : string) (p : list string)
    (rs : list Relation) : Prop :=
  chain graph p rs /\ head p = Some a /\ List.last p a = b /\ isEntity graph b.

(** *** Termination of the loop *)

(** the relation ends that are not visited yet: a bound on what is still
    to be pushed *)
Fixpoint potential (rels : list Relation) (visited : gset string) : nat :=
  match rels with
  | [] => 0
  | r :: rest =>
      (if bool_decide (from r ∈ visited) then 0 else 1)
      + (if bool_decide (to r ∈ visited) then 0 else 1)
      + potential rest visited
  end.

(** *** The invariant of the loop *)

Definition level (it : QueueItem) : nat := length (q_path it) - 1.

Section Bfs.

Variables (graph : KnowledgeGraph) (a b : string) (maxDepth : nat).

(** a queued item records a chain from [a] to its name, within the depth *)
Definition itemOk (it : QueueItem) : Prop :=
  chain graph (q_path it) (q_relations it)
  /\ head (q_path it) = Some a
  /\ List.last (q_path it) a = q_name it
  /\ level it <= maxDepth.

(** the queue holds the items of one level, then those of the next *)
Definition layered (queue : list QueueItem) : Prop :=
  exists l (front back : list QueueItem),
    queue = (front ++ back)%list
    /\ Forall (fun it => level it = l) front
    /\ Forall (fun it => level it = S l) back.

(** every path to [b] within the depth has a name in the queue, no deeper
    than on the path, behind which nothing is visited *)
Definition frontier (visited : gset string) (queue : list QueueItem) : Prop :=
  forall p rs, isPath graph a b p rs -> length rs <= maxDepth ->
    exists (pre : list string) x suf it,
      p = (pre ++ x :: suf)%list
      /\ In it queue /\ q_name it = x /\ level it <= length pre
      /\ Forall (fun n => n ∉ visited) (x :: suf).

Definition inv (visited : gset string) (queue : list QueueItem) : Prop :=
  Forall itemOk queue /\ layered queue /\ frontier visited queue.

(** the result is a shortest path from [a] to [b] *)
Definition shortest (r : PathResult) : Prop :=
  exists p rs es,
    isPath graph a b p rs
    /\ path r = map Some es /\ map name es = p
    /\ pathRelations r = rs
    /\ pathLength r = length rs
    /\ forall p' rs', isPath graph a b p' rs' -> length rs <= length rs'.

End Bfs.

(** four modules in a row, the first also importing the third, and a
    module apart *)
Definition modules : KnowledgeGraph :=
  {| entities :=
       map (fun n => {| name := n; entityType := "Module"; observations := [] |})
         ["A"; "B"; "C"; "D"; "Z"];
     relations :=
       [{| from := "A"; to := "B"; relationType := "imports" |};
        {| from := "B"; to := "C"; relationType := "imports" |};
        {| from := "C"; to := "D"; relationType := "imports" |};
        {| from := "A"; to := "C"; relationType := "imports" |}] |}.

(** *** Deleting observations *)

(** [e'] is [e] with some observations removed *)
Definition shrunk (e e' : Entity) : Prop :=
  name e' = name e /\ entityType e' = entityType e
  /\ exists keep, observations e' = List.filter keep (observations e).

(** no entity named by the deletion still carries one of its observations *)
Definition removed (d : ObservationDeletion) (ents : list Entity) : Prop :=
  forall e o, In e ents -> name e = del_entityName d ->
              In o (del_observations d) -> ~ In o (observations e).

(** *** Adding observations *)

(** [e'] is [e] with observations appended *)
Definition grew (e e' : Entity) : Prop :=
  name e' = name e /\ entityType e' = entityType e
  /\ exists extra, observations e' = (observations e ++ extra)%list.

(** the answer to a request that added nothing *)
Definition nothingAdded (o : ObservationRequest) : ObservationResult :=
  {| res_entityName := entityName o; addedObservations := [] |}.

(** *** The rows of a memory file *)

(** a row of the file: the line of an entity, the line of a relation, or
    white space only (which may hold line breaks of its own) *)
Inductive Row :=
| EntityRow (e : Entity)
| RelationRow (r : Relation)
| BlankRow (pad : string).

(** the test [line.trim() !== ...] of [loadGraph] against the empty string *)
Definition nonBlank (line : string) : bool := negb (Js.isEmpty (Js.trim line)).

Fixpoint allSpace (s : string) : bool :=
  match s with
  | EmptyString => true
  | String c s' => Js.isSpace c && allSpace s'
  end.

Definition rowText (row : Row) : string :=
  match row with
  | EntityRow e => entityLine e
  | RelationRow r => relationLine r
  | BlankRow pad => pad
  end.

Definition rowOk (row : Row) : Prop :=
  match row with
  | BlankRow pad => allSpace pad = true
  | _ => True
  end.

Fixpoint rowEntities (rows : list Row) : list Entity :=
  match rows with
  | [] => []
  | EntityRow e :: rest => e :: rowEntities rest
  | _ :: rest => rowEntities rest
  end.

Fixpoint rowRelations (rows : list Row) : list Relation :=
  match rows with
  | [] => []
  | RelationRow r :: rest => r :: rowRelations rest
  | _ :: rest => rowRelations rest
  end.

(** the text of a file with the given rows, one after the other *)
Definition rowsText (rows : list Row) : string := Js.join newlineStr (map rowText rows).

(** *** Induced subgraphs *)


(** *** Neighbours *)

(** the relation type passes the optional filter of [getNeighbors] *)
Definition typeAdmitted (relationType' : option string) (r : Relation) : Prop :=
  match given relationType' with
  | Some rt => relationType r = rt
  | None => True
  end.

(** *** Filtering relations *)



(** *** Edit distance *)

Definition substCost (x y : ascii) : nat := if Ascii.eqb x y then 0 else 1.

(** the recurrence of the edit distance, on the two words read backwards:
    the head of each list is the last character of a prefix *)
Fixpoint lev (ra : list ascii) : list ascii -> nat :=
  match ra with
  | [] => fun rb => length rb
  | x :: ra' =>
      fix inner (rb : list ascii) : nat :=
        match rb with
        | [] => S (length ra')
        | y :: rb' =>
            Nat.min (Nat.min (lev ra' rb + 1) (inner rb' + 1)) (lev ra' rb' + substCost x y)
        end
  end.

(** the cells [matrix[i][j+1..]] of the row of the prefix read backwards as
    [ra], where [rb] is the prefix of [b] up to column [j], backwards *)
Fixpoint rowTail (ra rb : list ascii) (b : string) : list nat :=
  match b with
  | EmptyString => []
  | String c b' => lev ra (c :: rb) :: rowTail ra (c :: rb) b'
  end.

Definition reversed (s : string) : list ascii := rev (list_ascii_of_string s).

(** the test of one word in [fuzzyMatch], without the comparison of lengths *)
Definition closeTo (queryLower : string) (distance : nat) (word : string) : bool :=
  Js.includes word queryLower || Js.includes queryLower word
  || Nat.leb (levenshteinDistance word queryLower) distance.

(** the distance [fuzzyMatch] allows *)
Definition allowed (query : string) (maxDistance : option nat) : nat :=
  match maxDistance with
  | Some d => d
  | None => Nat.max 1 (String.length (Js.toLowerCase query) / 4)
  end.

(** *** Well-formed terms *)

(** some character of the string satisfies [p] *)
Fixpoint anyChar (p : ascii -> bool) (s : string) : bool :=
  match s with
  | EmptyString => false
  | String c s' => p c || anyChar p s'
  end.

(** a term of a parsed query: not empty, in lower case, without white space *)
Definition isTerm (t : string) : Prop :=
  t <> EmptyString /\ Js.toLowerCase t = t /\ anyChar Js.isSpace t = false.

(** a phrase of a parsed query: not empty, in lower case, without a double
    quote (it may hold white space) *)
Definition isPhrase (t : string) : Prop :=
  t <> EmptyString /\ Js.toLowerCase t = t /\ anyChar Js.isQuote t = false.

(** *** Search results *)

(** every number is at least each of the numbers behind it *)
Fixpoint descending (l : list nat) : Prop :=
  match l with
  | [] => True
  | x :: rest => Forall (fun y => y <= x) rest /\ descending rest
  end.

(** *** Plain queries *)

Definition isColon (c : ascii) : bool := Ascii.eqb c ":".

(** the query asks for something: a required term, an optional term or a
    phrase *)
Definition asksFor (parsed : ParsedQuery) : Prop :=
  required parsed <> [] \/ optional parsed <> [] \/ phrases parsed <> [].

(** *** The score of an observation *)


(** a concrete list of strings has no repetition *)
Ltac distinct :=
  repeat (apply NoDup_cons; split;
          [let H := fresh in
           intros H; apply list_elem_of_In in H; simpl in H; intuition discriminate|]);
  constructor.

(** * Properties *)

(** ** Strings *)

Lemma lowerChar_idem (c : ascii) : Js.lowerChar (Js.lowerChar c) = Js.lowerChar c.
Proof. destruct c as [[] [] [] [] [] [] [] []]; reflexivity. Qed.

Lemma toLowerCase_idem (s : string) : Js.toLowerCase (Js.toLowerCase s) = Js.toLowerCase s.
Proof.
  induction s as [|c s IH]; simpl; [reflexivity|].
  now rewrite lowerChar_idem, IH.
Qed.

Lemma length_zero_iff {A} (l : list A) : Nat.eqb (length l) 0 = true <-> l = [].
Proof. destruct l; simpl; split; intros H; try reflexivity; discriminate. Qed.

(** ** The query parser *)

Lemma classify_fold (tokens : list string) (acc : ParsedQuery) :
  fold_left classify tokens acc =
  {| required := required acc ++ map stripped (List.filter isRequiredToken tokens);
     optional := optional acc ++ map Js.toLowerCase (List.filter isPlainToken tokens);
     excluded := excluded acc ++ map stripped (List.filter isExcludedToken tokens);
     phrases := phrases acc |}.
Proof.
  revert acc. induction tokens as [|t ts IH]; intros acc; simpl.
  - rewrite !app_nil_r. now destruct acc.
  - rewrite IH. unfold classify, isRequiredToken, isExcludedToken, isPlainToken, stripped.
    destruct t as [|c t']; simpl; [now rewrite <- app_assoc|].
    destruct (Ascii.eqb c "+") eqn:Hp; destruct (Ascii.eqb c "-") eqn:Hm;
      destruct (Nat.ltb 1 (S (String.length t'))) eqn:Hl; simpl;
      rewrite <- ?app_assoc; simpl; try reflexivity.
    all: apply Ascii.eqb_eq in Hp; apply Ascii.eqb_eq in Hm; congruence.
Qed.

Lemma parseQuery_fields (query : string) :
  parseQuery query =
  {| required := map stripped (List.filter isRequiredToken (queryTokens query));
     optional := map Js.toLowerCase (List.filter isPlainToken (queryTokens query));
     excluded := map stripped (List.filter isExcludedToken (queryTokens query));
     phrases := map Js.toLowerCase (phraseMatches query) |}.
Proof. unfold parseQuery. now rewrite classify_fold. Qed.

(** C7, as stated, fails on the query that is a bare plus sign: the token
    reaches no list, while the specification sends it to the optional terms. *)
Lemma parseQuery_bare_operator_not_optional : ~ classification_as_specified "+".
Proof.
  unfold classification_as_specified. intros (_ & _ & H).
  vm_compute in H. discriminate H.
Qed.

(** C7 (amended): [parseQuery] sends a token that starts with a plus sign
    and is longer than one character, stripped of the sign and lower-cased,
    to the required terms; one that starts with a minus sign and is longer
    than one character to the excluded terms; a token that starts with
    neither sign, lower-cased, to the optional terms; a bare plus or minus
    sign reaches none of the three lists. The order of the tokens is kept. *)
Theorem parseQuery_classification (query : string) :
  let tokens := queryTokens query in
  required (parseQuery query) = map stripped (List.filter isRequiredToken tokens)
  /\ excluded (parseQuery query) = map stripped (List.filter isExcludedToken tokens)
  /\ optional (parseQuery query) = map Js.toLowerCase (List.filter isPlainToken tokens)
  /\ (forall t, t = "+" \/ t = "-" ->
        isRequiredToken t = false /\ isExcludedToken t = false /\ isPlainToken t = false).
Proof.
  simpl. rewrite parseQuery_fields. simpl. repeat split; trivial.
  all: destruct H; subst; reflexivity.
Qed.

Lemma parseQuery_classification_witness :
  parseQuery "+Alice -bob Carol + -"
  = {| required := ["alice"]; optional := ["carol"]; excluded := ["bob"]; phrases := [] |}
  /\ isPlainToken "+" = false.
Proof.
  destruct (parseQuery_classification "+Alice -bob Carol + -") as (Hr & He & Ho & Hbare).
  split.
  - rewrite parseQuery_fields. reflexivity.
  - apply (Hbare "+"). left. reflexivity.
Defined.

(** ** The matcher *)

Lemma forallb_map_lower (f : string -> string) (l : list string) :
  forallb isLowered (map (fun t => Js.toLowerCase (f t)) l) = true.
Proof.
  induction l as [|x l IH]; simpl; [reflexivity|].
  rewrite IH, andb_true_r. unfold isLowered. rewrite toLowerCase_idem. apply String.eqb_refl.
Qed.

Lemma parseQuery_lowered (query : string) : lowered (parseQuery query).
Proof.
  unfold lowered. rewrite parseQuery_fields. simpl.
  rewrite !forallb_app.
  unfold stripped.
  rewrite !(forallb_map_lower (Js.slice 1)).
  rewrite !(forallb_map_lower (fun t => t)). reflexivity.
Qed.

Lemma lowered_term (parsed : ParsedQuery) (text term : string) :
  lowered parsed ->
  In term (required parsed ++ optional parsed ++ excluded parsed ++ phrases parsed) ->
  Js.includes (Js.toLowerCase text) term = ciIncludes text term.
Proof.
  unfold lowered. intros H Hin. rewrite forallb_forall in H.
  apply H in Hin. unfold isLowered in Hin. apply String.eqb_eq in Hin.
  unfold ciIncludes. now rewrite Hin.
Qed.

Lemma existsb_false_iff {A} (f : A -> bool) (l : list A) :
  existsb f l = false <-> forall x, In x l -> f x = false.
Proof.
  induction l as [|a l IH]; simpl.
  - split; [intros _ x []|reflexivity].
  - rewrite orb_false_iff, IH. split.
    + intros [Ha Hl] x [<-|Hx]; auto.
    + intros H. split; auto.
Qed.

(** the conditions of [matchesParsedQuery], read off the code *)
Lemma matchesParsedQuery_spec (text : string) (parsed : ParsedQuery) :
  matchesParsedQuery text parsed = true <->
  (forall t, In t (required parsed) -> Js.includes (Js.toLowerCase text) t = true)
  /\ (forall t, In t (excluded parsed) -> Js.includes (Js.toLowerCase text) t = false)
  /\ (forall t, In t (phrases parsed) -> Js.includes (Js.toLowerCase text) t = true)
  /\ (optional parsed <> [] -> required parsed = [] -> phrases parsed = [] ->
      exists t, In t (optional parsed) /\ Js.includes (Js.toLowerCase text) t = true).
Proof.
  unfold matchesParsedQuery.
  set (lt := Js.toLowerCase text).
  destruct (existsb (fun term => negb (Js.includes lt term)) (required parsed)) eqn:Hreq.
  - (* a required term is missing *)
    apply existsb_exists in Hreq. destruct Hreq as (t & Hin & Ht).
    assert (Hne : Nat.eqb (length (required parsed)) 0 = false).
    { destruct (required parsed); [destruct Hin|reflexivity]. }
    rewrite Hne. simpl. split; [discriminate|].
    intros (H & _). apply H in Hin. rewrite Hin in Ht. discriminate.
  - rewrite andb_false_r.
    rewrite existsb_false_iff in Hreq.
    destruct (existsb (fun term => Js.includes lt term) (excluded parsed)) eqn:Hex.
    + apply existsb_exists in Hex. destruct Hex as (t & Hin & Ht).
      split; [discriminate|]. intros (_ & H & _). apply H in Hin. congruence.
    + rewrite existsb_false_iff in Hex.
      destruct (existsb (fun phrase => negb (Js.includes lt phrase)) (phrases parsed)) eqn:Hph.
      * apply existsb_exists in Hph. destruct Hph as (t & Hin & Ht).
        split; [discriminate|]. intros (_ & _ & H & _). apply H in Hin.
        rewrite Hin in Ht. discriminate.
      * rewrite existsb_false_iff in Hph.
        assert (R : forall t, In t (required parsed) -> Js.includes lt t = true).
        { intros t Ht. apply Hreq in Ht. now apply negb_false_iff in Ht. }
        assert (P : forall t, In t (phrases parsed) -> Js.includes lt t = true).
        { intros t Ht. apply Hph in Ht. now apply negb_false_iff in Ht. }
        destruct (negb (Nat.eqb (length (optional parsed)) 0)
                  && Nat.eqb (length (required parsed)) 0
                  && Nat.eqb (length (phrases parsed)) 0
                  && negb (existsb (fun term => Js.includes lt term) (optional parsed)))
          eqn:Hopt.
        -- rewrite !andb_true_iff in Hopt. destruct Hopt as [[[Ho Hr] Hp] He].
           apply negb_true_iff in Ho, He.
           apply length_zero_iff in Hr, Hp.
           rewrite existsb_false_iff in He.
           split; [discriminate|]. intros (_ & _ & _ & H).
           destruct H as (t & Hin & Ht); trivial.
           ++ intros E. rewrite E in Ho. discriminate.
           ++ apply He in Hin. congruence.
        -- split; [intros _|reflexivity].
           repeat split; trivial.
           intros Ho Hr Hp. rewrite Hr, Hp in Hopt. simpl in Hopt.
           rewrite andb_true_r in Hopt.
           destruct (optional parsed) as [|o os] eqn:Eo; [congruence|].
           simpl in Hopt. apply negb_false_iff in Hopt.
           change (existsb (fun term => Js.includes lt term) (o :: os) = true) in Hopt.
           apply existsb_exists in Hopt. exact Hopt.
Qed.

(** C8: [matchesParsedQuery] holds exactly when every required term is a
    case-insensitive substring of the text, no excluded term is one, every
    phrase is one and, when there are optional terms but neither required
    terms nor phrases, some optional term is one; the parsed query without
    any term matches every text. The terms are in lower case, as
    [parseQuery] produces them. *)
Theorem matchesParsedQuery_iff (text : string) (parsed : ParsedQuery) :
  lowered parsed ->
  (matchesParsedQuery text parsed = true <->
   (forall t, In t (required parsed) -> ciIncludes text t = true)
   /\ (forall t, In t (excluded parsed) -> ciIncludes text t = false)
   /\ (forall t, In t (phrases parsed) -> ciIncludes text t = true)
   /\ (optional parsed <> [] -> required parsed = [] -> phrases parsed = [] ->
       exists t, In t (optional parsed) /\ ciIncludes text t = true))
  /\ (forall text', matchesParsedQuery text' emptyParsed = true).
Proof.
  intros Hlow. split; [|reflexivity].
  assert (E : forall t,
             In t (required parsed ++ optional parsed ++ excluded parsed ++ phrases parsed) ->
             Js.includes (Js.toLowerCase text) t = ciIncludes text t).
  { intros t Ht. now apply (lowered_term parsed). }
  rewrite matchesParsedQuery_spec. split.
  - intros (R & X & P & O). repeat split.
    + intros t Ht. rewrite <- E; [auto|]. rewrite !in_app_iff. auto.
    + intros t Ht. rewrite <- E; [auto|]. rewrite !in_app_iff. auto.
    + intros t Ht. rewrite <- E; [auto|]. rewrite !in_app_iff. auto.
    + intros Ho Hr Hp. destruct (O Ho Hr Hp) as (t & Hin & Ht).
      exists t. split; trivial. rewrite <- E; [auto|]. rewrite !in_app_iff. auto.
  - intros (R & X & P & O). repeat split.
    + intros t Ht. rewrite E; [auto|]. rewrite !in_app_iff. auto.
    + intros t Ht. rewrite E; [auto|]. rewrite !in_app_iff. auto.
    + intros t Ht. rewrite E; [auto|]. rewrite !in_app_iff. auto.
    + intros Ho Hr Hp. destruct (O Ho Hr Hp) as (t & Hin & Ht).
      exists t. split; trivial. rewrite E; [auto|]. rewrite !in_app_iff. auto.
Qed.

Lemma matchesParsedQuery_iff_witness :
  matchesParsedQuery "Alice works at Acme"
    {| required := ["alice"]; optional := ["acme"]; excluded := ["bob"]; phrases := [] |}
  = true.
Proof.
  apply (matchesParsedQuery_iff "Alice works at Acme"
           {| required := ["alice"]; optional := ["acme"]; excluded := ["bob"];
              phrases := [] |});
    [reflexivity|].
  cbn [required optional excluded phrases]. repeat split.
  - intros t [<-|[]]. reflexivity.
  - intros t [<-|[]]. reflexivity.
  - intros t [].
  - intros _ H. discriminate H.
Defined.

(** ** The scorer *)

Lemma fold_obsScore_shift (query : string) (fuzzy' : bool) (obs : list string) (a k : nat) :
  fold_left (fun s o => s + obsScore query fuzzy' o) obs (a + k)
  = fold_left (fun s o => s + obsScore query fuzzy' o) obs a + k.
Proof.
  revert a. induction obs as [|o obs IH]; intros a; simpl; [reflexivity|].
  replace (a + k + obsScore query fuzzy' o) with (a + obsScore query fuzzy' o + k) by lia.
  apply IH.
Qed.

(** the decomposition of the score into its three additive parts *)
Lemma scoreEntity_parts (entity : Entity) (query : string) (fuzzy' : bool) :
  scoreEntity entity query fuzzy'
  = fold_left (fun s o => s + obsScore query fuzzy' o) (observations entity) 0
    + typeScore entity query + nameScore entity query fuzzy'.
Proof.
  unfold scoreEntity.
  replace (0 + nameScore entity query fuzzy' + typeScore entity query)
    with (0 + (typeScore entity query + nameScore entity query fuzzy')) by lia.
  rewrite fold_obsScore_shift. lia.
Qed.

Lemma nameScore_exact (entity : Entity) (query : string) (fuzzy' : bool) :
  Js.toLowerCase (name entity) = Js.toLowerCase query ->
  nameScore entity query fuzzy' = 100.
Proof. intros H. unfold nameScore. rewrite H, String.eqb_refl. reflexivity. Qed.

Lemma nameScore_contains (entity : Entity) (query : string) (fuzzy' : bool) :
  Js.toLowerCase (name entity) <> Js.toLowerCase query ->
  Js.includes (Js.toLowerCase (name entity)) (Js.toLowerCase query) = true ->
  nameScore entity query fuzzy' = 50.
Proof.
  intros Hne Hin. unfold nameScore.
  destruct (String.eqb_spec (Js.toLowerCase (name entity)) (Js.toLowerCase query));
    [contradiction|].
  now rewrite Hin.
Qed.

(** C4, as stated, fails: the first entity is named exactly like the query
    and scores 100; the second only contains the query in its name, yet its
    type and its observation raise its score to 105. *)
Lemma scoreEntity_exact_name_can_lose :
  Js.toLowerCase (name exactButBare) = Js.toLowerCase "auth"
  /\ Js.includes (Js.toLowerCase (name partialButRich)) (Js.toLowerCase "auth") = true
  /\ Js.toLowerCase (name partialButRich) <> Js.toLowerCase "auth"
  /\ ~ (scoreEntity exactButBare "auth" false >= scoreEntity partialButRich "auth" false).
Proof.
  repeat split; try reflexivity.
  - vm_compute. discriminate.
  - vm_compute. lia.
Qed.

(** C4 (amended): for every query and every two entities of the same type
    and with the same observations, if the name of the first equals the
    query when case is ignored and the name of the second contains the query
    without being equal to it, the first scores at least as high as the
    second: it scores exactly 50 more. *)
Theorem scoreEntity_exact_name_wins (e1 e2 : Entity) (query : string) (fuzzy' : bool) :
  entityType e1 = entityType e2 ->
  observations e1 = observations e2 ->
  Js.toLowerCase (name e1) = Js.toLowerCase query ->
  Js.includes (Js.toLowerCase (name e2)) (Js.toLowerCase query) = true ->
  Js.toLowerCase (name e2) <> Js.toLowerCase query ->
  scoreEntity e1 query fuzzy' >= scoreEntity e2 query fuzzy'
  /\ scoreEntity e1 query fuzzy' = scoreEntity e2 query fuzzy' + 50.
Proof.
  intros Ht Ho Heq Hin Hne.
  rewrite !scoreEntity_parts.
  rewrite (nameScore_exact e1), (nameScore_contains e2); trivial.
  unfold typeScore. rewrite Ht, Ho. lia.
Qed.

Lemma scoreEntity_exact_name_wins_witness :
  scoreEntity exactButBare "Auth" true
  >= scoreEntity {| name := "auth-service"; entityType := "module"; observations := [] |}
       "Auth" true
  /\ scoreEntity exactButBare "Auth" true
     = scoreEntity {| name := "auth-service"; entityType := "module"; observations := [] |}
         "Auth" true + 50.
Proof.
  apply (scoreEntity_exact_name_wins exactButBare
           {| name := "auth-service"; entityType := "module"; observations := [] |}
           "Auth" true); try reflexivity.
  vm_compute. discriminate.
Defined.

(** ** The search orchestrator *)

(** C10: a query without field scope whose free text yields no required
    term, no optional term and no phrase (only excluded terms, as in the
    query made of a minus sign and a word) finds nothing, whatever the graph
    and the options. *)
Theorem searchNodes_exclusion_only (query' : string) (options : SearchOptions)
    (graph : KnowledgeGraph) :
  fq_name (parseFieldQuery query') = None ->
  fq_type (parseFieldQuery query') = None ->
  fq_obs (parseFieldQuery query') = None ->
  (forall all, fq_all (parseFieldQuery query') = Some all ->
               required all = [] /\ optional all = [] /\ phrases all = []) ->
  searchNodes query' options graph = emptyResult.
Proof.
  intros Hn Ht Ho Hall. unfold searchNodes.
  destruct (Js.isEmpty (Js.trim query')); [reflexivity|].
  rewrite Hn, Ht, Ho.
  destruct (fq_all (parseFieldQuery query')) as [all|]; [|reflexivity].
  destruct (Hall all eq_refl) as (-> & -> & ->). reflexivity.
Qed.

Lemma searchNodes_exclusion_only_witness :
  excluded (parseQuery "-foo") = ["foo"]
  /\ searchNodes "-foo" {| includeNeighbors := true; fuzzy := true; limit := None |}
       {| entities := [exactButBare; partialButRich]; relations := [] |}
     = emptyResult.
Proof.
  split; [reflexivity|].
  apply searchNodes_exclusion_only; try reflexivity.
  intros all H. vm_compute in H. injection H as <-. repeat split.
Defined.

(** ** The JSONL store *)

Lemma append_assoc (a b c : string) : (a ++ b) ++ c = a ++ (b ++ c).
Proof. induction a as [|x a IH]; simpl; [reflexivity|]. now rewrite IH. Qed.

Lemma append_nil_r (a : string) : a ++ "" = a.
Proof. induction a as [|x a IH]; simpl; [reflexivity|]. now rewrite IH. Qed.

Lemma length_append (a b : string) :
  String.length (a ++ b) = String.length a + String.length b.
Proof. induction a as [|x a IH]; simpl; [reflexivity|]. now rewrite IH. Qed.

(** reading back one escaped character *)
Lemma parseStringBody_escapeChar (c : ascii) (tail : string) :
  Json.parseStringBody (Json.escapeChar c ++ tail)
  = Json.consChar c (Json.parseStringBody tail).
Proof. destruct c as [[] [] [] [] [] [] [] []]; reflexivity. Qed.

Lemma parseStringBody_escape (s rest : string) :
  Json.parseStringBody (Json.escape s ++ String Js.quote rest) = Some (s, rest).
Proof.
  induction s as [|c s IH]; simpl; [reflexivity|].
  rewrite append_assoc, parseStringBody_escapeChar, IH. reflexivity.
Qed.

Lemma quoteJSON_app (s rest : string) :
  Json.quoteJSON s ++ rest = String Js.quote (Json.escape s ++ String Js.quote rest).
Proof. unfold Json.quoteJSON. simpl. now rewrite append_assoc. Qed.

(** one step of the parser on a text whose first character is known *)
Lemma parseValue_quote (f : nat) (body : string) :
  Json.parseValue (S f) (String Js.quote body)
  = match Json.parseStringBody body with
    | Some (str, rest) => Some (Json.JString str, rest)
    | None => None
    end.
Proof. reflexivity. Qed.

Lemma parseValue_bracket (f : nat) (body : string) :
  (exists tl, body = String Js.quote tl) ->
  Json.parseValue (S f) (String "[" body)
  = match Json.parseElements f body with
    | Some (items, r) => Some (Json.JArray items, r)
    | None => None
    end.
Proof. intros [tl ->]. reflexivity. Qed.

Lemma parseValue_brace (f : nat) (body : string) :
  (exists tl, body = String Js.quote tl) ->
  Json.parseValue (S f) (String "{" body)
  = match Json.parseMembers f body with
    | Some (members, r) => Some (Json.JObject members, r)
    | None => None
    end.
Proof. intros [tl ->]. reflexivity. Qed.

Lemma parseElements_comma (f : nat) (s tl : string) (v : Json.json) :
  Json.parseValue f s = Some (v, String "," tl) ->
  Json.parseElements (S f) s
  = match Json.parseElements f tl with
    | Some (vs, r) => Some (v :: vs, r)
    | None => None
    end.
Proof. intros H. cbn [Json.parseElements]. rewrite H. reflexivity. Qed.

Lemma parseElements_bracket (f : nat) (s tl : string) (v : Json.json) :
  Json.parseValue f s = Some (v, String "]" tl) ->
  Json.parseElements (S f) s = Some ([v], tl).
Proof. intros H. cbn [Json.parseElements]. rewrite H. reflexivity. Qed.

Lemma parseMembers_step (f : nat) (k body : string) :
  Json.parseMembers (S f) (Json.quoteJSON k ++ ":" ++ body)
  = match Json.parseValue f body with
    | Some (v, rest3) =>
        match Json.skipWs rest3 with
        | String c rest4 =>
            if Ascii.eqb c "," then
              match Json.parseMembers f rest4 with
              | Some (ms, r) => Some ((k, v) :: ms, r)
              | None => None
              end
            else if Ascii.eqb c "}" then Some ([(k, v)], rest4)
            else None
        | EmptyString => None
        end
    | None => None
    end.
Proof.
  rewrite quoteJSON_app.
  change (Json.parseMembers (S f)
            (String Js.quote (Json.escape k ++ String Js.quote (":" ++ body))))
    with (match Json.parseStringBody (Json.escape k ++ String Js.quote (":" ++ body)) with
          | Some (key, rest1) =>
              match Json.skipWs rest1 with
              | String colon rest2 =>
                  if Ascii.eqb colon ":" then
                    match Json.parseValue f rest2 with
                    | Some (v, rest3) =>
                        match Json.skipWs rest3 with
                        | String c rest4 =>
                            if Ascii.eqb c "," then
                              match Json.parseMembers f rest4 with
                              | Some (ms, r) => Some ((key, v) :: ms, r)
                              | None => None
                              end
                            else if Ascii.eqb c "}" then Some ([(key, v)], rest4)
                            else None
                        | EmptyString => None
                        end
                    | None => None
                    end
                  else None
              | EmptyString => None
              end
          | None => None
          end).
  rewrite parseStringBody_escape. reflexivity.
Qed.

Lemma parseValue_string (fuel : nat) (s rest : string) :
  Json.parseValue (S fuel) (Json.quoteJSON s ++ rest) = Some (Json.JString s, rest).
Proof.
  rewrite quoteJSON_app, parseValue_quote, parseStringBody_escape. reflexivity.
Qed.

Lemma join_cons2 (sep x y : string) (l : list string) :
  Js.join sep (x :: y :: l) = x ++ sep ++ Js.join sep (y :: l).
Proof. reflexivity. Qed.

Lemma starts_with_quote (l : list string) (x tail : string) :
  exists tl, Js.join "," (map Json.quoteJSON (x :: l)) ++ tail = String Js.quote tl.
Proof.
  destruct l as [|y l]; cbn [map].
  - cbn [Js.join]. rewrite quoteJSON_app. eauto.
  - rewrite join_cons2, append_assoc, quoteJSON_app. eauto.
Qed.

Lemma parseElements_strings (l : list string) (x : string) (f : nat) (rest : string) :
  Json.parseElements (S (S (length l + f)))
    (Js.join "," (map Json.quoteJSON (x :: l)) ++ "]" ++ rest)
  = Some (map Json.JString (x :: l), rest).
Proof.
  revert x. induction l as [|y l IH]; intros x.
  - cbn [map Js.join length Nat.add].
    apply parseElements_bracket. apply parseValue_string.
  - cbn [map length Nat.add]. rewrite join_cons2, append_assoc.
    rewrite (parseElements_comma _ _
               (Js.join "," (map Json.quoteJSON (y :: l)) ++ "]" ++ rest)
               (Json.JString x)).
    + rewrite IH. reflexivity.
    + apply parseValue_string.
Qed.

Lemma stringify_strings (l : list string) :
  Json.stringify (Json.JArray (map Json.JString l))
  = "[" ++ Js.join "," (map Json.quoteJSON l) ++ "]".
Proof. cbn [Json.stringify]. now rewrite map_map. Qed.

Lemma parseValue_strings (l : list string) (f : nat) (rest : string) :
  Json.parseValue (S (S (S (length l + f))))
    (Json.stringify (Json.JArray (map Json.JString l)) ++ rest)
  = Some (Json.JArray (map Json.JString l), rest).
Proof.
  rewrite stringify_strings. destruct l as [|x l].
  - reflexivity.
  - rewrite !append_assoc.
    change ("[" ++ Js.join "," (map Json.quoteJSON (x :: l)) ++ "]" ++ rest)
      with (String "[" (Js.join "," (map Json.quoteJSON (x :: l)) ++ "]" ++ rest)).
    rewrite parseValue_bracket by apply starts_with_quote.
    replace (S (S (length (x :: l) + f))) with (S (S (length l + S f))) by (simpl; lia).
    rewrite parseElements_strings. reflexivity.
Qed.

(** one member of an object, followed by a comma *)
Lemma parseMembers_comma (f : nat) (k body tail : string) (v : Json.json) :
  (forall rest, Json.parseValue f (body ++ rest) = Some (v, rest)) ->
  Json.parseMembers (S f) (Json.quoteJSON k ++ ":" ++ body ++ "," ++ tail)
  = match Json.parseMembers f tail with
    | Some (ms, r) => Some ((k, v) :: ms, r)
    | None => None
    end.
Proof. intros Hv. rewrite parseMembers_step, Hv. reflexivity. Qed.

(** the last member of an object, followed by the closing brace *)
Lemma parseMembers_brace (f : nat) (k body rest : string) (v : Json.json) :
  (forall rest', Json.parseValue f (body ++ rest') = Some (v, rest')) ->
  Json.parseMembers (S f) (Json.quoteJSON k ++ ":" ++ body ++ "}" ++ rest)
  = Some ([(k, v)], rest).
Proof. intros Hv. rewrite parseMembers_step, Hv. reflexivity. Qed.

Lemma entityLine_app (e : Entity) (rest : string) :
  entityLine e ++ rest
  = String "{"
      (Json.quoteJSON "type" ++ ":" ++ Json.quoteJSON "entity" ++ "," ++
       Json.quoteJSON "name" ++ ":" ++ Json.quoteJSON (name e) ++ "," ++
       Json.quoteJSON "entityType" ++ ":" ++ Json.quoteJSON (entityType e) ++ "," ++
       Json.quoteJSON "observations" ++ ":" ++ arrayText (observations e) ++ "}" ++ rest).
Proof.
  unfold entityLine, arrayText. cbn [Json.stringify map fst snd]. rewrite !join_cons2.
  cbn [Js.join]. rewrite !append_assoc. reflexivity.
Qed.

Lemma relationLine_app (r : Relation) (rest : string) :
  relationLine r ++ rest
  = String "{"
      (Json.quoteJSON "type" ++ ":" ++ Json.quoteJSON "relation" ++ "," ++
       Json.quoteJSON "from" ++ ":" ++ Json.quoteJSON (from r) ++ "," ++
       Json.quoteJSON "to" ++ ":" ++ Json.quoteJSON (to r) ++ "," ++
       Json.quoteJSON "relationType" ++ ":" ++ Json.quoteJSON (relationType r)
       ++ "}" ++ rest).
Proof.
  unfold relationLine. cbn [Json.stringify map fst snd]. rewrite !join_cons2.
  cbn [Js.join]. rewrite !append_assoc. reflexivity.
Qed.

Lemma entityLine_shape (e : Entity) : exists tl, entityLine e = String "{" tl.
Proof. rewrite <- (append_nil_r (entityLine e)), entityLine_app. eauto. Qed.

Lemma relationLine_shape (r : Relation) : exists tl, relationLine r = String "{" tl.
Proof. rewrite <- (append_nil_r (relationLine r)), relationLine_app. eauto. Qed.

Lemma quoted_head (s tail : string) : exists tl, Json.quoteJSON s ++ tail = String Js.quote tl.
Proof. rewrite quoteJSON_app. eauto. Qed.

Lemma parseValue_entityLine (e : Entity) (f : nat) (rest : string) :
  Json.parseValue (8 + length (observations e) + f) (entityLine e ++ rest)
  = Some (entityJson e, rest).
Proof.
  rewrite entityLine_app. cbn [Nat.add].
  rewrite parseValue_brace by apply quoted_head.
  rewrite (parseMembers_comma _ "type" _ _ (Json.JString "entity"))
    by (intros; apply parseValue_string).
  rewrite (parseMembers_comma _ "name" _ _ (Json.JString (name e)))
    by (intros; apply parseValue_string).
  rewrite (parseMembers_comma _ "entityType" _ _ (Json.JString (entityType e)))
    by (intros; apply parseValue_string).
  rewrite (parseMembers_brace _ "observations" _ _
             (Json.JArray (map Json.JString (observations e))))
    by (intros; apply parseValue_strings).
  reflexivity.
Qed.

Lemma parseValue_relationLine (r : Relation) (f : nat) (rest : string) :
  Json.parseValue (6 + f) (relationLine r ++ rest) = Some (relationJson r, rest).
Proof.
  rewrite relationLine_app. cbn [Nat.add].
  rewrite parseValue_brace by apply quoted_head.
  rewrite (parseMembers_comma _ "type" _ _ (Json.JString "relation"))
    by (intros; apply parseValue_string).
  rewrite (parseMembers_comma _ "from" _ _ (Json.JString (from r)))
    by (intros; apply parseValue_string).
  rewrite (parseMembers_comma _ "to" _ _ (Json.JString (to r)))
    by (intros; apply parseValue_string).
  rewrite (parseMembers_brace _ "relationType" _ _ (Json.JString (relationType r)))
    by (intros; apply parseValue_string).
  reflexivity.
Qed.

Lemma length_quoteJSON (s : string) : 2 <= String.length (Json.quoteJSON s).
Proof. unfold Json.quoteJSON. simpl. rewrite length_append. simpl. lia. Qed.

Lemma length_join_quoted (l : list string) :
  length l <= String.length (Js.join "," (map Json.quoteJSON l)).
Proof.
  induction l as [|x l IH]; [simpl; lia|].
  destruct l as [|y l].
  - simpl. pose proof (length_quoteJSON x). unfold Json.quoteJSON in *. simpl in *. lia.
  - cbn [map] in *. rewrite join_cons2, !length_append.
    pose proof (length_quoteJSON x). simpl in *. lia.
Qed.

Lemma length_entityLine (e : Entity) :
  8 + length (observations e) <= S (String.length (entityLine e)).
Proof.
  rewrite <- (append_nil_r (entityLine e)), entityLine_app. unfold arrayText.
  rewrite stringify_strings.
  cbn [String.length]. rewrite !length_append.
  pose proof (length_join_quoted (observations e)). simpl. lia.
Qed.

Lemma length_relationLine (r : Relation) : 6 <= S (String.length (relationLine r)).
Proof.
  rewrite <- (append_nil_r (relationLine r)), relationLine_app.
  cbn [String.length]. rewrite !length_append. simpl. lia.
Qed.

Lemma parse_entityLine (e : Entity) : Json.parse (entityLine e) = Some (entityJson e).
Proof.
  unfold Json.parse.
  pose proof (length_entityLine e) as Hlen.
  replace (S (String.length (entityLine e)))
    with (8 + length (observations e)
          + (S (String.length (entityLine e)) - (8 + length (observations e)))) by lia.
  rewrite <- (append_nil_r (entityLine e)) at 2.
  rewrite parseValue_entityLine. reflexivity.
Qed.

Lemma parse_relationLine (r : Relation) : Json.parse (relationLine r) = Some (relationJson r).
Proof.
  unfold Json.parse.
  pose proof (length_relationLine r) as Hlen.
  replace (S (String.length (relationLine r)))
    with (6 + (S (String.length (relationLine r)) - 6)) by lia.
  rewrite <- (append_nil_r (relationLine r)) at 2.
  rewrite parseValue_relationLine. reflexivity.
Qed.

Lemma jsonStrings_map (l : list string) : jsonStrings (map Json.JString l) = Some l.
Proof. induction l as [|x l IH]; simpl; [reflexivity|]. now rewrite IH. Qed.

(** the reducer of [loadGraph] on a line [saveGraph] wrote *)
Lemma loadLine_entityLine (graph : KnowledgeGraph) (e : Entity) :
  loadLine graph (entityLine e)
  = inr {| entities := entities graph ++ [e]; relations := relations graph |}.
Proof.
  unfold loadLine. rewrite parse_entityLine. unfold entityJson. simpl.
  unfold asEntity. simpl. rewrite jsonStrings_map. now destruct e.
Qed.

Lemma loadLine_relationLine (graph : KnowledgeGraph) (r : Relation) :
  loadLine graph (relationLine r)
  = inr {| entities := entities graph; relations := relations graph ++ [r] |}.
Proof.
  unfold loadLine. rewrite parse_relationLine. unfold relationJson. simpl.
  unfold asRelation. simpl. now destruct r.
Qed.

Lemma reduceLines_app (graph : KnowledgeGraph) (l1 l2 : list string) :
  reduceLines graph (l1 ++ l2)
  = match reduceLines graph l1 with
    | inr graph' => reduceLines graph' l2
    | inl e => inl e
    end.
Proof.
  revert graph. induction l1 as [|x l1 IH]; intros graph; simpl; [reflexivity|].
  destruct (loadLine graph x); [reflexivity|]. apply IH.
Qed.

Lemma reduceLines_entities (graph : KnowledgeGraph) (es : list Entity) :
  reduceLines graph (map entityLine es)
  = inr {| entities := entities graph ++ es; relations := relations graph |}.
Proof.
  revert graph. induction es as [|e es IH]; intros graph; simpl.
  - rewrite app_nil_r. now destruct graph.
  - rewrite loadLine_entityLine, IH. simpl. now rewrite <- app_assoc.
Qed.

Lemma reduceLines_relations (graph : KnowledgeGraph) (rs : list Relation) :
  reduceLines graph (map relationLine rs)
  = inr {| entities := entities graph; relations := relations graph ++ rs |}.
Proof.
  revert graph. induction rs as [|r rs IH]; intros graph; simpl.
  - rewrite app_nil_r. now destruct graph.
  - rewrite loadLine_relationLine, IH. simpl. now rewrite <- app_assoc.
Qed.

(** *** Lines *)

Lemma hasNewline_app (a b : string) : hasNewline (a ++ b) = hasNewline a || hasNewline b.
Proof. induction a as [|c a IH]; simpl; [reflexivity|]. now rewrite IH, orb_assoc. Qed.

Lemma hasNewline_escapeChar (c : ascii) : hasNewline (Json.escapeChar c) = false.
Proof. destruct c as [[] [] [] [] [] [] [] []]; reflexivity. Qed.

Lemma hasNewline_escape (s : string) : hasNewline (Json.escape s) = false.
Proof.
  induction s as [|c s IH]; simpl; [reflexivity|].
  now rewrite hasNewline_app, hasNewline_escapeChar, IH.
Qed.

Lemma hasNewline_quoteJSON (s : string) : hasNewline (Json.quoteJSON s) = false.
Proof.
  unfold Json.quoteJSON. simpl. now rewrite hasNewline_app, hasNewline_escape.
Qed.

Lemma hasNewline_join_quoted (l : list string) :
  hasNewline (Js.join "," (map Json.quoteJSON l)) = false.
Proof.
  induction l as [|x l IH]; [reflexivity|].
  destruct l as [|y l].
  - simpl. apply hasNewline_quoteJSON.
  - cbn [map] in *. rewrite join_cons2, !hasNewline_app, IH, hasNewline_quoteJSON.
    reflexivity.
Qed.

Lemma hasNewline_entityLine (e : Entity) : hasNewline (entityLine e) = false.
Proof.
  rewrite <- (append_nil_r (entityLine e)), entityLine_app. unfold arrayText.
  rewrite stringify_strings.
  cbn [hasNewline]. rewrite !hasNewline_app, !hasNewline_quoteJSON, hasNewline_join_quoted.
  reflexivity.
Qed.

Lemma hasNewline_relationLine (r : Relation) : hasNewline (relationLine r) = false.
Proof.
  rewrite <- (append_nil_r (relationLine r)), relationLine_app.
  cbn [hasNewline]. rewrite !hasNewline_app, !hasNewline_quoteJSON.
  reflexivity.
Qed.

Lemma splitLines_nonempty (s : string) : splitLines s <> [].
Proof.
  induction s as [|c s IH]; simpl; [discriminate|].
  destruct (Ascii.eqb c Json.newline); [discriminate|].
  destruct (splitLines s); discriminate.
Qed.

Lemma splitLines_line (a : string) : hasNewline a = false -> splitLines a = [a].
Proof.
  induction a as [|c a IH]; simpl; [reflexivity|].
  intros H. apply orb_false_iff in H. destruct H as [Hc Ha].
  rewrite Hc, (IH Ha). reflexivity.
Qed.

Lemma splitLines_cons (a b : string) :
  hasNewline a = false -> splitLines (a ++ newlineStr ++ b) = a :: splitLines b.
Proof.
  change (newlineStr ++ b) with (String Json.newline b).
  induction a as [|c a IH]; simpl.
  - intros _. reflexivity.
  - intros H. apply orb_false_iff in H. destruct H as [Hc Ha].
    rewrite Hc, (IH Ha). reflexivity.
Qed.

Lemma splitLines_join (x : string) (l : list string) :
  Forall (fun line => hasNewline line = false) (x :: l) ->
  splitLines (Js.join newlineStr (x :: l)) = x :: l.
Proof.
  revert x. induction l as [|y l IH]; intros x H.
  - simpl. apply splitLines_line. now inversion H.
  - rewrite join_cons2. inversion H; subst.
    rewrite splitLines_cons; trivial. now rewrite IH.
Qed.

Lemma filter_all {A} (p : A -> bool) (l : list A) :
  Forall (fun x => p x = true) l -> List.filter p l = l.
Proof.
  induction 1 as [|x l Hx Hl IH]; simpl; [reflexivity|]. now rewrite Hx, IH.
Qed.

Lemma brace_line_not_blank (s : string) :
  negb (Js.isEmpty (Js.trim (String "{" s))) = true.
Proof.
  unfold Js.trim. cbn [Js.trimStart]. simpl Js.isSpace. cbv iota.
  cbn [Js.trimEnd]. simpl Js.isSpace. reflexivity.
Qed.

Lemma graphLines_clean (graph : KnowledgeGraph) :
  Forall (fun line => hasNewline line = false) (graphLines graph)
  /\ Forall (fun line => negb (Js.isEmpty (Js.trim line)) = true) (graphLines graph).
Proof.
  unfold graphLines. split; apply Forall_app; split; apply List.Forall_forall;
    intros line Hin; apply in_map_iff in Hin; destruct Hin as (x & <- & _).
  - apply hasNewline_entityLine.
  - apply hasNewline_relationLine.
  - destruct (entityLine_shape x) as [tl ->]. apply brace_line_not_blank.
  - destruct (relationLine_shape x) as [tl ->]. apply brace_line_not_blank.
Qed.

(** loading the text that [saveGraph] writes gives the graph back *)
Lemma parseGraph_serialize (graph : KnowledgeGraph) :
  parseGraph (serialize graph) = inr graph.
Proof.
  unfold parseGraph, serialize. fold (graphLines graph).
  destruct (graphLines_clean graph) as [Hnl Hnb].
  assert (Hred : reduceLines emptyGraph (graphLines graph) = inr graph).
  { unfold graphLines. rewrite reduceLines_app, reduceLines_entities.
    rewrite reduceLines_relations. simpl. now destruct graph. }
  destruct (graphLines graph) as [|x l] eqn:E.
  - simpl. exact Hred.
  - rewrite splitLines_join; trivial. rewrite filter_all; trivial.
Qed.

Lemma holds_serialize (graph : KnowledgeGraph) : holds (Some (serialize graph)) graph.
Proof. unfold holds, loadGraph. now rewrite parseGraph_serialize. Qed.

Lemma holds_missing : holds None emptyGraph.
Proof. reflexivity. Qed.

Lemma holds_inj (file : File) (g1 g2 : KnowledgeGraph) :
  holds file g1 -> holds file g2 -> g1 = g2.
Proof. unfold holds. intros H1 H2. rewrite H1 in H2. now injection H2. Qed.

(** C9: for every graph, writing it, loading the written text and writing
    the loaded graph gives the very same text; the loaded graph has the
    entities and the relations of the written one, in the same order. *)
Theorem save_load_save (graph : KnowledgeGraph) (file0 : File) :
  let file1 := snd (saveGraph graph file0) in
  exists loaded,
    loadGraph file1 = (inr loaded, file1)
    /\ snd (saveGraph loaded file1) = file1
    /\ entities loaded = entities graph
    /\ relations loaded = relations graph.
Proof.
  simpl. exists graph. repeat split. apply holds_serialize.
Qed.

(** ** CRUD operations on a file that holds a graph *)

Lemma run_createEntities (file : File) (graph : KnowledgeGraph) (input : list Entity) :
  holds file graph ->
  let newEntities := List.filter (fun e => negb (hasName (entities graph) (name e))) input in
  createEntities input file
  = (inr newEntities,
     Some (serialize {| entities := entities graph ++ newEntities;
                        relations := relations graph |})).
Proof. intros H. unfold createEntities, bind. rewrite H. reflexivity. Qed.

Lemma run_createRelations (file : File) (graph : KnowledgeGraph) (input : list Relation) :
  holds file graph ->
  let newRelations :=
    List.filter (fun r => negb (existsb (fun x => sameRelation x r) (relations graph))) input in
  createRelations input file
  = (inr newRelations,
     Some (serialize {| entities := entities graph;
                        relations := relations graph ++ newRelations |})).
Proof. intros H. unfold createRelations, bind. rewrite H. reflexivity. Qed.

Lemma run_addObservations (file : File) (graph : KnowledgeGraph)
    (reqs : list ObservationRequest) :
  holds file graph ->
  addObservations reqs file
  = match addAll (entities graph) reqs with
    | inl e => (inl e, file)
    | inr (results, ents) =>
        (inr results, Some (serialize {| entities := ents; relations := relations graph |}))
    end.
Proof.
  intros H. unfold addObservations, bind, lift. rewrite H.
  destruct (addAll (entities graph) reqs) as [e|[results ents]]; reflexivity.
Qed.

Lemma run_deleteEntities (file : File) (graph : KnowledgeGraph) (names : list string) :
  holds file graph ->
  deleteEntities names file
  = (inr tt,
     Some (serialize
             {| entities :=
                  List.filter (fun e => negb (includesStr names (name e))) (entities graph);
                relations :=
                  List.filter (fun r => negb (includesStr names (from r))
                                        && negb (includesStr names (to r)))
                    (relations graph) |})).
Proof. intros H. unfold deleteEntities, bind. rewrite H. reflexivity. Qed.

Lemma run_deleteObservations (file : File) (graph : KnowledgeGraph)
    (deletions : list ObservationDeletion) :
  holds file graph ->
  deleteObservations deletions file
  = (inr tt,
     Some (serialize {| entities := fold_left deleteOne deletions (entities graph);
                        relations := relations graph |})).
Proof. intros H. unfold deleteObservations, bind. rewrite H. reflexivity. Qed.

Lemma run_deleteRelations (file : File) (graph : KnowledgeGraph) (input : list Relation) :
  holds file graph ->
  deleteRelations input file
  = (inr tt,
     Some (serialize
             {| entities := entities graph;
                relations :=
                  List.filter (fun r => negb (existsb (fun d => sameRelation r d) input))
                    (relations graph) |})).
Proof. intros H. unfold deleteRelations, bind. rewrite H. reflexivity. Qed.


Lemma hasName_In (ents : list Entity) (n : string) :
  hasName ents n = true <-> In n (map name ents).
Proof.
  unfold hasName. rewrite existsb_exists, in_map_iff. split.
  - intros (e & Hin & He). apply String.eqb_eq in He. eauto.
  - intros (e & He & Hin). exists e. split; trivial. now apply String.eqb_eq.
Qed.

Lemma hasName_false (ents : list Entity) (n : string) :
  hasName ents n = false <-> ~ In n (map name ents).
Proof.
  rewrite <- hasName_In. destruct (hasName ents n); split; congruence.
Qed.

Lemma hasName_names (a b : list Entity) (n : string) :
  map name a = map name b -> hasName a n = hasName b n.
Proof.
  intros E. destruct (hasName b n) eqn:Hb.
  - apply hasName_In. rewrite E. now apply hasName_In.
  - apply hasName_false. rewrite E. now apply hasName_false.
Qed.

Lemma includesStr_In (l : list string) (x : string) : includesStr l x = true <-> In x l.
Proof.
  unfold includesStr. rewrite existsb_exists. split.
  - intros (y & Hin & Hy). apply String.eqb_eq in Hy. now subst.
  - intros Hin. exists x. split; trivial. apply String.eqb_refl.
Qed.

Lemma includesStr_false (l : list string) (x : string) : includesStr l x = false <-> ~ In x l.
Proof.
  rewrite <- includesStr_In. destruct (includesStr l x); split; congruence.
Qed.







Lemma entityMap_fold_None (l : list Entity) (m : gmap string Entity) (n : string) :
  fold_left (fun m e => <[name e := e]> m) l m !! n = None
  <-> m !! n = None /\ hasName l n = false.
Proof.
  revert m. induction l as [|e l IH]; intros m; simpl.
  - tauto.
  - rewrite IH, lookup_insert_None, orb_false_iff.
    rewrite <- (not_true_iff_false (String.eqb _ _)), String.eqb_eq. tauto.
Qed.

Lemma entityMap_None (graph : KnowledgeGraph) (n : string) :
  entityMap graph !! n = None <-> absent graph n.
Proof.
  unfold entityMap, absent. rewrite entityMap_fold_None, lookup_empty. tauto.
Qed.

Lemma entityMap_fold_Some (l : list Entity) (m : gmap string Entity) (n : string) (e : Entity) :
  (forall k x, m !! k = Some x -> name x = k) ->
  fold_left (fun m e => <[name e := e]> m) l m !! n = Some e -> name e = n.
Proof.
  revert m. induction l as [|x l IH]; intros m Hm; simpl.
  - apply Hm.
  - apply IH. intros k y. rewrite lookup_insert_Some.
    intros [[<- <-]|[_ Hy]]; [reflexivity|]. now apply Hm.
Qed.

Lemma entityMap_Some (graph : KnowledgeGraph) (n : string) (e : Entity) :
  entityMap graph !! n = Some e -> name e = n.
Proof. apply entityMap_fold_Some. intros k x. now rewrite lookup_empty. Qed.

Lemma filter_none {A} (p : A -> bool) (l : list A) :
  (forall x, In x l -> p x = false) -> List.filter p l = [].
Proof.
  induction l as [|x l IH]; intros H; simpl; [reflexivity|].
  rewrite (H x) by now left. apply IH. intros y Hy. apply H. now right.
Qed.






Lemma findPathWithin_absent (fuel : nat) (graph : KnowledgeGraph) (a b : string)
    (maxDepth : nat) :
  absent graph a \/ absent graph b -> findPathWithin fuel a b maxDepth graph = Some None.
Proof.
  unfold findPathWithin. intros [H|H]; apply entityMap_None in H; rewrite H.
  - reflexivity.
  - now destruct (entityMap graph !! a).
Qed.




Lemma graph_eta (graph : KnowledgeGraph) :
  {| entities := entities graph; relations := relations graph |} = graph.
Proof. now destruct graph. Qed.



(** *** Uniqueness of entity names *)

(** C2 on the code: on a missing file (the empty graph, whose names are
    trivially distinct) one [createEntities] call with the same new entity
    twice reports both as created and stores both, so the stored graph has
    the name twice. *)
Theorem createEntities_duplicate_in_batch :
  namesUnique emptyGraph
  /\ fst (createEntities [alice; alice] None) = inr [alice; alice]
  /\ exists stored,
       holds (snd (createEntities [alice; alice] None)) stored
       /\ map name (entities stored) = ["Alice"; "Alice"]
       /\ ~ namesUnique stored.
Proof.
  split; [constructor|]. split; [reflexivity|].
  rewrite (run_createEntities None emptyGraph [alice; alice] holds_missing).
  eexists. split; [apply holds_serialize|]. split; [reflexivity|].
  unfold namesUnique. simpl. intros Hnd.
  apply NoDup_cons in Hnd. destruct Hnd as [Hnotin _].
  apply Hnotin. constructor.
Qed.

Lemma NoDup_map_filter {A B} (f : A -> B) (p : A -> bool) (l : list A) :
  NoDup (map f l) -> NoDup (map f (List.filter p l)).
Proof.
  induction l as [|x l IH]; simpl; intros H; [constructor|].
  apply NoDup_cons in H. destruct H as [Hx Hl].
  destruct (p x); simpl; [|auto].
  apply NoDup_cons. split; [|auto].
  rewrite list_elem_of_In in *. rewrite in_map_iff in *.
  intros (y & Hy & Hin). apply Hx. exists y. split; trivial.
  apply filter_In in Hin. tauto.
Qed.

(** what the code does keep: a batch of distinct names leaves the names of
    the stored graph distinct *)
Lemma createEntities_distinct_batch (file : File) (graph : KnowledgeGraph)
    (input : list Entity) :
  holds file graph -> namesUnique graph -> NoDup (map name input) ->
  exists stored, holds (snd (createEntities input file)) stored /\ namesUnique stored.
Proof.
  intros H Hu Hin. rewrite (run_createEntities file graph input H). simpl.
  eexists. split; [apply holds_serialize|].
  unfold namesUnique in *. simpl. rewrite map_app. apply NoDup_app. repeat split.
  - exact Hu.
  - intros n Hn Hn'. rewrite list_elem_of_In in *. rewrite in_map_iff in Hn'.
    destruct Hn' as (e & <- & He). apply filter_In in He. destruct He as [_ He].
    apply negb_true_iff in He. apply hasName_false in He. contradiction.
  - now apply NoDup_map_filter.
Qed.

(** *** Observations without repetition *)

(** C5 on the code: a request whose contents list one new string twice
    appends it twice, and reports it twice, although the observations of the
    entity were distinct before. *)
Theorem addObservations_duplicate_in_request :
  let req := {| entityName := "Alice"; contents := ["likes tea"; "likes tea"] |} in
  NoDup (observations alice)
  /\ fst (addObservations [req] aliceFile)
     = inr [{| res_entityName := "Alice"; addedObservations := ["likes tea"; "likes tea"] |}]
  /\ holds (snd (addObservations [req] aliceFile))
       {| entities :=
            [{| name := "Alice"; entityType := "person";
                observations := ["works at Acme"; "likes tea"; "likes tea"] |}];
          relations := [] |}.
Proof.
  intros req. split.
  - apply NoDup_cons. split; [intros H; inversion H|constructor].
  - rewrite (run_addObservations aliceFile {| entities := [alice]; relations := [] |} [req]
               (holds_serialize _)).
    split; [reflexivity|]. apply holds_serialize.
Qed.

(** what the code does keep: a request whose contents are distinct leaves
    the observations of every entity distinct, and the strings reported are
    the strings appended, in the order of the request *)
Lemma addOne_distinct_contents (ents ents' : list Entity) (o : ObservationRequest)
    (r : ObservationResult) :
  addOne ents o = inr (r, ents') ->
  NoDup (contents o) ->
  Forall (fun e => NoDup (observations e)) ents ->
  Forall (fun e => NoDup (observations e)) ents'.
Proof.
  unfold addOne.
  destruct (list_find (fun x => name x = entityName o) ents) as [[i x]|] eqn:Hf;
    [|discriminate].
  intros H Hc Hall. injection H as _ <-.
  apply list_find_Some in Hf. destruct Hf as (Hi & _ & _).
  apply Forall_insert; trivial. simpl.
  assert (Hx : NoDup (observations x)).
  { rewrite List.Forall_forall in Hall. apply Hall, list_elem_of_In.
    now apply list_elem_of_lookup_2 in Hi. }
  apply NoDup_app. repeat split; trivial.
  - intros s Hs Hs'. rewrite list_elem_of_In in *. apply filter_In in Hs'.
    destruct Hs' as [_ Hs']. apply negb_true_iff, includesStr_false in Hs'. contradiction.
  - clear -Hc. induction (contents o) as [|c cs IH]; simpl; [constructor|].
    apply NoDup_cons in Hc. destruct Hc as [Hc Hcs].
    destruct (negb (includesStr (observations x) c)); [|auto].
    apply NoDup_cons. split; [|auto].
    rewrite list_elem_of_In in *. intros Hin. apply filter_In in Hin. tauto.
Qed.

Local Open Scope list_scope.

(** ** Subgraph extraction *)

Lemma hops_trans (rels : list Relation) (n m : nat) (a b c : string) :
  hops rels n a b -> hops rels m b c -> hops rels (n + m) a c.
Proof.
  intros Hab Hbc. induction Hbc as [|m b x c r Hbx IH Hr Hj].
  - now rewrite Nat.add_0_r.
  - rewrite Nat.add_succ_r. eapply hops_step; eauto.
Qed.

Lemma newNeighbors_elem (rels : list Relation) (entitySet acc : gset string) (x : string) :
  x ∈ fold_left
        (fun acc rel =>
           let acc1 :=
             if bool_decide (from rel ∈ entitySet) then acc ∪ {[to rel]} else acc in
           if bool_decide (to rel ∈ entitySet) then acc1 ∪ {[from rel]} else acc1)
        rels acc ->
  x ∈ acc \/ exists r y, In r rels /\ y ∈ entitySet /\ joins r y x.
Proof.
  revert acc. induction rels as [|r rels IH]; intros acc; simpl; [auto|].
  intros H. apply IH in H. destruct H as [H|(r' & y & Hin & Hy & Hj)].
  - destruct (bool_decide (from r ∈ entitySet)) eqn:Hf;
      destruct (bool_decide (to r ∈ entitySet)) eqn:Ht;
      try apply bool_decide_eq_true in Hf; try apply bool_decide_eq_true in Ht;
      rewrite ?elem_of_union, ?elem_of_singleton in H.
    + destruct H as [[H| ->]| ->]; [auto| |]; right.
      * exists r, (from r). unfold joins. auto.
      * exists r, (to r). unfold joins. auto.
    + destruct H as [H| ->]; [auto|]. right.
      exists r, (from r). unfold joins. auto.
    + destruct H as [H| ->]; [auto|]. right.
      exists r, (to r). unfold joins. auto.
    + auto.
  - right. exists r', y. auto.
Qed.

Lemma expandRound_elem (rels : list Relation) (entitySet : gset string) (x : string) :
  x ∈ expandRound rels entitySet ->
  exists y n, y ∈ entitySet /\ n <= 1 /\ hops rels n y x.
Proof.
  unfold expandRound. rewrite elem_of_union. intros [H|H].
  - exists x, 0. repeat split; [assumption|lia|constructor].
  - apply newNeighbors_elem in H. destruct H as [H|(r & y & Hin & Hy & Hj)]; [set_solver|].
    exists y, 1. repeat split; trivial.
    eapply hops_step; [constructor|eassumption|assumption].
Qed.

Lemma expandRounds_elem (rels : list Relation) (depth : nat) (entitySet : gset string)
    (x : string) :
  x ∈ expandRounds rels depth entitySet ->
  exists y n, y ∈ entitySet /\ n <= depth /\ hops rels n y x.
Proof.
  revert entitySet. induction depth as [|d IH]; intros entitySet; simpl.
  - intros H. exists x, 0. repeat split; [assumption|lia|constructor].
  - intros H. apply IH in H. destruct H as (y & n & Hy & Hn & Hyx).
    apply expandRound_elem in Hy. destruct Hy as (z & m & Hz & Hm & Hzy).
    exists z, (m + n). repeat split; [assumption|lia|].
    eapply hops_trans; eassumption.
Qed.

Lemma seed_member (seeds : list string) (x : string) :
  bool_decide (x ∈ (list_to_set seeds : gset string)) = includesStr seeds x.
Proof.
  destruct (includesStr seeds x) eqn:E.
  - apply bool_decide_eq_true. rewrite elem_of_list_to_set, list_elem_of_In.
    now apply includesStr_In.
  - apply bool_decide_eq_false. rewrite elem_of_list_to_set, list_elem_of_In.
    now apply includesStr_false.
Qed.

(** C3, as stated, fails: with both ends of a relation among the seeds,
    depth 0 returns that relation. *)
Lemma getSubgraph_depth0_keeps_relations :
  relations (getSubgraph ["Alice"; "Bob"] 0 twoEntities) <> [].
Proof. vm_compute. discriminate. Qed.

(** C3 (amended): at depth 0 [getSubgraph] returns exactly the entities
    named by a seed and exactly the relations both of whose ends are seeds
    (so a relation between two seeds is returned); at every depth [k] every
    entity returned is within [k] undirected hops of some seed. *)
Theorem getSubgraph_depth_bound (graph : KnowledgeGraph) (seeds : list string) :
  entities (getSubgraph seeds 0 graph)
  = List.filter (fun e => includesStr seeds (name e)) (entities graph)
  /\ relations (getSubgraph seeds 0 graph)
     = List.filter (fun r => includesStr seeds (from r) && includesStr seeds (to r))
         (relations graph)
  /\ forall k e, In e (entities (getSubgraph seeds k graph)) ->
                 withinHops (relations graph) seeds k (name e).
Proof.
  repeat split.
  - simpl. apply filter_ext. intros e. apply seed_member.
  - simpl. apply filter_ext. intros r. now rewrite !seed_member.
  - intros k e He. simpl in He. apply filter_In in He. destruct He as [_ He].
    apply bool_decide_eq_true in He. apply expandRounds_elem in He.
    destruct He as (y & n & Hy & Hn & Hh).
    exists y, n. repeat split; trivial.
    now rewrite elem_of_list_to_set, list_elem_of_In in Hy.
Qed.

Lemma getSubgraph_depth_bound_witness :
  withinHops (relations twoEntities) ["Alice"] 1 "Bob".
Proof.
  destruct (getSubgraph_depth_bound twoEntities ["Alice"]) as (_ & _ & H).
  apply (H 1 {| name := "Bob"; entityType := "person"; observations := [] |}).
  vm_compute. right. left. reflexivity.
Defined.

(** *** The adjacency list *)

Lemma fmap_app_nil {A} (o : option (list A)) : (fun l => l ++ [])%list <$> o = o.
Proof. destruct o as [l|]; simpl; [|reflexivity]. now rewrite app_nil_r. Qed.

Lemma pushTo_lookup (k : string) (x : string * Relation)
    (m : gmap string (list (string * Relation))) (u : string) :
  pushTo k x m !! u
  = (fun l => l ++ (if String.eqb k u then [x] else []))%list <$> (m !! u).
Proof.
  unfold pushTo. destruct (String.eqb_spec k u) as [->|Hne].
  - destruct (m !! u) as [l|] eqn:E; simpl.
    + now rewrite lookup_insert_eq.
    + now rewrite E.
  - rewrite fmap_app_nil. destruct (m !! k) as [l|] eqn:E; [|reflexivity].
    now rewrite lookup_insert_ne.
Qed.

Lemma adjacency_fold (rels : list Relation) (m : gmap string (list (string * Relation)))
    (u : string) :
  fold_left
    (fun adj rel => pushTo (to rel) (from rel, rel) (pushTo (from rel) (to rel, rel) adj))
    rels m !! u
  = (fun l => l ++ adjOf rels u)%list <$> (m !! u).
Proof.
  revert m. induction rels as [|r rels IH]; intros m; simpl.
  - now rewrite fmap_app_nil.
  - rewrite IH, !pushTo_lookup. destruct (m !! u) as [l|]; simpl; [|reflexivity].
    f_equal. now rewrite <- !app_assoc.
Qed.

Lemma adjacency_init (ents : list Entity) (m : gmap string (list (string * Relation)))
    (u : string) :
  fold_left (fun adj entity => <[name entity := []]> adj) ents m !! u
  = if hasName ents u then Some [] else m !! u.
Proof.
  revert m. induction ents as [|e ents IH]; intros m; simpl; [reflexivity|].
  rewrite IH. destruct (hasName ents u); [now rewrite orb_true_r|].
  rewrite orb_false_r. destruct (String.eqb_spec (name e) u) as [->|Hne].
  - now rewrite lookup_insert_eq.
  - now rewrite lookup_insert_ne.
Qed.

Lemma adjacent_adjacency (graph : KnowledgeGraph) (u : string) :
  adjacent (adjacency graph) u
  = if hasName (entities graph) u then adjOf (relations graph) u else [].
Proof.
  unfold adjacent, adjacency. rewrite adjacency_fold, adjacency_init, lookup_empty.
  now destruct (hasName (entities graph) u).
Qed.

Lemma In_adjOf (rels : list Relation) (u v : string) (r : Relation) :
  In (v, r) (adjOf rels u) <-> In r rels /\ joins r u v.
Proof.
  unfold adjOf, joins. rewrite in_flat_map. split.
  - intros (r' & Hin & H). apply in_app_iff in H.
    destruct H as [H|H];
      [destruct (String.eqb_spec (from r') u)|destruct (String.eqb_spec (to r') u)];
      try (now destruct H); destruct H as [H|[]]; injection H as <- <-; auto.
  - intros (Hin & [[Hf Ht]|[Ht Hf]]); exists r; split; trivial; apply in_app_iff.
    + left. subst. rewrite String.eqb_refl. now left.
    + right. subst. rewrite String.eqb_refl. now left.
Qed.

(** *** Undirected paths of the graph *)

Lemma In_adjacent (graph : KnowledgeGraph) (u v : string) (r : Relation) :
  In (v, r) (adjacent (adjacency graph) u) <-> adjstep graph u v r.
Proof.
  rewrite adjacent_adjacency. unfold adjstep, isEntity.
  destruct (hasName (entities graph) u).
  - rewrite In_adjOf. tauto.
  - simpl. split; [tauto|]. intros [H _]. discriminate.
Qed.

Lemma chain_length (graph : KnowledgeGraph) (p : list string) (rs : list Relation) :
  chain graph p rs -> length p = S (length rs).
Proof. induction 1; simpl in *; congruence. Qed.

Lemma chain_snoc (graph : KnowledgeGraph) (p : list string) (rs : list Relation)
    (u v : string) (r : Relation) :
  chain graph (p ++ [u]) rs -> adjstep graph u v r ->
  chain graph (p ++ [u; v]) (rs ++ [r]).
Proof.
  revert rs. induction p as [|x p IH]; intros rs Hc Hs; simpl in *.
  - inversion Hc; subst. constructor; [assumption|constructor].
  - destruct p as [|y p]; simpl in *.
    + inversion Hc as [|? ? ? ? ? Hxy Hrest]; subst. inversion Hrest; subst.
      simpl. constructor; trivial. constructor; [assumption|constructor].
    + inversion Hc as [|? ? ? ? ? Hxy Hrest]; subst.
      simpl. constructor; trivial. now apply IH.
Qed.

(** a step in the middle of a chain *)
Lemma chain_middle (graph : KnowledgeGraph) (l1 l2 : list string) (u v : string)
    (rs : list Relation) :
  chain graph (l1 ++ u :: v :: l2) rs -> exists r, adjstep graph u v r.
Proof.
  revert rs. induction l1 as [|x l1 IH]; intros rs Hc; simpl in *.
  - inversion Hc; subst. eauto.
  - destruct l1 as [|y l1]; simpl in *; inversion Hc; subst; eapply IH; eassumption.
Qed.

(** *** Termination of the loop *)

Lemma potential_le (rels : list Relation) (visited : gset string) :
  potential rels visited <= 2 * length rels.
Proof.
  induction rels as [|r rels IH]; simpl; [lia|].
  destruct (bool_decide (from r ∈ visited)), (bool_decide (to r ∈ visited)); lia.
Qed.

Lemma potential_visit (rels : list Relation) (visited : gset string) (u : string) :
  u ∉ visited ->
  length (adjOf rels u) + potential rels (visited ∪ {[u]}) <= potential rels visited.
Proof.
  intros Hu. induction rels as [|r rels IH]; simpl; [lia|].
  rewrite length_app.
  assert (F : forall x : string,
             (if String.eqb x u then 1 else 0)
             + (if bool_decide (x ∈ visited ∪ {[u]}) then 0 else 1)
             <= (if bool_decide (x ∈ visited) then 0 else 1)).
  { intros x. destruct (String.eqb_spec x u) as [->|Hne].
    - rewrite (bool_decide_eq_true_2 (u ∈ visited ∪ {[u]})) by set_solver.
      now rewrite (bool_decide_eq_false_2 (u ∈ visited)).
    - destruct (bool_decide (x ∈ visited)) eqn:E.
      + apply bool_decide_eq_true in E.
        rewrite bool_decide_eq_true_2 by set_solver. lia.
      + simpl. destruct (bool_decide (x ∈ visited ∪ {[u]})); lia. }
  pose proof (F (from r)) as F1. pose proof (F (to r)) as F2.
  destruct (String.eqb (from r) u), (String.eqb (to r) u); simpl; simpl in F1, F2; lia.
Qed.

(** *** The invariant of the loop *)

Lemma in_split_last (x : string) (l : list string) :
  In x l -> exists l1 l2, l = l1 ++ x :: l2 /\ ~ In x l2.
Proof.
  induction l as [|y l IH]; intros H; [destruct H|].
  destruct (in_dec string_dec x l) as [Hin|Hnin].
  - destruct (IH Hin) as (l1 & l2 & -> & Hn). exists (y :: l1), l2. auto.
  - destruct H as [->|H]; [|contradiction]. exists [], l. auto.
Qed.

Lemma last_snoc {A} (l : list A) (x d : A) : List.last (l ++ [x]) d = x.
Proof. apply last_last. Qed.

Lemma last_split {A} (l : list A) (d x : A) :
  l <> [] -> List.last l d = x -> exists l', l = l' ++ [x].
Proof.
  intros Hne Hl. destruct (exists_last Hne) as (l' & y & ->).
  rewrite last_last in Hl. subst. eauto.
Qed.

Lemma head_app_ne {A} (l k : list A) (x : A) : head l = Some x -> head (l ++ k) = Some x.
Proof. destruct l; simpl; [discriminate|auto]. Qed.

Lemma layered_pop (cur : QueueItem) (rest : list QueueItem) :
  layered (cur :: rest) ->
  exists front back,
    rest = front ++ back
    /\ Forall (fun it => level it = level cur) front
    /\ Forall (fun it => level it = S (level cur)) back.
Proof.
  intros (l & front & back & E & Hf & Hb).
  destruct front as [|f front]; simpl in E.
  - subst back. inversion Hb as [|? ? Hc Hr]; subst.
    exists rest, []. rewrite app_nil_r. repeat split; [|constructor].
    rewrite Hc. exact Hr.
  - injection E as <- ->. inversion Hf as [|? ? Hc Hr]; subst.
    exists front, back. auto.
Qed.

Lemma layered_head_min (cur : QueueItem) (rest : list QueueItem) (it : QueueItem) :
  layered (cur :: rest) -> In it (cur :: rest) -> level cur <= level it.
Proof.
  intros Hl [<-|Hin]; [lia|].
  destruct (layered_pop cur rest Hl) as (front & back & -> & Hf & Hb).
  rewrite List.Forall_forall in Hf, Hb. apply in_app_iff in Hin.
  destruct Hin as [Hin|Hin]; [apply Hf in Hin|apply Hb in Hin]; lia.
Qed.

Lemma layered_tail (cur : QueueItem) (rest : list QueueItem) :
  layered (cur :: rest) -> layered rest.
Proof.
  intros Hl. destruct (layered_pop cur rest Hl) as (front & back & -> & Hf & Hb).
  exists (level cur), front, back. auto.
Qed.

Lemma layered_push (cur : QueueItem) (rest children : list QueueItem) :
  layered (cur :: rest) ->
  Forall (fun it => level it = S (level cur)) children ->
  layered (rest ++ children).
Proof.
  intros Hl Hc. destruct (layered_pop cur rest Hl) as (front & back & -> & Hf & Hb).
  exists (level cur), front, (back ++ children). rewrite <- app_assoc.
  repeat split; trivial. apply Forall_app. auto.
Qed.

Lemma chain_entities (graph : KnowledgeGraph) (p : list string) (rs : list Relation)
    (d : string) :
  chain graph p rs -> isEntity graph (List.last p d) -> Forall (isEntity graph) p.
Proof.
  induction 1 as [x|x y l r rs Hs Hc IH]; intros Hl.
  - constructor; [exact Hl|constructor].
  - constructor; [apply Hs|]. apply IH. exact Hl.
Qed.

Lemma lookup_entities (graph : KnowledgeGraph) (p : list string) :
  Forall (isEntity graph) p ->
  exists es, map (fun n => entityMap graph !! n) p = map Some es /\ map name es = p.
Proof.
  induction 1 as [|n p Hn Hp (es & E1 & E2)].
  - exists []. auto.
  - destruct (entityMap graph !! n) as [e|] eqn:E.
    + exists (e :: es). simpl. rewrite E, E1, E2.
      now rewrite (entityMap_Some graph n e E).
    + apply entityMap_None in E. unfold absent, isEntity in *. congruence.
Qed.

Lemma expand_length (graph : KnowledgeGraph) (visited : gset string) (cur : QueueItem) :
  length (expand (adjacency graph) visited cur)
  <= length (adjOf (relations graph) (q_name cur)).
Proof.
  unfold expand. rewrite length_map, adjacent_adjacency.
  etransitivity; [apply filter_length_le|].
  destruct (hasName (entities graph) (q_name cur)); simpl; lia.
Qed.

Lemma In_expand (graph : KnowledgeGraph) (visited : gset string) (cur child : QueueItem) :
  In child (expand (adjacency graph) visited cur) <->
  exists v r,
    adjstep graph (q_name cur) v r /\ (v ∉ visited)
    /\ child = {| q_name := v;
                  q_path := q_path cur ++ [v];
                  q_relations := q_relations cur ++ [r] |}.
Proof.
  unfold expand. rewrite in_map_iff. split.
  - intros ([v r] & <- & Hin). apply filter_In in Hin. destruct Hin as [Hin Hv].
    apply In_adjacent in Hin. apply negb_true_iff, bool_decide_eq_false in Hv.
    exists v, r. auto.
  - intros (v & r & Hs & Hv & ->). exists (v, r). split; [reflexivity|].
    apply filter_In. split; [now apply In_adjacent|].
    now apply negb_true_iff, bool_decide_eq_false.
Qed.

Lemma inv_start (graph : KnowledgeGraph) (a b : string) (maxDepth : nat) :
  inv graph a b maxDepth ∅ [{| q_name := a; q_path := [a]; q_relations := [] |}].
Proof.
  repeat split.
  - constructor; [|constructor]. unfold itemOk, level. simpl.
    repeat split; [constructor|lia].
  - exists 0, [{| q_name := a; q_path := [a]; q_relations := [] |}], [].
    repeat split; repeat constructor.
  - intros p rs (Hc & Hh & _) _. destruct p as [|x suf]; [discriminate|].
    injection Hh as ->.
    exists [], a, suf, {| q_name := a; q_path := [a]; q_relations := [] |}.
    repeat split; simpl; auto.
    apply List.Forall_forall. intros n _. apply not_elem_of_empty.
Qed.

(** an item that is not the target and is not expanded can be dropped *)
Lemma inv_skip (graph : KnowledgeGraph) (a b : string) (maxDepth : nat)
    (visited : gset string) (cur : QueueItem) (rest : list QueueItem) :
  inv graph a b maxDepth visited (cur :: rest) ->
  q_name cur <> b ->
  maxDepth < length (q_path cur) \/ q_name cur ∈ visited ->
  inv graph a b maxDepth visited rest.
Proof.
  intros (Hitems & Hlay & Hfr) Hnb Hwhy. repeat split.
  - now inversion Hitems.
  - now apply layered_tail in Hlay.
  - intros p rs Hp Hlen.
    destruct (Hfr p rs Hp Hlen) as (pre & x & suf & it & -> & Hin & Hx & Hlev & Hun).
    exists pre, x, suf, it. repeat split; trivial.
    destruct Hin as [<-|Hin]; [exfalso|exact Hin].
    destruct Hwhy as [Hdeep|Hvis].
    + destruct Hp as (Hc & _ & Hlast & _).
      apply chain_length in Hc. rewrite length_app in Hc. simpl in Hc.
      unfold level in Hlev.
      assert (Hsuf : suf = []) by (destruct suf; [reflexivity|simpl in Hc; lia]).
      subst suf. rewrite last_last in Hlast. congruence.
    + inversion Hun; subst. contradiction.
Qed.

(** expanding the head keeps the invariant *)
Lemma inv_expand (graph : KnowledgeGraph) (a b : string) (maxDepth : nat)
    (visited : gset string) (cur : QueueItem) (rest : list QueueItem) :
  inv graph a b maxDepth visited (cur :: rest) ->
  q_name cur <> b ->
  length (q_path cur) <= maxDepth ->
  q_name cur ∉ visited ->
  inv graph a b maxDepth (visited ∪ {[q_name cur]})
    (rest ++ expand (adjacency graph) (visited ∪ {[q_name cur]}) cur).
Proof.
  intros (Hitems & Hlay & Hfr) Hnb Hdepth Hnew.
  inversion Hitems as [|? ? Hcur Hrest]; subst.
  destruct Hcur as (Hc & Hh & Hl & Hlev).
  assert (Hne : q_path cur <> []) by (destruct (q_path cur); [discriminate|congruence]).
  destruct (last_split _ _ _ Hne Hl) as [p0 Hp0].
  assert (Hchild : forall child,
             In child (expand (adjacency graph) (visited ∪ {[q_name cur]}) cur) ->
             itemOk graph a maxDepth child /\ level child = S (level cur)).
  { intros child Hin. apply In_expand in Hin. destruct Hin as (v & r & Hs & Hv & ->).
    unfold itemOk, level. simpl. rewrite length_app. simpl.
    repeat split.
    - rewrite Hp0, <- app_assoc. simpl. apply chain_snoc; [|exact Hs].
      now rewrite <- Hp0.
    - now apply head_app_ne.
    - apply last_last.
    - lia.
    - destruct (q_path cur); [contradiction|simpl; lia]. }
  assert (Hfresh : forall n, n ∉ visited -> n <> q_name cur ->
                             n ∉ visited ∪ {[q_name cur]}).
  { intros n Hn Hne' Hin. apply elem_of_union in Hin. destruct Hin as [Hin|Hin].
    - contradiction.
    - apply elem_of_singleton in Hin. contradiction. }
  repeat split.
  - apply Forall_app. split; [exact Hrest|].
    apply List.Forall_forall. intros child Hin. now apply Hchild.
  - apply (layered_push cur); [exact Hlay|].
    apply List.Forall_forall. intros child Hin. now apply Hchild.
  - intros p rs Hp Hlen.
    destruct (Hfr p rs Hp Hlen) as (pre & x & suf & it & -> & Hin & Hx & Hitlev & Hun).
    assert (Hmin : level cur <= length pre).
    { pose proof (layered_head_min cur rest it Hlay Hin). lia. }
    rewrite List.Forall_forall in Hun.
    destruct (in_dec string_dec (q_name cur) (x :: suf)) as [Hocc|Hnocc].
    + (* the expanded name lies on the path: continue behind its last occurrence *)
      destruct (in_split_last _ _ Hocc) as (s1 & s2 & Es & Hlastocc).
      destruct s2 as [|y s3].
      { exfalso. destruct Hp as (_ & _ & Hlast & _).
        rewrite Es, app_assoc, last_last in Hlast. congruence. }
      assert (Hy : y ∉ visited ∪ {[q_name cur]}).
      { apply Hfresh.
        - apply Hun. rewrite Es. apply in_app_iff. right. right. now left.
        - intros ->. apply Hlastocc. now left. }
      destruct Hp as (Hpc & _).
      rewrite Es in Hpc. rewrite app_assoc in Hpc.
      destruct (chain_middle _ _ _ _ _ _ Hpc) as [r Hstep].
      exists (pre ++ s1 ++ [q_name cur]), y, s3,
        {| q_name := y; q_path := q_path cur ++ [y];
           q_relations := q_relations cur ++ [r] |}.
      repeat split.
      * rewrite Es, <- !app_assoc. reflexivity.
      * apply in_app_iff. right. apply In_expand. eauto.
      * unfold level in *. simpl. rewrite !length_app. simpl.
        destruct (q_path cur); [contradiction|simpl in *; lia].
      * apply List.Forall_forall. intros n Hn. apply Hfresh.
        -- apply Hun. rewrite Es. apply in_app_iff. right. now right.
        -- intros ->. apply Hlastocc. exact Hn.
    + (* the path avoids the expanded name: the old witness remains *)
      exists pre, x, suf, it. repeat split; trivial.
      * apply in_app_iff. left. destruct Hin as [<-|Hin]; [|exact Hin].
        exfalso. apply Hnocc. left. now symmetry.
      * apply List.Forall_forall. intros n Hn. apply Hfresh.
        -- now apply Hun.
        -- intros ->. contradiction.
Qed.

(** the loop ends within its fuel, with a shortest path if [b] is taken
    from the queue and with [null] only if no path fits the depth *)
Lemma bfs_correct (graph : KnowledgeGraph) (a b : string) (maxDepth : nat) :
  isEntity graph b ->
  forall fuel visited queue,
    inv graph a b maxDepth visited queue ->
    potential (relations graph) visited + length queue < fuel ->
    match bfs (entityMap graph) (adjacency graph) b maxDepth fuel visited queue with
    | Some (Some r) => shortest graph a b r /\ pathLength r <= maxDepth
    | Some None => forall p rs, isPath graph a b p rs -> maxDepth < length rs
    | None => False
    end.
Proof.
  intros Hb fuel. induction fuel as [|fuel IH]; intros visited queue Hinv Hfuel; [lia|].
  destruct queue as [|cur rest]; simpl.
  - intros p rs Hp. destruct (le_lt_dec (length rs) maxDepth) as [Hle|Hlt]; [|exact Hlt].
    destruct Hinv as (_ & _ & Hfr).
    destruct (Hfr p rs Hp Hle) as (? & ? & ? & ? & _ & [] & _).
  - destruct (String.eqb_spec (q_name cur) b) as [Hcur|Hcur].
    + (* the target is taken from the queue *)
      destruct Hinv as (Hitems & Hlay & Hfr).
      inversion Hitems as [|? ? (Hc & Hh & Hl & Hlev) _]; subst.
      assert (Hents : Forall (isEntity graph) (q_path cur)).
      { apply (chain_entities graph _ _ a Hc). now rewrite Hl. }
      destruct (lookup_entities graph _ Hents) as (es & E1 & E2).
      split; [|exact Hlev].
      exists (q_path cur), (q_relations cur), es. simpl.
      pose proof (chain_length _ _ _ Hc) as Hlen.
      repeat split; trivial; [lia|].
      intros p' rs' Hp'.
      destruct (le_lt_dec (length rs') maxDepth) as [Hle|Hlt].
      * destruct (Hfr p' rs' Hp' Hle) as (pre & x & suf & it & -> & Hin & _ & Hitlev & _).
        pose proof (layered_head_min cur rest it Hlay Hin) as Hmin.
        destruct Hp' as (Hc' & _). apply chain_length in Hc'.
        rewrite length_app in Hc'. simpl in Hc'. unfold level in *. lia.
      * unfold level in Hlev. lia.
    + destruct (Nat.ltb_spec maxDepth (length (q_path cur))) as [Hdeep|Hdepth].
      * apply IH; [|simpl in Hfuel; lia].
        apply (inv_skip graph a b maxDepth visited cur); auto.
      * destruct (bool_decide (q_name cur ∈ visited)) eqn:Hvis.
        -- apply bool_decide_eq_true in Hvis.
           apply IH; [|simpl in Hfuel; lia].
           apply (inv_skip graph a b maxDepth visited cur); auto.
        -- apply bool_decide_eq_false in Hvis.
           apply IH; [now apply inv_expand|].
           rewrite length_app.
           pose proof (expand_length graph (visited ∪ {[q_name cur]}) cur).
           pose proof (potential_visit (relations graph) visited (q_name cur) Hvis).
           simpl in Hfuel. lia.
Qed.

Lemma isEntity_lookup (graph : KnowledgeGraph) (n : string) :
  isEntity graph n -> exists e, entityMap graph !! n = Some e /\ name e = n.
Proof.
  intros H. destruct (entityMap graph !! n) as [e|] eqn:E.
  - exists e. split; [reflexivity|]. now apply entityMap_Some in E.
  - apply entityMap_None in E. unfold absent, isEntity in *. congruence.
Qed.

(** C1: [findPath] returns [null] when an end is no entity; for an entity
    asked from itself it returns that single entity, no relation and length
    0; when the two entities are joined by an undirected path of at most
    [maxDepth] relations it returns a path between them whose length is the
    least number of relations of any such path; and when no path within
    [maxDepth] exists it returns [null]. The loop always ends within its
    bound. A path runs through entities: a relation with a missing end
    joins nothing. *)
Theorem findPath_shortest (graph : KnowledgeGraph) (a b : string) (maxDepth : nat) :
  (absent graph a \/ absent graph b -> findPath a b maxDepth graph = Some None)
  /\ (isEntity graph a ->
      exists e, name e = a
                /\ findPath a a maxDepth graph
                   = Some (Some {| path := [Some e]; pathRelations := []; pathLength := 0 |}))
  /\ (isEntity graph a -> isEntity graph b ->
      forall p rs, isPath graph a b p rs -> length rs <= maxDepth ->
        exists r, findPath a b maxDepth graph = Some (Some r)
                  /\ shortest graph a b r /\ pathLength r <= maxDepth)
  /\ (isEntity graph a -> isEntity graph b ->
      (forall p rs, isPath graph a b p rs -> maxDepth < length rs) ->
      findPath a b maxDepth graph = Some None).
Proof.
  assert (Hsame : forall x, isEntity graph x ->
            exists e, name e = x
                      /\ findPath x x maxDepth graph
                         = Some (Some {| path := [Some e]; pathRelations := [];
                                         pathLength := 0 |})).
  { intros x Hx. destruct (isEntity_lookup graph x Hx) as (e & He & Hn).
    exists e. split; [exact Hn|].
    unfold findPath, findPathWithin. now rewrite He, String.eqb_refl. }
  assert (Hrun : isEntity graph a -> isEntity graph b -> a <> b ->
            findPath a b maxDepth graph
            = bfs (entityMap graph) (adjacency graph) b maxDepth (loopBound graph) ∅
                [{| q_name := a; q_path := [a]; q_relations := [] |}]
            /\ match findPath a b maxDepth graph with
               | Some (Some r) => shortest graph a b r /\ pathLength r <= maxDepth
               | Some None => forall p rs, isPath graph a b p rs -> maxDepth < length rs
               | None => False
               end).
  { intros Ha Hb Hne.
    destruct (isEntity_lookup graph a Ha) as (ea & Hea & _).
    destruct (isEntity_lookup graph b Hb) as (eb & Heb & _).
    assert (E : findPath a b maxDepth graph
                = bfs (entityMap graph) (adjacency graph) b maxDepth (loopBound graph) ∅
                    [{| q_name := a; q_path := [a]; q_relations := [] |}]).
    { unfold findPath, findPathWithin. rewrite Hea, Heb.
      destruct (String.eqb_spec a b); [contradiction|reflexivity]. }
    split; [exact E|]. rewrite E.
    apply (bfs_correct graph a b maxDepth Hb); [apply inv_start|].
    pose proof (potential_le (relations graph) ∅). unfold loopBound. simpl. lia. }
  repeat split.
  - apply findPathWithin_absent.
  - apply Hsame.
  - intros Ha Hb p rs Hp Hlen.
    destruct (string_dec a b) as [<-|Hne].
    + destruct (Hsame a Ha) as (e & Hn & Hf). eexists. split; [exact Hf|].
      split; [|simpl; lia].
      exists [a], [], [e]. simpl. rewrite Hn.
      repeat split; trivial; [constructor|lia].
    + destruct (Hrun Ha Hb Hne) as [_ Hres].
      destruct (findPath a b maxDepth graph) as [[r|]|]; [eauto| |contradiction].
      specialize (Hres p rs Hp). lia.
  - intros Ha Hb Hno.
    destruct (string_dec a b) as [<-|Hne].
    + exfalso. specialize (Hno [a] []). simpl in Hno.
      assert (isPath graph a a [a] []) by (repeat split; trivial; constructor).
      specialize (Hno H). lia.
    + destruct (Hrun Ha Hb Hne) as [_ Hres].
      destruct (findPath a b maxDepth graph) as [[r|]|]; [|reflexivity|contradiction].
      destruct Hres as [(p & rs & es & Hp & _ & _ & _ & Hlen & _) Hdepth].
      exfalso. pose proof (Hno p rs Hp) as Hgt. lia.
Qed.

Lemma findPath_shortest_witness :
  (exists r, findPath "D" "A" 3 modules = Some (Some r)
             /\ shortest modules "D" "A" r /\ pathLength r <= 3)
  /\ findPath "A" "Ghost" 3 modules = Some None.
Proof.
  destruct (findPath_shortest modules "D" "A" 3) as (_ & _ & Hfound & _).
  destruct (findPath_shortest modules "A" "Ghost" 3) as (Habsent & _).
  split.
  - apply (Hfound eq_refl eq_refl ["D"; "C"; "B"; "A"]
             [{| from := "C"; to := "D"; relationType := "imports" |};
              {| from := "B"; to := "C"; relationType := "imports" |};
              {| from := "A"; to := "B"; relationType := "imports" |}]).
    + repeat split; try reflexivity.
      repeat (constructor;
              [split; [reflexivity|split; [simpl; auto 10|right; split; reflexivity]]|]).
      constructor.
    + simpl. lia.
  - apply Habsent. right. reflexivity.
Defined.

Example findPath_modules :
  option_map (option_map pathLength) (findPath "D" "A" 3 modules) = Some (Some 2)
  /\ findPath "D" "A" 1 modules = Some None
  /\ findPath "A" "Z" 10 modules = Some None.
Proof. repeat split; vm_compute; reflexivity. Qed.

(** * Further properties of the operations *)

(** ** Creating twice *)

Lemma hasName_app (a b : list Entity) (n : string) :
  hasName (a ++ b) n = hasName a n || hasName b n.
Proof. unfold hasName. apply existsb_app. Qed.

Lemma sameRelation_eq (x y : Relation) : sameRelation x y = true <-> x = y.
Proof.
  unfold sameRelation. rewrite !andb_true_iff, !String.eqb_eq. split.
  - intros [[Hf Ht] Hr]. destruct x, y. simpl in *. congruence.
  - intros ->. auto.
Qed.

Lemma stored_relation (rels : list Relation) (r : Relation) :
  existsb (fun x => sameRelation x r) rels = true <-> In r rels.
Proof.
  rewrite existsb_exists. split.
  - intros (x & Hin & Hx). apply sameRelation_eq in Hx. now subst.
  - intros Hin. exists r. split; trivial. now apply sameRelation_eq.
Qed.

(** X1: a second [createEntities] call with the same batch creates nothing
    and writes the file back unchanged. *)
Theorem createEntities_twice (file : File) (graph : KnowledgeGraph) (input : list Entity) :
  holds file graph ->
  createEntities input (snd (createEntities input file))
  = (inr [], snd (createEntities input file)).
Proof.
  intros H. rewrite (run_createEntities file graph input H). cbn [snd].
  set (new := List.filter (fun e => negb (hasName (entities graph) (name e))) input).
  rewrite (run_createEntities _ _ input (holds_serialize _)). cbn [entities relations].
  assert (E : List.filter (fun e => negb (hasName (entities graph ++ new) (name e))) input
              = []).
  { apply filter_none. intros e He. apply negb_false_iff.
    rewrite hasName_app. destruct (hasName (entities graph) (name e)) eqn:Hold;
      [reflexivity|].
    simpl. apply hasName_In, in_map. apply filter_In. split; trivial.
    now rewrite Hold. }
  rewrite E, app_nil_r. reflexivity.
Qed.

Lemma createEntities_twice_witness :
  createEntities [alice] (snd (createEntities [alice] None))
  = (inr [], snd (createEntities [alice] None)).
Proof. apply (createEntities_twice None emptyGraph [alice]). reflexivity. Defined.

(** X2: when the stored names are distinct and the names of the batch are
    distinct, [createEntities] returns the entities of the batch whose name
    was not stored, in the order of the batch, appends exactly those behind
    the stored entities, and the stored names stay distinct. *)
Theorem createEntities_fresh (file : File) (graph : KnowledgeGraph) (input : list Entity) :
  holds file graph -> namesUnique graph -> NoDup (map name input) ->
  let created := List.filter (fun e => negb (hasName (entities graph) (name e))) input in
  fst (createEntities input file) = inr created
  /\ (forall e, In e created <-> In e input /\ absent graph (name e))
  /\ holds (snd (createEntities input file))
       {| entities := entities graph ++ created; relations := relations graph |}
  /\ NoDup (map name (entities graph ++ created)).
Proof.
  intros H Hu Hin created.
  destruct (createEntities_distinct_batch file graph input H Hu Hin) as (stored & Hs & Hn).
  rewrite (run_createEntities file graph input H) in *. cbn [fst snd] in *.
  split; [reflexivity|]. split; [|split].
  - intros e. unfold created. rewrite filter_In, negb_true_iff. reflexivity.
  - apply holds_serialize.
  - rewrite (holds_inj _ _ _ Hs (holds_serialize _)) in Hn. exact Hn.
Qed.

Lemma createEntities_fresh_witness :
  fst (createEntities [alice; exactButBare] twoEntitiesFile) = inr [exactButBare].
Proof.
  apply (createEntities_fresh twoEntitiesFile twoEntities [alice; exactButBare]).
  - apply holds_serialize.
  - unfold namesUnique. simpl.
    apply NoDup_cons. split; [|apply NoDup_cons; split; [|constructor]].
    + intros H. apply list_elem_of_In in H. simpl in H.
      destruct H as [H|[]]. discriminate H.
    + intros H. apply list_elem_of_In in H. destruct H.
  - simpl. apply NoDup_cons. split; [|apply NoDup_cons; split; [|constructor]].
    + intros H. apply list_elem_of_In in H. simpl in H.
      destruct H as [H|[]]. discriminate H.
    + intros H. apply list_elem_of_In in H. destruct H.
Defined.

(** X3: a second [createRelations] call with the same batch creates nothing
    and writes the file back unchanged; and when the stored relations are
    pairwise different and so are those of the batch, the stored relations
    stay pairwise different. *)
Theorem createRelations_twice (file : File) (graph : KnowledgeGraph)
    (input : list Relation) :
  holds file graph ->
  createRelations input (snd (createRelations input file))
  = (inr [], snd (createRelations input file))
  /\ (NoDup (relations graph) -> NoDup input ->
      exists stored,
        holds (snd (createRelations input file)) stored /\ NoDup (relations stored)).
Proof.
  intros H. rewrite (run_createRelations file graph input H). cbn [snd].
  set (new := List.filter
                (fun r => negb (existsb (fun x => sameRelation x r) (relations graph)))
                input).
  split.
  - rewrite (run_createRelations _ _ input (holds_serialize _)). cbn [entities relations].
    assert (E : List.filter
                  (fun r => negb (existsb (fun x => sameRelation x r)
                                    (relations graph ++ new))) input = []).
    { apply filter_none. intros r Hr. apply negb_false_iff, stored_relation.
      apply in_app_iff.
      destruct (existsb (fun x => sameRelation x r) (relations graph)) eqn:Hold.
      - left. now apply stored_relation.
      - right. apply filter_In. split; trivial. now rewrite Hold. }
    rewrite E, app_nil_r. reflexivity.
  - intros Hold Hin. eexists. split; [apply holds_serialize|]. cbn [relations].
    apply NoDup_app. repeat split; trivial.
    + intros r Hr Hr'. apply list_elem_of_In in Hr, Hr'.
      apply filter_In in Hr'. destruct Hr' as [_ Hr'].
      apply negb_true_iff in Hr'. apply stored_relation in Hr. congruence.
    + pose proof (NoDup_map_filter (fun r : Relation => r)
                    (fun r => negb (existsb (fun x => sameRelation x r) (relations graph)))
                    input) as Hf.
      rewrite !map_id in Hf. now apply Hf.
Qed.

Lemma createRelations_twice_witness :
  let knows := {| from := "Bob"; to := "Alice"; relationType := "knows" |} in
  createRelations [knows] (snd (createRelations [knows] twoEntitiesFile))
  = (inr [], snd (createRelations [knows] twoEntitiesFile)).
Proof.
  intros knows.
  apply (createRelations_twice twoEntitiesFile twoEntities [knows]).
  apply holds_serialize.
Defined.

(** ** Deleting *)

Lemma filter_filter_same {A} (p : A -> bool) (l : list A) :
  List.filter p (List.filter p l) = List.filter p l.
Proof.
  apply filter_all, List.Forall_forall. intros x Hx. now apply filter_In in Hx.
Qed.

(** X4: [deleteEntities] never fails on a file that loads; it keeps exactly
    the entities whose name is not listed and exactly the relations neither
    end of which is listed, so afterwards no entity has a listed name and no
    relation mentions one; distinct names stay distinct; and deleting the
    same names again changes nothing. *)
Theorem deleteEntities_cascade (file : File) (graph : KnowledgeGraph) (names : list string) :
  holds file graph ->
  exists stored,
    deleteEntities names file = (inr tt, Some (serialize stored))
    /\ holds (Some (serialize stored)) stored
    /\ (forall e, In e (entities stored) <-> In e (entities graph) /\ ~ In (name e) names)
    /\ (forall r, In r (relations stored) <->
                  In r (relations graph) /\ ~ In (from r) names /\ ~ In (to r) names)
    /\ Forall (unmentioned stored) names
    /\ (namesUnique graph -> namesUnique stored)
    /\ deleteEntities names (Some (serialize stored)) = (inr tt, Some (serialize stored)).
Proof.
  intros H. rewrite (run_deleteEntities file graph names H).
  eexists. split; [reflexivity|]. split; [apply holds_serialize|].
  cbn [entities relations].
  assert (He : forall e,
             In e (List.filter (fun e => negb (includesStr names (name e))) (entities graph))
             <-> In e (entities graph) /\ ~ In (name e) names).
  { intros e. now rewrite filter_In, negb_true_iff, includesStr_false. }
  assert (Hr : forall r,
             In r (List.filter (fun r => negb (includesStr names (from r))
                                         && negb (includesStr names (to r)))
                     (relations graph))
             <-> In r (relations graph) /\ ~ In (from r) names /\ ~ In (to r) names).
  { intros r. now rewrite filter_In, andb_true_iff, !negb_true_iff, !includesStr_false. }
  split; [exact He|]. split; [exact Hr|]. split; [|split].
  - apply List.Forall_forall. intros n Hn. split.
    + unfold absent. cbn [entities]. apply hasName_false. intros Hin.
      apply in_map_iff in Hin. destruct Hin as (e & <- & Hin).
      apply He in Hin. tauto.
    + cbn [relations]. intros r Hin. apply Hr in Hin. destruct Hin as (_ & H1 & H2).
      split; intros E; [apply H1|apply H2]; rewrite E; exact Hn.
  - unfold namesUnique. cbn [entities]. apply NoDup_map_filter.
  - rewrite (run_deleteEntities _ _ names (holds_serialize _)). cbn [entities relations].
    now rewrite !filter_filter_same.
Qed.

Lemma deleteEntities_cascade_witness :
  exists stored,
    deleteEntities ["Bob"] twoEntitiesFile = (inr tt, Some (serialize stored))
    /\ Forall (unmentioned stored) ["Bob"].
Proof.
  destruct (deleteEntities_cascade twoEntitiesFile twoEntities ["Bob"]
              (holds_serialize twoEntities)) as (stored & Hrun & _ & _ & _ & Hun & _).
  exists stored. split; [exact Hrun|exact Hun].
Defined.

(** [deleteOne] on a list, entity by entity: the first entity of the name
    loses the listed observations, the others stay *)
Lemma deleteOne_cons (x : Entity) (l : list Entity) (d : ObservationDeletion) :
  deleteOne (x :: l) d
  = if decide (name x = del_entityName d)
    then {| name := name x; entityType := entityType x;
            observations :=
              List.filter (fun o => negb (includesStr (del_observations d) o))
                (observations x) |} :: l
    else x :: deleteOne l d.
Proof.
  unfold deleteOne. cbn [list_find]. destruct (decide (name x = del_entityName d)) as [E|E].
  - reflexivity.
  - destruct (list_find (fun e => name e = del_entityName d) l) as [[i y]|]; reflexivity.
Qed.

Lemma shrunk_refl (e : Entity) : shrunk e e.
Proof.
  repeat split. exists (fun _ => true). symmetry. apply filter_all.
  apply List.Forall_forall. reflexivity.
Qed.

Lemma filter_filter_and {A} (p q : A -> bool) (l : list A) :
  List.filter q (List.filter p l) = List.filter (fun x => p x && q x) l.
Proof.
  induction l as [|x l IH]; simpl; [reflexivity|].
  destruct (p x); simpl; [destruct (q x)|]; now rewrite IH.
Qed.

Lemma shrunk_trans (a b c : Entity) : shrunk a b -> shrunk b c -> shrunk a c.
Proof.
  intros (Hn & Ht & k & Hk) (Hn' & Ht' & k' & Hk').
  split; [congruence|]. split; [congruence|].
  exists (fun x => k x && k' x). rewrite Hk', Hk. apply filter_filter_and.
Qed.

Lemma Forall2_refl_on {A} (R : A -> A -> Prop) (l : list A) :
  (forall x, R x x) -> Forall2 R l l.
Proof. intros H. induction l; constructor; auto. Qed.

Lemma Forall2_trans_on {A} (R : A -> A -> Prop) (a b c : list A) :
  (forall x y z, R x y -> R y z -> R x z) ->
  Forall2 R a b -> Forall2 R b c -> Forall2 R a c.
Proof.
  intros HR Hab. revert c. induction Hab; intros c Hbc; inversion Hbc; subst; constructor; eauto.
Qed.

Lemma deleteOne_shrunk (ents : list Entity) (d : ObservationDeletion) :
  Forall2 shrunk ents (deleteOne ents d).
Proof.
  induction ents as [|x l IH]; [constructor|].
  rewrite deleteOne_cons. destruct (decide (name x = del_entityName d)).
  - constructor; [|apply Forall2_refl_on, shrunk_refl].
    repeat split. eexists. reflexivity.
  - constructor; [apply shrunk_refl|exact IH].
Qed.

Lemma deleteAll_shrunk (dels : list ObservationDeletion) (ents : list Entity) :
  Forall2 shrunk ents (fold_left deleteOne dels ents).
Proof.
  revert ents. induction dels as [|d dels IH]; intros ents; simpl.
  - apply Forall2_refl_on, shrunk_refl.
  - eapply Forall2_trans_on; [exact shrunk_trans|apply deleteOne_shrunk|apply IH].
Qed.

Lemma shrunk_names (a b : list Entity) : Forall2 shrunk a b -> map name b = map name a.
Proof. induction 1 as [|x y a b (Hn & _) _ IH]; simpl; [reflexivity|]. now rewrite Hn, IH. Qed.

Lemma shrunk_types (a b : list Entity) :
  Forall2 shrunk a b -> map entityType b = map entityType a.
Proof.
  induction 1 as [|x y a b (_ & Ht & _) _ IH]; simpl; [reflexivity|]. now rewrite Ht, IH.
Qed.

Lemma shrunk_In (a b : list Entity) (e' : Entity) :
  Forall2 shrunk a b -> In e' b -> exists e, In e a /\ shrunk e e'.
Proof.
  induction 1 as [|x y a b Hxy _ IH]; simpl; [tauto|].
  intros [<-|Hin]; [eauto|]. destruct (IH Hin) as (e & He & Hs). eauto.
Qed.

Lemma removed_shrunk (d : ObservationDeletion) (a b : list Entity) :
  Forall2 shrunk a b -> removed d a -> removed d b.
Proof.
  intros Hab Hrem e' o Hin Hname Ho Hobs.
  destruct (shrunk_In a b e' Hab Hin) as (e & He & Hn & _ & keep & Hk).
  apply (Hrem e o He); [congruence|exact Ho|].
  rewrite Hk in Hobs. now apply filter_In in Hobs.
Qed.

Lemma deleteOne_removed (ents : list Entity) (d : ObservationDeletion) :
  NoDup (map name ents) -> removed d (deleteOne ents d).
Proof.
  induction ents as [|x l IH]; intros Hnd; [intros e o []|].
  simpl in Hnd. apply NoDup_cons in Hnd. destruct Hnd as [Hx Hl].
  rewrite list_elem_of_In in Hx.
  rewrite deleteOne_cons. destruct (decide (name x = del_entityName d)) as [E|E].
  - intros e o [<-|Hin] Hname Ho Hobs.
    + cbn [observations] in Hobs. apply filter_In in Hobs. destruct Hobs as [_ Hobs].
      apply negb_true_iff, includesStr_false in Hobs. tauto.
    + apply Hx. rewrite E, <- Hname. now apply in_map.
  - intros e o [<-|Hin] Hname Ho; [contradiction|]. now apply (IH Hl e o).
Qed.

(** X5: [deleteObservations] never fails on a file that loads, and never
    reports an entity it does not find; it keeps the entities, their order,
    names and types and the relations, and only removes observations; when
    the stored names are distinct, no entity named by a deletion keeps any of
    the observations listed with it. *)
Theorem deleteObservations_removes (file : File) (graph : KnowledgeGraph)
    (deletions : list ObservationDeletion) :
  holds file graph ->
  exists stored,
    deleteObservations deletions file = (inr tt, Some (serialize stored))
    /\ holds (Some (serialize stored)) stored
    /\ relations stored = relations graph
    /\ Forall2 shrunk (entities graph) (entities stored)
    /\ map name (entities stored) = map name (entities graph)
    /\ map entityType (entities stored) = map entityType (entities graph)
    /\ (namesUnique graph -> forall d, In d deletions -> removed d (entities stored)).
Proof.
  intros H. rewrite (run_deleteObservations file graph deletions H).
  eexists. split; [reflexivity|]. split; [apply holds_serialize|].
  cbn [entities relations]. split; [reflexivity|].
  pose proof (deleteAll_shrunk deletions (entities graph)) as Hs.
  split; [exact Hs|]. split; [now apply shrunk_names|]. split; [now apply shrunk_types|].
  unfold namesUnique. clear H Hs. generalize (entities graph) as ents.
  induction deletions as [|d0 dels IH]; intros ents Hnd d [].
  - subst d0. simpl. eapply removed_shrunk; [apply deleteAll_shrunk|].
    now apply deleteOne_removed.
  - simpl. apply IH; [|assumption].
    now rewrite (shrunk_names _ _ (deleteOne_shrunk ents d0)).
Qed.

Lemma deleteObservations_removes_witness :
  exists stored,
    deleteObservations [{| del_entityName := "Alice"; del_observations := ["works at Acme"] |};
                        {| del_entityName := "Carol"; del_observations := ["x"] |}]
      twoEntitiesFile
    = (inr tt, Some (serialize stored))
    /\ map name (entities stored) = ["Alice"; "Bob"]
    /\ removed {| del_entityName := "Alice"; del_observations := ["works at Acme"] |}
         (entities stored).
Proof.
  destruct (deleteObservations_removes twoEntitiesFile twoEntities
              [{| del_entityName := "Alice"; del_observations := ["works at Acme"] |};
               {| del_entityName := "Carol"; del_observations := ["x"] |}]
              (holds_serialize twoEntities))
    as (stored & Hrun & _ & _ & _ & Hn & _ & Hrem).
  exists stored. split; [exact Hrun|]. split; [exact Hn|].
  apply Hrem.
  - unfold namesUnique. simpl. distinct.
  - left. reflexivity.
Defined.

(** ** Creating, then deleting *)

Lemma filter_app_list {A} (p : A -> bool) (a b : list A) :
  List.filter p (a ++ b)%list = (List.filter p a ++ List.filter p b)%list.
Proof. induction a as [|x a IH]; simpl; [reflexivity|]. destruct (p x); simpl; now rewrite IH. Qed.

Lemma listed_relation (input : list Relation) (r : Relation) :
  existsb (fun d => sameRelation r d) input = true <-> In r input.
Proof.
  rewrite existsb_exists. split.
  - intros (d & Hd & Hs). apply sameRelation_eq in Hs. now subst.
  - intros H. exists r. split; [exact H|]. now apply sameRelation_eq.
Qed.

(** X6: [deleteRelations] keeps exactly the relations that are not listed,
    in their order, and leaves the entities alone; and when none of the
    listed relations was stored, creating them and then deleting them gives
    back the file of the graph one started with. *)
Theorem createRelations_then_delete (file : File) (graph : KnowledgeGraph)
    (input : list Relation) :
  holds file graph ->
  (exists stored,
      deleteRelations input file = (inr tt, Some (serialize stored))
      /\ entities stored = entities graph
      /\ (forall r, In r (relations stored) <-> In r (relations graph) /\ ~ In r input))
  /\ ((forall r, In r input -> ~ In r (relations graph)) ->
      deleteRelations input (snd (createRelations input file))
      = (inr tt, Some (serialize graph))).
Proof.
  intros H. split.
  - rewrite (run_deleteRelations file graph input H). eexists. split; [reflexivity|].
    split; [reflexivity|]. cbn [relations]. intros r.
    rewrite filter_In, negb_true_iff, <- not_true_iff_false, listed_relation. reflexivity.
  - intros Hnew. rewrite (run_createRelations file graph input H). cbn [snd].
    rewrite (run_deleteRelations _ _ input (holds_serialize _)). cbn [entities relations].
    rewrite filter_app_list.
    rewrite (filter_all _ (relations graph)).
    + rewrite filter_none; [now rewrite app_nil_r, graph_eta|].
      intros r Hr. apply filter_In in Hr. destruct Hr as [Hr _].
      apply negb_false_iff, listed_relation, Hr.
    + apply List.Forall_forall. intros r Hr.
      apply negb_true_iff, not_true_iff_false. rewrite listed_relation.
      intros Hin. exact (Hnew r Hin Hr).
Qed.

Lemma createRelations_then_delete_witness :
  deleteRelations [{| from := "Bob"; to := "Alice"; relationType := "knows" |}]
    (snd (createRelations [{| from := "Bob"; to := "Alice"; relationType := "knows" |}]
            twoEntitiesFile))
  = (inr tt, twoEntitiesFile).
Proof.
  apply (createRelations_then_delete twoEntitiesFile twoEntities
           [{| from := "Bob"; to := "Alice"; relationType := "knows" |}]
           (holds_serialize twoEntities)).
  intros r [<-|[]] [H|[]]. discriminate H.
Defined.

(** X7: when the graph mentions none of the names of the new entities,
    neither as an entity nor at an end of a relation, creating the entities
    and then deleting their names gives back the file of the graph one
    started with. *)
Theorem createEntities_then_delete (file : File) (graph : KnowledgeGraph)
    (input : list Entity) :
  holds file graph ->
  Forall (fun e => unmentioned graph (name e)) input ->
  deleteEntities (map name input) (snd (createEntities input file))
  = (inr tt, Some (serialize graph)).
Proof.
  intros H Hun. rewrite (run_createEntities file graph input H). cbn [snd].
  rewrite (run_deleteEntities _ _ (map name input) (holds_serialize _)).
  cbn [entities relations].
  rewrite List.Forall_forall in Hun.
  assert (Hnew : List.filter (fun e => negb (hasName (entities graph) (name e))) input = input).
  { apply filter_all, List.Forall_forall. intros e He.
    apply negb_true_iff. exact (proj1 (Hun e He)). }
  rewrite Hnew, filter_app_list.
  rewrite (filter_all _ (entities graph)), (filter_none _ input), (filter_all _ (relations graph)).
  - now rewrite app_nil_r, graph_eta.
  - apply List.Forall_forall. intros r Hr.
    apply andb_true_iff. split; apply negb_true_iff, includesStr_false;
      intros Hin; apply in_map_iff in Hin; destruct Hin as (e & He & Hin);
      destruct (proj2 (Hun e Hin) r Hr) as [H1 H2]; congruence.
  - intros e He. apply negb_false_iff, includesStr_In. now apply in_map.
  - apply List.Forall_forall. intros x Hx.
    apply negb_true_iff, includesStr_false. intros Hin.
    apply in_map_iff in Hin. destruct Hin as (e & He & Hin).
    pose proof (proj1 (Hun e Hin)) as Habs. unfold absent in Habs.
    apply hasName_false in Habs. apply Habs. rewrite He. now apply in_map.
Qed.

Lemma createEntities_then_delete_witness :
  deleteEntities ["auth"] (snd (createEntities [exactButBare] twoEntitiesFile))
  = (inr tt, twoEntitiesFile).
Proof.
  apply (createEntities_then_delete twoEntitiesFile twoEntities [exactButBare]
           (holds_serialize twoEntities)).
  constructor; [|constructor]. split; [reflexivity|].
  intros r [<-|[]]. split; discriminate.
Defined.

(** ** Adding observations twice *)

Lemma addOne_cons (x : Entity) (l : list Entity) (o : ObservationRequest) :
  addOne (x :: l) o
  = if decide (name x = entityName o)
    then
      let newObservations :=
        List.filter (fun content => negb (includesStr (observations x) content)) (contents o) in
      inr ({| res_entityName := entityName o; addedObservations := newObservations |},
           {| name := name x; entityType := entityType x;
              observations := observations x ++ newObservations |} :: l)
    else match addOne l o with
         | inl e => inl e
         | inr (r, l') => inr (r, x :: l')
         end.
Proof.
  unfold addOne. cbn [list_find]. destruct (decide (name x = entityName o)) as [E|E].
  - reflexivity.
  - destruct (list_find (fun e => name e = entityName o) l) as [[i y]|]; reflexivity.
Qed.

Lemma grew_refl (e : Entity) : grew e e.
Proof. repeat split. exists []. now rewrite app_nil_r. Qed.

Lemma grew_trans (a b c : Entity) : grew a b -> grew b c -> grew a c.
Proof.
  intros (Hn & Ht & k & Hk) (Hn' & Ht' & k' & Hk').
  split; [congruence|]. split; [congruence|].
  exists (k ++ k')%list. rewrite Hk', Hk. now rewrite <- app_assoc.
Qed.

Lemma addOne_grew (ents ents' : list Entity) (o : ObservationRequest) (r : ObservationResult) :
  addOne ents o = inr (r, ents') -> Forall2 grew ents ents'.
Proof.
  revert ents' r. induction ents as [|x l IH]; intros ents' r; [discriminate|].
  rewrite addOne_cons. destruct (decide (name x = entityName o)).
  - intros [= <- <-]. constructor; [|apply Forall2_refl_on, grew_refl].
    repeat split. eexists. reflexivity.
  - destruct (addOne l o) as [e|[r' l']]; [discriminate|].
    intros [= <- <-]. constructor; [apply grew_refl|]. eapply IH. reflexivity.
Qed.

Lemma addAll_grew (reqs : list ObservationRequest) (ents ents' : list Entity)
    (rs : list ObservationResult) :
  addAll ents reqs = inr (rs, ents') -> Forall2 grew ents ents'.
Proof.
  revert ents rs. induction reqs as [|o reqs IH]; intros ents rs; simpl.
  - intros [= <- <-]. apply Forall2_refl_on, grew_refl.
  - destruct (addOne ents o) as [e|[r e1]] eqn:H1; [discriminate|].
    destruct (addAll e1 reqs) as [e|[rs' e2]] eqn:H2; [discriminate|].
    intros [= <- <-]. eapply Forall2_trans_on; [exact grew_trans|eapply addOne_grew|eapply IH]; eauto.
Qed.

Lemma entity_eta (x : Entity) :
  {| name := name x; entityType := entityType x; observations := observations x |} = x.
Proof. now destruct x. Qed.

(** once every requested content is among the observations of the first
    entity of the name, a request adds nothing *)
Lemma addOne_nothing (ents : list Entity) (o : ObservationRequest) :
  addOne ents o = inr (nothingAdded o, ents) <->
  exists a x b,
    ents = (a ++ x :: b)%list /\ hasName a (entityName o) = false /\ name x = entityName o
    /\ forall c, In c (contents o) -> In c (observations x).
Proof.
  induction ents as [|x l IH].
  - split; [discriminate|]. intros (a & y & b & E & _). now destruct a.
  - rewrite addOne_cons. destruct (decide (name x = entityName o)) as [E|E].
    + cbn zeta. split.
      * intros [= Hnew Hobs]. exists [], x, l. repeat split; [exact E|].
        intros c Hc. apply includesStr_In.
        destruct (includesStr (observations x) c) eqn:Hi; [reflexivity|].
        assert (Hin : In c (List.filter (fun c => negb (includesStr (observations x) c))
                              (contents o))).
        { apply filter_In. now rewrite Hi. }
        rewrite Hnew in Hin. destruct Hin.
      * intros (a & y & b & Hl & Ha & Hy & Hc).
        destruct a as [|a0 a].
        -- injection Hl as <- <-.
           rewrite filter_none.
           ++ rewrite app_nil_r, entity_eta. reflexivity.
           ++ intros c Hin. apply negb_false_iff, includesStr_In, Hc, Hin.
        -- injection Hl as <- _. unfold hasName in Ha. simpl in Ha.
           apply orb_false_iff in Ha. destruct Ha as [Ha _].
           apply String.eqb_neq in Ha. contradiction.
    + split.
      * destruct (addOne l o) as [e|[r l']] eqn:H1; [discriminate|].
        intros [= -> ->]. destruct (proj1 IH eq_refl) as (a & y & b & Hl & Ha & Hy & Hc).
        exists (x :: a), y, b. repeat split; [now rewrite Hl| |exact Hy|exact Hc].
        unfold hasName in *. simpl. rewrite Ha, orb_false_r. now apply String.eqb_neq.
      * intros (a & y & b & Hl & Ha & Hy & Hc).
        destruct a as [|a0 a]; [injection Hl as <- <-; contradiction|].
        injection Hl as <- Hl. unfold hasName in Ha. simpl in Ha.
        apply orb_false_iff in Ha. destruct Ha as [_ Ha].
        rewrite (proj2 IH); [reflexivity|]. exists a, y, b. auto.
Qed.

Lemma grew_names (a b : list Entity) : Forall2 grew a b -> map name b = map name a.
Proof. induction 1 as [|x y a b (Hn & _) _ IH]; simpl; [reflexivity|]. now rewrite Hn, IH. Qed.

Lemma addOne_settled (ents ents' : list Entity) (o : ObservationRequest)
    (r : ObservationResult) :
  addOne ents o = inr (r, ents') -> addOne ents' o = inr (nothingAdded o, ents').
Proof.
  revert ents' r. induction ents as [|x l IH]; intros ents' r; [discriminate|].
  rewrite addOne_cons. destruct (decide (name x = entityName o)) as [E|E].
  - intros [= <- <-]. rewrite addOne_cons. cbn [name entityType observations].
    destruct (decide (name x = entityName o)); [|contradiction]. cbn zeta.
    rewrite (filter_none _ (contents o)).
    + now rewrite app_nil_r.
    + intros c Hc. apply negb_false_iff, includesStr_In, in_or_app.
      destruct (includesStr (observations x) c) eqn:Hi.
      * left. now apply includesStr_In.
      * right. apply filter_In. now rewrite Hi.
  - destruct (addOne l o) as [e|[r' l']] eqn:H1; [discriminate|].
    intros [= <- <-]. rewrite addOne_cons.
    destruct (decide (name x = entityName o)); [contradiction|].
    now rewrite (IH l' r' eq_refl).
Qed.

Lemma addOne_nothing_grew (a b : list Entity) (o : ObservationRequest) :
  Forall2 grew a b ->
  addOne a o = inr (nothingAdded o, a) -> addOne b o = inr (nothingAdded o, b).
Proof.
  intros Hab Ha. apply addOne_nothing in Ha. destruct Ha as (a1 & x & a2 & -> & Hn & Hx & Hc).
  apply List.Forall2_app_inv_l in Hab. destruct Hab as (b1 & b2' & H1 & H2 & ->).
  inversion H2 as [|x' y a2' b2 (Hy & _ & extra & Hobs) H3]; subst.
  apply addOne_nothing. exists b1, y, b2. split; [reflexivity|]. split; [|split].
  - rewrite (hasName_names b1 a1); [exact Hn|]. now apply grew_names.
  - congruence.
  - intros c Hin. rewrite Hobs. apply in_or_app. left. now apply Hc.
Qed.

Lemma addAll_settled (reqs : list ObservationRequest) (ents ents' : list Entity)
    (rs : list ObservationResult) :
  addAll ents reqs = inr (rs, ents') ->
  addAll ents' reqs = inr (map nothingAdded reqs, ents').
Proof.
  revert ents rs. induction reqs as [|o reqs IH]; intros ents rs; simpl.
  - intros [= <- <-]. reflexivity.
  - destruct (addOne ents o) as [e|[r e1]] eqn:H1; [discriminate|].
    destruct (addAll e1 reqs) as [e|[rs' e2]] eqn:H2; [discriminate|].
    intros [= <- <-].
    rewrite (addOne_nothing_grew e1 e2 o (addAll_grew _ _ _ _ H2) (addOne_settled _ _ _ _ H1)).
    now rewrite (IH e1 rs' H2).
Qed.

(** X8: a call of [addObservations] that succeeds keeps the entities, their
    order, names and types and the relations, and only appends observations;
    the same call made again succeeds, reports nothing added for each
    request, and leaves the file as the first call wrote it. *)
Theorem addObservations_twice (file file' : File) (graph : KnowledgeGraph)
    (reqs : list ObservationRequest) (results : list ObservationResult) :
  holds file graph ->
  addObservations reqs file = (inr results, file') ->
  (exists stored,
      holds file' stored /\ relations stored = relations graph
      /\ Forall2 grew (entities graph) (entities stored))
  /\ map res_entityName results = map entityName reqs
  /\ addObservations reqs file' = (inr (map nothingAdded reqs), file').
Proof.
  intros H. rewrite (run_addObservations file graph reqs H).
  destruct (addAll (entities graph) reqs) as [e|[rs ents]] eqn:Ha; [discriminate|].
  intros [= <- <-]. split; [|split].
  - eexists. split; [apply holds_serialize|]. split; [reflexivity|].
    cbn [entities]. exact (addAll_grew _ _ _ _ Ha).
  - clear H. revert Ha. generalize (entities graph) as es. revert rs ents.
    induction reqs as [|o reqs IH]; intros rs ents es; simpl.
    + intros [= <- _]. reflexivity.
    + destruct (addOne es o) as [e|[r e1]] eqn:H1; [discriminate|].
      destruct (addAll e1 reqs) as [e|[rs' e2]] eqn:H2; [discriminate|].
      intros [= <- _]. simpl. rewrite (IH rs' e2 e1 H2). f_equal.
      unfold addOne in H1.
      destruct (list_find (fun e => name e = entityName o) es) as [[i x]|]; [|discriminate].
      now injection H1 as <- _.
  - rewrite (run_addObservations _ _ reqs (holds_serialize _)). cbn [entities relations].
    now rewrite (addAll_settled reqs _ _ _ Ha).
Qed.

Lemma addObservations_twice_witness :
  addObservations [{| entityName := "Alice"; contents := ["likes tea"; "likes tea"] |}]
    (snd (addObservations
            [{| entityName := "Alice"; contents := ["likes tea"; "likes tea"] |}]
            twoEntitiesFile))
  = (inr [{| res_entityName := "Alice"; addedObservations := [] |}],
     snd (addObservations
            [{| entityName := "Alice"; contents := ["likes tea"; "likes tea"] |}]
            twoEntitiesFile)).
Proof.
  refine (proj2 (proj2 (addObservations_twice twoEntitiesFile _ twoEntities
                          [{| entityName := "Alice"; contents := ["likes tea"; "likes tea"] |}]
                          _ (holds_serialize twoEntities) _))).
  rewrite (run_addObservations twoEntitiesFile twoEntities _ (holds_serialize twoEntities)).
  reflexivity.
Defined.

(** ** Loading *)

Lemma splitLines_append (a b : string) :
  splitLines (a ++ newlineStr ++ b)%string = (splitLines a ++ splitLines b)%list.
Proof.
  change (newlineStr ++ b)%string with (String Json.newline b).
  induction a as [|c a IH].
  - reflexivity.
  - cbn [String.append splitLines]. rewrite IH.
    destruct (Ascii.eqb c Json.newline); [reflexivity|].
    destruct (splitLines a) as [|w ws] eqn:E; [now apply splitLines_nonempty in E|].
    reflexivity.
Qed.

Lemma trim_space (c : ascii) (s : string) :
  Js.isSpace c = true -> Js.trim (String c s) = Js.trim s.
Proof. intros H. unfold Js.trim. cbn [Js.trimStart]. now rewrite H. Qed.

Lemma allSpace_lines (pad : string) :
  allSpace pad = true -> List.filter nonBlank (splitLines pad) = [].
Proof.
  induction pad as [|c pad IH]; [reflexivity|].
  cbn [allSpace]. intros H. apply andb_true_iff in H. destruct H as [Hc Hp].
  specialize (IH Hp). cbn [splitLines].
  destruct (Ascii.eqb c Json.newline); [exact IH|].
  destruct (splitLines pad) as [|w ws] eqn:E; [now apply splitLines_nonempty in E|].
  cbn [List.filter] in *. unfold nonBlank in *. rewrite (trim_space c w Hc).
  destruct (negb (Js.isEmpty (Js.trim w))); [discriminate|exact IH].
Qed.

Lemma row_lines (row : Row) :
  rowOk row ->
  List.filter nonBlank (splitLines (rowText row))
  = match row with
    | EntityRow e => [entityLine e]
    | RelationRow r => [relationLine r]
    | BlankRow _ => []
    end.
Proof.
  destruct row as [e|r|pad]; cbn [rowOk rowText].
  - intros _. rewrite splitLines_line by apply hasNewline_entityLine.
    cbn [List.filter]. destruct (entityLine_shape e) as [tl ->].
    unfold nonBlank. now rewrite brace_line_not_blank.
  - intros _. rewrite splitLines_line by apply hasNewline_relationLine.
    cbn [List.filter]. destruct (relationLine_shape r) as [tl ->].
    unfold nonBlank. now rewrite brace_line_not_blank.
  - apply allSpace_lines.
Qed.

Lemma rows_lines (rows : list Row) :
  List.filter nonBlank (splitLines (rowsText rows))
  = flat_map (fun row => List.filter nonBlank (splitLines (rowText row))) rows.
Proof.
  unfold rowsText. destruct rows as [|x rows]; [reflexivity|].
  revert x. induction rows as [|y rows IH]; intros x.
  - simpl. now rewrite app_nil_r.
  - cbn [map]. rewrite join_cons2, splitLines_append, filter_app_list.
    cbn [map] in IH. rewrite IH. reflexivity.
Qed.

Lemma reduce_rows (rows : list Row) (graph : KnowledgeGraph) :
  Forall rowOk rows ->
  reduceLines graph
    (flat_map (fun row => List.filter nonBlank (splitLines (rowText row))) rows)
  = inr {| entities := entities graph ++ rowEntities rows;
           relations := relations graph ++ rowRelations rows |}.
Proof.
  intros H. revert graph. induction H as [|row rows Hrow _ IH]; intros graph.
  - simpl. now rewrite !app_nil_r, graph_eta.
  - cbn [flat_map]. rewrite reduceLines_app, (row_lines row Hrow).
    destruct row as [e|r|pad]; cbn [reduceLines rowEntities rowRelations].
    + rewrite loadLine_entityLine, IH. cbn [entities relations].
      now rewrite <- app_assoc.
    + rewrite loadLine_relationLine, IH. cbn [entities relations].
      now rewrite <- app_assoc.
    + apply IH.
Qed.

(** X9: [loadGraph] reads the file row by row: whatever the order of the
    entity rows and the relation rows, and whatever rows of white space lie
    between, before or after them, it succeeds, with the entities in the
    order of their rows and the relations in the order of theirs. *)
Theorem loadGraph_rows (rows : list Row) :
  Forall rowOk rows ->
  holds (Some (rowsText rows))
    {| entities := rowEntities rows; relations := rowRelations rows |}.
Proof.
  intros H. unfold holds, loadGraph, parseGraph. fold nonBlank.
  now rewrite rows_lines, (reduce_rows rows emptyGraph H).
Qed.

Lemma loadGraph_rows_witness :
  holds (Some (rowsText [BlankRow " "; RelationRow {| from := "Alice"; to := "Bob";
                                                       relationType := "knows" |};
                         BlankRow newlineStr; EntityRow alice; BlankRow EmptyString]))
    {| entities := [alice];
       relations := [{| from := "Alice"; to := "Bob"; relationType := "knows" |}] |}.
Proof.
  apply (loadGraph_rows
           [BlankRow " "; RelationRow {| from := "Alice"; to := "Bob";
                                         relationType := "knows" |};
            BlankRow newlineStr; EntityRow alice; BlankRow EmptyString]).
  repeat constructor.
Defined.




(** ** The subgraph, exactly *)

Lemma newNeighbors_keeps (rels : list Relation) (entitySet acc : gset string) (x : string) :
  x ∈ acc ->
  x ∈ fold_left
        (fun acc rel =>
           let acc1 :=
             if bool_decide (from rel ∈ entitySet) then acc ∪ {[to rel]} else acc in
           if bool_decide (to rel ∈ entitySet) then acc1 ∪ {[from rel]} else acc1)
        rels acc.
Proof.
  revert acc. induction rels as [|r rels IH]; intros acc H; simpl; [exact H|].
  apply IH.
  destruct (bool_decide (from r ∈ entitySet)), (bool_decide (to r ∈ entitySet));
    rewrite ?elem_of_union; auto.
Qed.

Lemma newNeighbors_reached (rels : list Relation) (entitySet acc : gset string)
    (r : Relation) (y x : string) :
  In r rels -> y ∈ entitySet -> joins r y x ->
  x ∈ fold_left
        (fun acc rel =>
           let acc1 :=
             if bool_decide (from rel ∈ entitySet) then acc ∪ {[to rel]} else acc in
           if bool_decide (to rel ∈ entitySet) then acc1 ∪ {[from rel]} else acc1)
        rels acc.
Proof.
  revert acc. induction rels as [|r' rels IH]; intros acc [].
  - subst r'. intros Hy Hj. simpl. apply newNeighbors_keeps.
    destruct Hj as [[Hf Ht]|[Ht Hf]]; subst.
    + rewrite (bool_decide_eq_true_2 _ Hy).
      destruct (bool_decide (to r ∈ entitySet));
        rewrite ?elem_of_union, ?elem_of_singleton; auto.
    + rewrite (bool_decide_eq_true_2 _ Hy).
      rewrite ?elem_of_union, ?elem_of_singleton; auto.
  - intros Hy Hj. simpl. now apply IH.
Qed.

Lemma expandRound_grows (rels : list Relation) (entitySet : gset string) (x : string) :
  x ∈ entitySet -> x ∈ expandRound rels entitySet.
Proof. intros H. unfold expandRound. apply elem_of_union. now left. Qed.

Lemma expandRounds_grows (rels : list Relation) (depth : nat) (entitySet : gset string)
    (x : string) :
  x ∈ entitySet -> x ∈ expandRounds rels depth entitySet.
Proof.
  revert entitySet. induction depth as [|d IH]; intros entitySet H; simpl; [exact H|].
  now apply IH, expandRound_grows.
Qed.

(** a walk of at least one relation, seen from its first step *)
Lemma hops_first (rels : list Relation) (m : nat) (a c : string) :
  hops rels m a c ->
  forall n, m = S n -> exists r b, In r rels /\ joins r a b /\ hops rels n b c.
Proof.
  induction 1 as [|n0 a b0 c r Hab IH Hr Hj]; intros n E; [discriminate|].
  injection E as ->. destruct n as [|n1].
  - inversion Hab; subst. exists r, c. repeat split; trivial. apply hops_here.
  - destruct (IH n1 eq_refl) as (r1 & b1 & Hr1 & Hj1 & Hh).
    exists r1, b1. repeat split; trivial. exact (hops_step rels n1 b1 b0 c r Hh Hr Hj).
Qed.

Lemma expandRounds_reaches (rels : list Relation) (depth n : nat) (entitySet : gset string)
    (y x : string) :
  y ∈ entitySet -> n <= depth -> hops rels n y x -> x ∈ expandRounds rels depth entitySet.
Proof.
  revert n entitySet y. induction depth as [|d IH]; intros n entitySet y Hy Hn Hh.
  - assert (n = 0) as -> by lia. inversion Hh; subst. exact Hy.
  - destruct n as [|n].
    + inversion Hh; subst. now apply expandRounds_grows.
    + destruct (hops_first rels (S n) y x Hh n eq_refl) as (r & b & Hr & Hj & Hb).
      simpl. apply (IH n _ b); [|lia|exact Hb].
      unfold expandRound. apply elem_of_union. right.
      eapply newNeighbors_reached; eassumption.
Qed.

Lemma expandRounds_exact (rels : list Relation) (seeds : list string) (k : nat) (x : string) :
  x ∈ expandRounds rels k (list_to_set seeds) <-> withinHops rels seeds k x.
Proof.
  unfold withinHops. split.
  - intros H. apply expandRounds_elem in H. destruct H as (y & n & Hy & Hn & Hh).
    exists y, n. rewrite elem_of_list_to_set, list_elem_of_In in Hy. auto.
  - intros (s & n & Hs & Hn & Hh). apply (expandRounds_reaches rels k n _ s); trivial.
    now rewrite elem_of_list_to_set, list_elem_of_In.
Qed.

(** X11: [getSubgraph] returns exactly the entities whose name is within
    [depth] undirected hops of a seed, and exactly the relations both ends
    of which are; so a deeper subgraph contains the shallower one. Hops
    follow stored relations, whether or not the names on the way are
    entities. *)
Theorem getSubgraph_exact (graph : KnowledgeGraph) (seeds : list string) (depth : nat) :
  (forall e, In e (entities (getSubgraph seeds depth graph)) <->
             In e (entities graph) /\ withinHops (relations graph) seeds depth (name e))
  /\ (forall r, In r (relations (getSubgraph seeds depth graph)) <->
                In r (relations graph)
                /\ withinHops (relations graph) seeds depth (from r)
                /\ withinHops (relations graph) seeds depth (to r))
  /\ (forall e, In e (entities (getSubgraph seeds depth graph)) ->
                In e (entities (getSubgraph seeds (S depth) graph)))
  /\ (forall r, In r (relations (getSubgraph seeds depth graph)) ->
                In r (relations (getSubgraph seeds (S depth) graph))).
Proof.
  assert (He : forall k e, In e (entities (getSubgraph seeds k graph)) <->
                           In e (entities graph)
                           /\ withinHops (relations graph) seeds k (name e)).
  { intros k e. unfold getSubgraph. cbn [entities].
    now rewrite filter_In, bool_decide_eq_true, expandRounds_exact. }
  assert (Hr : forall k r, In r (relations (getSubgraph seeds k graph)) <->
                           In r (relations graph)
                           /\ withinHops (relations graph) seeds k (from r)
                           /\ withinHops (relations graph) seeds k (to r)).
  { intros k r. unfold getSubgraph. cbn [relations].
    now rewrite filter_In, andb_true_iff, !bool_decide_eq_true, !expandRounds_exact. }
  assert (Hmono : forall x, withinHops (relations graph) seeds depth x ->
                            withinHops (relations graph) seeds (S depth) x).
  { intros x (s & n & Hs & Hn & Hh). exists s, n. repeat split; trivial. lia. }
  split; [apply He|]. split; [apply Hr|]. split.
  - intros e H. apply He. apply He in H. destruct H. auto.
  - intros r H. apply Hr. apply Hr in H. destruct H as (? & ? & ?). auto.
Qed.

(** ** Induced subgraphs *)





(** ** Neighbours *)

Lemma entityMap_fold_In (l : list Entity) (m : gmap string Entity) (n : string) (e : Entity) :
  fold_left (fun m e => <[name e := e]> m) l m !! n = Some e ->
  In e l \/ m !! n = Some e.
Proof.
  revert m. induction l as [|x l IH]; intros m; simpl; [auto|].
  intros H. apply IH in H. destruct H as [H|H]; [auto|].
  apply lookup_insert_Some in H. destruct H as [[_ <-]|[_ H]]; auto.
Qed.

Lemma entityMap_In (graph : KnowledgeGraph) (n : string) (e : Entity) :
  entityMap graph !! n = Some e -> In e (entities graph).
Proof.
  intros H. apply entityMap_fold_In in H. destruct H as [H|H]; [exact H|].
  now rewrite lookup_empty in H.
Qed.

Lemma dirEqb_eq (a b : Direction) : dirEqb a b = true <-> a = b.
Proof. destruct a, b; simpl; split; congruence. Qed.

Lemma In_guarded {A B} (c : bool) (o : option A) (f : A -> B) (y : B) :
  In y (if c then match o with Some x => [f x] | None => [] end else []) <->
  c = true /\ exists x, o = Some x /\ y = f x.
Proof.
  destruct c, o as [x|]; simpl; split.
  - intros [<-|[]]. eauto.
  - intros (_ & x' & Hx & ->). injection Hx as <-. now left.
  - intros [].
  - intros (_ & x' & H & _). discriminate.
  - intros [].
  - intros (H & _). discriminate.
  - intros [].
  - intros (H & _). discriminate.
Qed.

Lemma neighborsOf_In (emap : gmap string Entity) (n : string) (direction : Direction)
    (relationType' : option string) (rel : Relation) (nr : NeighborResult) :
  In nr (neighborsOf emap n direction relationType' rel) <->
  nb_relation nr = rel /\ typeAdmitted relationType' rel
  /\ ((nb_direction nr = Outgoing /\ direction <> Incoming /\ from rel = n
       /\ emap !! to rel = Some (nb_entity nr))
      \/ (nb_direction nr = Incoming /\ direction <> Outgoing /\ to rel = n
          /\ emap !! from rel = Some (nb_entity nr))).
Proof.
  assert (Hbody :
    In nr
      ((if (dirEqb direction Both || dirEqb direction Outgoing) && String.eqb (from rel) n
        then match emap !! to rel with
             | Some targetEntity =>
                 [{| nb_entity := targetEntity; nb_relation := rel; nb_direction := Outgoing |}]
             | None => []
             end
        else []) ++
       (if (dirEqb direction Both || dirEqb direction Incoming) && String.eqb (to rel) n
        then match emap !! from rel with
             | Some sourceEntity =>
                 [{| nb_entity := sourceEntity; nb_relation := rel; nb_direction := Incoming |}]
             | None => []
             end
        else []))%list <->
    nb_relation nr = rel
    /\ ((nb_direction nr = Outgoing /\ direction <> Incoming /\ from rel = n
         /\ emap !! to rel = Some (nb_entity nr))
        \/ (nb_direction nr = Incoming /\ direction <> Outgoing /\ to rel = n
            /\ emap !! from rel = Some (nb_entity nr)))).
  { rewrite in_app_iff.
    rewrite (In_guarded _ _ (fun x => {| nb_entity := x; nb_relation := rel;
                                         nb_direction := Outgoing |})).
    rewrite (In_guarded _ _ (fun x => {| nb_entity := x; nb_relation := rel;
                                         nb_direction := Incoming |})).
    rewrite !andb_true_iff, !orb_true_iff, !dirEqb_eq, !String.eqb_eq.
    split.
    - intros [((Hd & Hn) & x & Hx & ->)|((Hd & Hn) & x & Hx & ->)];
        cbn [nb_entity nb_relation nb_direction]; (split; [reflexivity|]).
      + left. repeat split; trivial. destruct Hd; subst; discriminate.
      + right. repeat split; trivial. destruct Hd; subst; discriminate.
    - destruct nr as [e r d]. cbn [nb_entity nb_relation nb_direction].
      intros (-> & [(-> & Hd & Hn & Hx)|(-> & Hd & Hn & Hx)]).
      + left. split; [|eauto]. split; [|exact Hn]. destruct direction; auto. contradiction.
      + right. split; [|eauto]. split; [|exact Hn]. destruct direction; auto. contradiction. }
  unfold neighborsOf, typeAdmitted.
  destruct (given relationType') as [rt|].
  - destruct (String.eqb_spec (relationType rel) rt) as [E|E]; cbn [negb].
    + rewrite Hbody. tauto.
    + split; [intros []|]. intros (_ & H & _). contradiction.
  - rewrite Hbody. tauto.
Qed.

(** X14: [getNeighbors] returns a result for a stored relation exactly when
    the asked name is an entity, the relation passes the type filter, and
    either the relation starts at the asked name, the direction is not
    incoming, and the result is outgoing with the entity the map holds for
    the other end, or the same with the ends swapped. So every result
    carries an entity and a relation of the graph joined to the asked name,
    no result has the direction both, and a relation from an entity to
    itself gives two results. *)
Theorem getNeighbors_exact (n : string) (direction : Direction)
    (relationType' : option string) (graph : KnowledgeGraph) :
  (forall nr,
      In nr (getNeighbors n direction relationType' graph) <->
      isEntity graph n /\ In (nb_relation nr) (relations graph)
      /\ typeAdmitted relationType' (nb_relation nr)
      /\ ((nb_direction nr = Outgoing /\ direction <> Incoming
           /\ from (nb_relation nr) = n
           /\ entityMap graph !! to (nb_relation nr) = Some (nb_entity nr))
          \/ (nb_direction nr = Incoming /\ direction <> Outgoing
              /\ to (nb_relation nr) = n
              /\ entityMap graph !! from (nb_relation nr) = Some (nb_entity nr))))
  /\ (forall nr,
         In nr (getNeighbors n direction relationType' graph) ->
         In (nb_entity nr) (entities graph)
         /\ nb_direction nr <> Both
         /\ joins (nb_relation nr) n (name (nb_entity nr)))
  /\ (forall r,
         isEntity graph n -> In r (relations graph) -> from r = n -> to r = n ->
         typeAdmitted relationType' r -> direction = Both ->
         exists e, In {| nb_entity := e; nb_relation := r; nb_direction := Outgoing |}
                     (getNeighbors n direction relationType' graph)
                   /\ In {| nb_entity := e; nb_relation := r; nb_direction := Incoming |}
                        (getNeighbors n direction relationType' graph)).
Proof.
  assert (Hiff : forall nr,
      In nr (getNeighbors n direction relationType' graph) <->
      isEntity graph n /\ In (nb_relation nr) (relations graph)
      /\ typeAdmitted relationType' (nb_relation nr)
      /\ ((nb_direction nr = Outgoing /\ direction <> Incoming
           /\ from (nb_relation nr) = n
           /\ entityMap graph !! to (nb_relation nr) = Some (nb_entity nr))
          \/ (nb_direction nr = Incoming /\ direction <> Outgoing
              /\ to (nb_relation nr) = n
              /\ entityMap graph !! from (nb_relation nr) = Some (nb_entity nr)))).
  { intros nr. unfold getNeighbors, isEntity.
    destruct (entityMap graph !! n) as [e|] eqn:E.
    - assert (Hn : hasName (entities graph) n = true).
      { destruct (hasName (entities graph) n) eqn:Hn; [reflexivity|].
        apply entityMap_None in Hn. congruence. }
      rewrite in_flat_map. split.
      + intros (rel & Hin & H). apply neighborsOf_In in H. destruct H as (<- & Ht & H).
        auto.
      + intros (_ & Hin & Ht & H). exists (nb_relation nr). split; [exact Hin|].
        apply neighborsOf_In. auto.
    - apply entityMap_None in E. unfold absent in E. rewrite E.
      split; [intros []|]. intros (H & _). discriminate. }
  split; [exact Hiff|]. split.
  - intros nr H. apply Hiff in H.
    destruct H as (_ & _ & _ & [(Hd & _ & Hf & Hm)|(Hd & _ & Ht & Hm)]).
    + split; [now apply entityMap_In in Hm|]. split; [congruence|].
      left. split; [exact Hf|]. symmetry. now apply entityMap_Some in Hm.
    + split; [now apply entityMap_In in Hm|]. split; [congruence|].
      right. split; [exact Ht|]. symmetry. now apply entityMap_Some in Hm.
  - intros r Hn Hr Hf Ht Hty ->.
    destruct (isEntity_lookup graph n Hn) as (e & He & _).
    exists e. split; apply Hiff; cbn [nb_entity nb_relation nb_direction].
    + split; [exact Hn|]. split; [exact Hr|]. split; [exact Hty|].
      left. rewrite Ht. repeat split; trivial. discriminate.
    + split; [exact Hn|]. split; [exact Hr|]. split; [exact Hty|].
      right. rewrite Hf. repeat split; trivial. discriminate.
Qed.

Lemma getNeighbors_exact_witness :
  exists e,
    In {| nb_entity := e;
          nb_relation := {| from := "A"; to := "A"; relationType := "uses" |};
          nb_direction := Outgoing |}
       (getNeighbors "A" Both None
          {| entities := [{| name := "A"; entityType := "Module"; observations := [] |}];
             relations := [{| from := "A"; to := "A"; relationType := "uses" |}] |})
    /\ In {| nb_entity := e;
             nb_relation := {| from := "A"; to := "A"; relationType := "uses" |};
             nb_direction := Incoming |}
          (getNeighbors "A" Both None
             {| entities := [{| name := "A"; entityType := "Module"; observations := [] |}];
                relations := [{| from := "A"; to := "A"; relationType := "uses" |}] |}).
Proof.
  apply (proj2 (proj2 (getNeighbors_exact "A" Both None
                         {| entities := [{| name := "A"; entityType := "Module";
                                            observations := [] |}];
                            relations := [{| from := "A"; to := "A";
                                             relationType := "uses" |}] |}))
           {| from := "A"; to := "A"; relationType := "uses" |});
    try reflexivity.
  simpl. auto.
Defined.

(** ** Paths, in both directions *)

Lemma findPath_outcome (graph : KnowledgeGraph) (a b : string) (maxDepth : nat) :
  isEntity graph a -> isEntity graph b ->
  match findPath a b maxDepth graph with
  | Some (Some r) => shortest graph a b r /\ pathLength r <= maxDepth
  | Some None => forall p rs, isPath graph a b p rs -> maxDepth < length rs
  | None => False
  end.
Proof.
  intros Ha Hb.
  destruct (isEntity_lookup graph a Ha) as (ea & Hea & Hna).
  destruct (isEntity_lookup graph b Hb) as (eb & Heb & _).
  unfold findPath, findPathWithin. rewrite Hea, Heb.
  destruct (String.eqb_spec a b) as [<-|Hne].
  - split; [|simpl; lia].
    exists [a], [], [ea]. simpl. rewrite Hna.
    repeat split; trivial; [constructor|lia].
  - apply (bfs_correct graph a b maxDepth Hb); [apply inv_start|].
    pose proof (potential_le (relations graph) ∅). unfold loopBound. simpl. lia.
Qed.

Lemma joins_sym (r : Relation) (u v : string) : joins r u v -> joins r v u.
Proof. unfold joins. tauto. Qed.

Lemma chain_rev (graph : KnowledgeGraph) (p : list string) (rs : list Relation) :
  chain graph p rs -> Forall (isEntity graph) p -> chain graph (rev p) (rev rs).
Proof.
  induction 1 as [x|x y l r rs (Hx & Hr & Hj) Hc IH]; intros Hall.
  - constructor.
  - inversion Hall as [|? ? _ Hrest]; subst. specialize (IH Hrest).
    inversion Hrest as [|? ? Hy _]; subst.
    change (rev (x :: y :: l)) with ((rev l ++ [y]) ++ [x])%list.
    change (rev (r :: rs)) with (rev rs ++ [r])%list.
    rewrite <- app_assoc. cbn [app].
    apply chain_snoc; [exact IH|].
    split; [exact Hy|]. split; [exact Hr|]. now apply joins_sym.
Qed.

Lemma isPath_rev (graph : KnowledgeGraph) (a b : string) (p : list string)
    (rs : list Relation) :
  isPath graph a b p rs -> isPath graph b a (rev p) (rev rs).
Proof.
  intros (Hc & Hh & Hl & Hb).
  assert (Hall : Forall (isEntity graph) p).
  { apply (chain_entities graph p rs a Hc). now rewrite Hl. }
  destruct p as [|x p]; [discriminate|]. injection Hh as ->.
  split; [now apply chain_rev|]. split; [|split].
  - destruct (exists_last (l := a :: p)) as (q & z & E); [discriminate|].
    rewrite E in *. rewrite last_last in Hl. subst z.
    now rewrite rev_app_distr.
  - simpl. now rewrite last_last.
  - now inversion Hall.
Qed.

(** X15: [findPath] finds a path from [a] to [b] exactly when it finds one
    from [b] to [a], and the two have the same length; a relation is walked
    in either direction. The loop ends within its bound both ways. *)
Theorem findPath_symmetric (graph : KnowledgeGraph) (a b : string) (maxDepth : nat) :
  match findPath a b maxDepth graph, findPath b a maxDepth graph with
  | Some (Some r), Some (Some r') => pathLength r = pathLength r'
  | Some None, Some None => True
  | _, _ => False
  end.
Proof.
  destruct (hasName (entities graph) a) eqn:Ha;
    [|unfold findPath; rewrite !findPathWithin_absent by (unfold absent; auto); exact I].
  destruct (hasName (entities graph) b) eqn:Hb;
    [|unfold findPath; rewrite !findPathWithin_absent by (unfold absent; auto); exact I].
  pose proof (findPath_outcome graph a b maxDepth Ha Hb) as Hab.
  pose proof (findPath_outcome graph b a maxDepth Hb Ha) as Hba.
  destruct (findPath a b maxDepth graph) as [[r|]|];
    destruct (findPath b a maxDepth graph) as [[r'|]|]; try contradiction; trivial.
  - destruct Hab as [(p & rs & es & Hp & _ & _ & _ & Hlen & Hmin) _].
    destruct Hba as [(p' & rs' & es' & Hp' & _ & _ & _ & Hlen' & Hmin') _].
    pose proof (Hmin _ _ (isPath_rev _ _ _ _ _ Hp')) as H1.
    pose proof (Hmin' _ _ (isPath_rev _ _ _ _ _ Hp)) as H2.
    rewrite length_rev in H1, H2. lia.
  - destruct Hab as [(p & rs & es & Hp & _ & _ & _ & Hlen & _) Hd].
    pose proof (Hba _ _ (isPath_rev _ _ _ _ _ Hp)) as H. rewrite length_rev in H. lia.
  - destruct Hba as [(p & rs & es & Hp & _ & _ & _ & Hlen & _) Hd].
    pose proof (Hab _ _ (isPath_rev _ _ _ _ _ Hp)) as H. rewrite length_rev in H. lia.
Qed.

(** X16: a path that [findPath] finds within a depth it finds, with the
    same length, within every greater depth; and what it returns never has
    more relations than the depth allows. *)
Theorem findPath_deeper (graph : KnowledgeGraph) (a b : string) (d d' : nat)
    (r : PathResult) :
  d <= d' ->
  findPath a b d graph = Some (Some r) ->
  pathLength r <= d
  /\ exists r', findPath a b d' graph = Some (Some r') /\ pathLength r' = pathLength r.
Proof.
  intros Hd Hr.
  destruct (hasName (entities graph) a) eqn:Ha;
    [|unfold findPath in Hr; rewrite findPathWithin_absent in Hr by (unfold absent; auto);
      discriminate].
  destruct (hasName (entities graph) b) eqn:Hb;
    [|unfold findPath in Hr; rewrite findPathWithin_absent in Hr by (unfold absent; auto);
      discriminate].
  pose proof (findPath_outcome graph a b d Ha Hb) as H1.
  pose proof (findPath_outcome graph a b d' Ha Hb) as H2.
  rewrite Hr in H1. destruct H1 as [(p & rs & es & Hp & _ & _ & _ & Hlen & Hmin) Hle].
  split; [exact Hle|].
  destruct (findPath a b d' graph) as [[r'|]|]; [|exfalso|contradiction].
  - exists r'. split; [reflexivity|].
    destruct H2 as [(p' & rs' & es' & Hp' & _ & _ & _ & Hlen' & Hmin') _].
    pose proof (Hmin _ _ Hp'). pose proof (Hmin' _ _ Hp). lia.
  - pose proof (H2 _ _ Hp). lia.
Qed.

Lemma findPath_deeper_witness :
  exists r', findPath "A" "D" 7 modules = Some (Some r') /\ pathLength r' = 2.
Proof.
  refine (proj2 (findPath_deeper modules "A" "D" 2 7
                   {| path := map Some (map (fun n => {| name := n; entityType := "Module";
                                                          observations := [] |})
                                          ["A"; "C"; "D"]);
                      pathRelations :=
                        [{| from := "A"; to := "C"; relationType := "imports" |};
                         {| from := "C"; to := "D"; relationType := "imports" |}];
                      pathLength := 2 |} _ _)).
  - lia.
  - vm_compute. reflexivity.
Defined.

Lemma getSubgraph_exact_witness :
  withinHops (relations modules) ["A"] 2 "D".
Proof.
  apply (proj1 (getSubgraph_exact modules ["A"] 2)
           {| name := "D"; entityType := "Module"; observations := [] |}).
  vm_compute. auto 10.
Defined.



(** ** Filtering relations *)




(** ** The edit distance *)

Lemma lev_nil_r (ra : list ascii) : lev ra [] = length ra.
Proof. now destruct ra. Qed.

Lemma lev_cons (x y : ascii) (ra rb : list ascii) :
  lev (x :: ra) (y :: rb)
  = Nat.min (Nat.min (lev ra (y :: rb) + 1) (lev (x :: ra) rb + 1)) (lev ra rb + substCost x y).
Proof. reflexivity. Qed.

Lemma levRow_row (ai : ascii) (b : string) (ra rb : list ascii) :
  levRow ai b (lev ra rb :: rowTail ra rb b) (lev (ai :: ra) rb) = rowTail (ai :: ra) rb b.
Proof.
  revert rb. induction b as [|bj b IH]; intros rb; [reflexivity|].
  cbn [rowTail levRow]. rewrite lev_cons. unfold substCost at 1.
  f_equal. rewrite <- lev_cons. apply IH.
Qed.

Lemma seq_row (b : string) (rb : list ascii) :
  seq (S (length rb)) (String.length b) = rowTail [] rb b.
Proof.
  revert rb. induction b as [|c b IH]; intros rb; [reflexivity|].
  cbn [String.length seq rowTail lev]. f_equal. apply (IH (c :: rb)).
Qed.

Lemma levRows_rows (a b : string) (ra : list ascii) :
  levRows a b (length ra) (lev ra [] :: rowTail ra [] b)
  = lev (rev (list_ascii_of_string a) ++ ra) [] :: rowTail (rev (list_ascii_of_string a) ++ ra) [] b.
Proof.
  revert ra. induction a as [|ai a IH]; intros ra; [reflexivity|].
  cbn [levRows list_ascii_of_string rev].
  rewrite <- app_assoc. cbn [app]. rewrite <- (IH (ai :: ra)).
  cbn [length]. rewrite <- levRow_row. reflexivity.
Qed.

Lemma last_row (b : string) (ra rb : list ascii) :
  List.last (lev ra rb :: rowTail ra rb b) 0 = lev ra (rev (list_ascii_of_string b) ++ rb).
Proof.
  revert rb. induction b as [|c b IH]; intros rb; [reflexivity|].
  cbn [rowTail list_ascii_of_string rev]. rewrite <- app_assoc. cbn [app].
  rewrite <- IH. reflexivity.
Qed.

(** the matrix of [levenshteinDistance] holds the recurrence *)
Lemma levenshteinDistance_lev (a b : string) :
  levenshteinDistance a b = lev (reversed a) (reversed b).
Proof.
  unfold levenshteinDistance, reversed.
  pose proof (seq_row b []) as Hs. cbn [length] in Hs.
  cbn [seq]. rewrite Hs.
  pose proof (levRows_rows a b []) as Hr. cbn [length lev] in Hr. rewrite Hr.
  rewrite last_row. now rewrite !app_nil_r.
Qed.

Lemma lev_refl (l : list ascii) : lev l l = 0.
Proof.
  induction l as [|x l IH]; [reflexivity|].
  rewrite lev_cons, IH. unfold substCost. rewrite Ascii.eqb_refl. lia.
Qed.

Lemma substCost_sym (x y : ascii) : substCost x y = substCost y x.
Proof. unfold substCost. now rewrite Ascii.eqb_sym. Qed.

Lemma lev_sym (a b : list ascii) : lev a b = lev b a.
Proof.
  revert b. induction a as [|x a IHa]; intros b.
  - now rewrite lev_nil_r.
  - induction b as [|y b IHb]; [now rewrite lev_nil_r|].
    rewrite !lev_cons, (IHa (y :: b)), IHb, (IHa b), (substCost_sym x y). lia.
Qed.

Lemma lev_bounds (a b : list ascii) :
  absDiff (length a) (length b) <= lev a b <= Nat.max (length a) (length b).
Proof.
  revert b. induction a as [|x a IHa]; intros b.
  - unfold absDiff. simpl. lia.
  - induction b as [|y b IHb]; [rewrite lev_nil_r; unfold absDiff; simpl; lia|].
    rewrite lev_cons.
    pose proof (IHa (y :: b)) as H1. pose proof (IHa b) as H2.
    assert (Hc : substCost x y <= 1) by (unfold substCost; destruct (Ascii.eqb x y); lia).
    unfold absDiff in *. cbn [length] in *. lia.
Qed.

Lemma lev_zero (a b : list ascii) : lev a b = 0 -> a = b.
Proof.
  revert b. induction a as [|x a IHa]; intros b.
  - simpl. destruct b; [reflexivity|discriminate].
  - destruct b as [|y b]; [discriminate|].
    rewrite lev_cons. unfold substCost.
    destruct (Ascii.eqb_spec x y) as [->|Hne]; intros H.
    + f_equal. apply IHa. lia.
    + lia.
Qed.

Lemma list_ascii_app (a b : string) :
  list_ascii_of_string (a ++ b)%string = (list_ascii_of_string a ++ list_ascii_of_string b)%list.
Proof. induction a as [|c a IH]; simpl; [reflexivity|]. now rewrite IH. Qed.

Lemma reversed_snoc (a : string) (x : ascii) :
  reversed (a ++ String x EmptyString)%string = x :: reversed a.
Proof. unfold reversed. rewrite list_ascii_app. simpl. now rewrite rev_app_distr. Qed.

Lemma length_reversed (a : string) : length (reversed a) = String.length a.
Proof.
  unfold reversed. rewrite length_rev.
  induction a as [|c a IH]; simpl; [reflexivity|]. now rewrite IH.
Qed.

Lemma reversed_inj (a b : string) : reversed a = reversed b -> a = b.
Proof.
  unfold reversed. intros H. apply (f_equal (@rev ascii)) in H.
  rewrite !rev_involutive in H.
  rewrite <- (string_of_list_ascii_of_string a), <- (string_of_list_ascii_of_string b).
  now rewrite H.
Qed.

(** X18: the matrix [levenshteinDistance] fills computes the edit distance:
    the distance to the empty string is the length; the distance between
    two strings that end in a character is the least of the three
    neighbouring cells, a substitution of equal characters being free. So
    the distance is 0 exactly between equal strings, is the same in both
    directions, is at least the difference of the lengths and at most the
    greater length. *)
Theorem levenshteinDistance_recurrence :
  (forall b, levenshteinDistance EmptyString b = String.length b)
  /\ (forall a, levenshteinDistance a EmptyString = String.length a)
  /\ (forall a b x y,
         levenshteinDistance (a ++ String x EmptyString)%string (b ++ String y EmptyString)%string
         = Nat.min
             (Nat.min (levenshteinDistance a (b ++ String y EmptyString)%string + 1)
                      (levenshteinDistance (a ++ String x EmptyString)%string b + 1))
             (levenshteinDistance a b + substCost x y))
  /\ (forall a b, levenshteinDistance a b = 0 <-> a = b)
  /\ (forall a b, levenshteinDistance a b = levenshteinDistance b a)
  /\ (forall a b,
         absDiff (String.length a) (String.length b) <= levenshteinDistance a b
         <= Nat.max (String.length a) (String.length b)).
Proof.
  split; [|split; [|split; [|split; [|split]]]].
  - intros b. rewrite levenshteinDistance_lev. simpl. apply length_reversed.
  - intros a. rewrite levenshteinDistance_lev, lev_nil_r. apply length_reversed.
  - intros a b x y. rewrite !levenshteinDistance_lev, !reversed_snoc. apply lev_cons.
  - intros a b. rewrite levenshteinDistance_lev. split.
    + intros H. now apply reversed_inj, lev_zero.
    + intros ->. apply lev_refl.
  - intros a b. rewrite !levenshteinDistance_lev. apply lev_sym.
  - intros a b. rewrite levenshteinDistance_lev, <- !length_reversed. apply lev_bounds.
Qed.

Lemma levenshteinDistance_recurrence_witness :
  levenshteinDistance "kitten" "kitten" = 0.
Proof.
  apply (proj2 (proj1 (proj2 (proj2 (proj2 levenshteinDistance_recurrence)))
                  "kitten" "kitten")).
  reflexivity.
Defined.

(** ** Fuzzy matching *)

Lemma includes_empty (s : string) : Js.includes s EmptyString = true.
Proof. now destruct s. Qed.

Lemma isSpace_lowerChar (c : ascii) : Js.isSpace (Js.lowerChar c) = Js.isSpace c.
Proof. destruct c as [[] [] [] [] [] [] [] []]; reflexivity. Qed.

Lemma splitWs_step (c : ascii) (s : string) :
  Js.splitWs (String c s)
  = if Js.isSpace c then
      match s with
      | String c' _ => if Js.isSpace c' then Js.splitWs s else EmptyString :: Js.splitWs s
      | EmptyString => EmptyString :: Js.splitWs s
      end
    else
      match Js.splitWs s with
      | w :: ws => String c w :: ws
      | [] => [String c EmptyString]
      end.
Proof. reflexivity. Qed.

Lemma splitWs_leading (s : string) (c : ascii) :
  Js.isSpace c = true -> exists rest, Js.splitWs (String c s) = EmptyString :: rest.
Proof.
  revert c. induction s as [|c' s IH]; intros c Hc; rewrite splitWs_step, Hc; [eauto|].
  destruct (Js.isSpace c') eqn:Hc'; [|eauto]. apply (IH c' Hc').
Qed.

Lemma splitWs_pieces (s : string) : Js.splitWs s <> [].
Proof.
  induction s as [|c s IH]; [discriminate|]. rewrite splitWs_step.
  destruct (Js.isSpace c).
  - destruct s as [|c' s']; [discriminate|]. destruct (Js.isSpace c'); [exact IH|discriminate].
  - destruct (Js.splitWs s); discriminate.
Qed.

Lemma existsb_pointwise {A} (f g : A -> bool) (l : list A) :
  (forall x, f x = g x) -> existsb f l = existsb g l.
Proof. intros H. induction l as [|x l IH]; simpl; [reflexivity|]. now rewrite H, IH. Qed.

Lemma word_test (queryLower word : string) (distance : nat) :
  (if Js.includes word queryLower || Js.includes queryLower word then true
   else if Nat.leb (absDiff (String.length word) (String.length queryLower)) distance
        then Nat.leb (levenshteinDistance word queryLower) distance
        else false)
  = closeTo queryLower distance word.
Proof.
  unfold closeTo.
  destruct (Js.includes word queryLower || Js.includes queryLower word); [reflexivity|].
  cbn [orb].
  destruct (Nat.leb_spec (absDiff (String.length word) (String.length queryLower)) distance)
    as [Hle|Hgt]; [reflexivity|].
  symmetry. apply Nat.leb_gt.
  pose proof (lev_bounds (reversed word) (reversed queryLower)) as Hb.
  rewrite !length_reversed, <- levenshteinDistance_lev in Hb. lia.
Qed.

(** X19: in [fuzzyMatch] the comparison of the lengths changes no answer:
    a word of the text matches exactly when it contains the query, is
    contained in it, or is within the allowed edit distance. The empty
    query matches every text, and a text that is empty or begins with white
    space matches every query, because its first word is empty. *)
Theorem fuzzyMatch_words (text query : string) (maxDistance : option nat) :
  fuzzyMatch text query maxDistance
  = existsb (closeTo (Js.toLowerCase query) (allowed query maxDistance))
      (Js.splitWs (Js.toLowerCase text))
  /\ (query = EmptyString -> fuzzyMatch text query maxDistance = true)
  /\ (Js.isEmpty (Js.trimStart text) = true \/ Js.trimStart text <> text ->
      fuzzyMatch text query maxDistance = true).
Proof.
  assert (E : fuzzyMatch text query maxDistance
              = existsb (closeTo (Js.toLowerCase query) (allowed query maxDistance))
                  (Js.splitWs (Js.toLowerCase text))).
  { unfold fuzzyMatch, allowed. apply existsb_pointwise. intros word. apply word_test. }
  split; [exact E|]. split.
  - intros ->. rewrite E. cbn [Js.toLowerCase].
    destruct (Js.splitWs (Js.toLowerCase text)) as [|w ws] eqn:Hs;
      [now apply splitWs_pieces in Hs|].
    cbn [existsb]. unfold closeTo at 1. now rewrite includes_empty.
  - intros H. rewrite E.
    assert (Hhead : exists rest, Js.splitWs (Js.toLowerCase text) = EmptyString :: rest).
    { destruct text as [|c s]; [simpl; eauto|].
      cbn [Js.toLowerCase]. apply splitWs_leading. rewrite isSpace_lowerChar.
      cbn [Js.trimStart] in H. destruct (Js.isSpace c); [reflexivity|].
      destruct H as [H|H]; [discriminate|contradiction]. }
    destruct Hhead as (rest & ->). cbn [existsb]. unfold closeTo at 1.
    now rewrite includes_empty, orb_true_r.
Qed.

Lemma fuzzyMatch_words_witness :
  fuzzyMatch " deployed on friday" "zebra" None = true.
Proof.
  apply (proj2 (proj2 (fuzzyMatch_words " deployed on friday" "zebra" None))).
  right. discriminate.
Defined.

(** ** The scorer *)

Lemma fold_sum_shift {A} (g : A -> nat) (l : list A) (a k : nat) :
  fold_left (fun s o => s + g o) l (a + k) = fold_left (fun s o => s + g o) l a + k.
Proof.
  revert a. induction l as [|x l IH]; intros a; simpl; [reflexivity|].
  replace (a + k + g x) with (a + g x + k) by lia. apply IH.
Qed.

Lemma fold_sum_le {A} (f g : A -> nat) (k : nat) (l : list A) (a b : nat) :
  (forall x, f x <= g x + k) -> a <= b ->
  fold_left (fun s o => s + f o) l a <= fold_left (fun s o => s + g o) l b + k * length l.
Proof.
  intros H. revert a b. induction l as [|x l IH]; intros a b Hab; simpl; [lia|].
  specialize (IH (a + f x) (b + g x + k)). rewrite (fold_sum_shift g l (b + g x) k) in IH.
  pose proof (H x). rewrite Nat.mul_succ_r. lia.
Qed.

Lemma fuzzyMatch_lower_query (text query : string) :
  fuzzyMatch text (Js.toLowerCase query) None = fuzzyMatch text query None.
Proof. unfold fuzzyMatch. now rewrite toLowerCase_idem. Qed.

Lemma tokenize_lower (query : string) : tokenize (Js.toLowerCase query) = tokenize query.
Proof. unfold tokenize. now rewrite toLowerCase_idem. Qed.

Lemma obsScore_lower (query obs : string) (f : bool) :
  obsScore (Js.toLowerCase query) f obs = obsScore query f obs.
Proof.
  unfold obsScore. now rewrite tokenize_lower, toLowerCase_idem, fuzzyMatch_lower_query.
Qed.

Lemma fold_pointwise {A B} (f g : A -> B -> A) (l : list B) (a : A) :
  (forall s o, f s o = g s o) -> fold_left f l a = fold_left g l a.
Proof.
  intros H. revert a. induction l as [|x l IH]; intros a; simpl; [reflexivity|].
  now rewrite H, IH.
Qed.

Lemma obsScore_range (query obs : string) :
  obsScore query false obs <= obsScore query true obs
  /\ obsScore query true obs <= obsScore query false obs + 5
  /\ forall f, obsScore query f obs <= 15.
Proof.
  unfold obsScore.
  destruct (Js.includes (Js.toLowerCase obs) (Js.toLowerCase query));
    [repeat split; intros; lia|].
  destruct (existsb (fun t => Js.includes (Js.toLowerCase obs) t) (tokenize query));
    [repeat split; intros; lia|].
  cbn [andb]. destruct (fuzzyMatch obs query None);
    repeat split; intros; try lia; destruct f; simpl; lia.
Qed.

Lemma nameScore_range (entity : Entity) (query : string) :
  nameScore entity query false <= nameScore entity query true
  /\ nameScore entity query true <= nameScore entity query false + 15
  /\ forall f, nameScore entity query f <= 100.
Proof.
  unfold nameScore.
  destruct (String.eqb (Js.toLowerCase (name entity)) (Js.toLowerCase query));
    [repeat split; intros; lia|].
  destruct (Js.includes (Js.toLowerCase (name entity)) (Js.toLowerCase query));
    [repeat split; intros; lia|].
  destruct (existsb (fun t => Js.includes (Js.toLowerCase (name entity)) t) (tokenize query));
    [repeat split; intros; lia|].
  cbn [andb]. destruct (fuzzyMatch (name entity) query None);
    repeat split; intros; try lia; destruct f; simpl; lia.
Qed.

Lemma typeScore_range (entity : Entity) (query : string) : typeScore entity query <= 40.
Proof.
  unfold typeScore.
  destruct (String.eqb (Js.toLowerCase (entityType entity)) (Js.toLowerCase query)); [lia|].
  destruct (existsb (fun t => Js.includes (Js.toLowerCase (entityType entity)) t)
              (tokenize query)); lia.
Qed.

(** X20: the score of an entity does not depend on the case of the letters
    of the query; it is at most 140 plus 15 for each observation; and
    fuzzy matching never lowers it, and raises it by at most 15 plus 5 for
    each observation. *)
Theorem scoreEntity_range (entity : Entity) (query : string) :
  (forall f, scoreEntity entity (Js.toLowerCase query) f = scoreEntity entity query f)
  /\ (forall f, scoreEntity entity query f <= 140 + 15 * length (observations entity))
  /\ scoreEntity entity query false <= scoreEntity entity query true
  /\ scoreEntity entity query true
     <= scoreEntity entity query false + 15 + 5 * length (observations entity).
Proof.
  split; [|split; [|split]].
  - intros f. unfold scoreEntity.
    rewrite (fold_pointwise _ (fun score obs => score + obsScore query f obs))
      by (intros; now rewrite obsScore_lower).
    f_equal. unfold nameScore, typeScore.
    now rewrite tokenize_lower, toLowerCase_idem, fuzzyMatch_lower_query.
  - intros f. rewrite scoreEntity_parts.
    pose proof (fold_sum_le (obsScore query f) (fun _ => 0) 15 (observations entity) 0 0) as H.
    assert (Hz : forall l a, fold_left (fun s (_ : string) => s + 0) l a = a).
    { induction l as [|x l IH]; intros a; simpl; [reflexivity|]. now rewrite IH, Nat.add_0_r. }
    rewrite Hz in H.
    pose proof (proj2 (proj2 (nameScore_range entity query)) f).
    pose proof (typeScore_range entity query).
    assert (fold_left (fun s o => s + obsScore query f o) (observations entity) 0
            <= 0 + 15 * length (observations entity)).
    { apply H; [|lia]. intros x. pose proof (proj2 (proj2 (obsScore_range query x)) f). lia. }
    lia.
  - rewrite !scoreEntity_parts.
    pose proof (fold_sum_le (obsScore query false) (obsScore query true) 0
                  (observations entity) 0 0) as H.
    pose proof (proj1 (nameScore_range entity query)).
    assert (fold_left (fun s o => s + obsScore query false o) (observations entity) 0
            <= fold_left (fun s o => s + obsScore query true o) (observations entity) 0
               + 0 * length (observations entity)).
    { apply H; [|lia]. intros x. pose proof (proj1 (obsScore_range query x)). lia. }
    lia.
  - rewrite !scoreEntity_parts.
    pose proof (fold_sum_le (obsScore query true) (obsScore query false) 5
                  (observations entity) 0 0) as H.
    pose proof (proj1 (proj2 (nameScore_range entity query))).
    assert (fold_left (fun s o => s + obsScore query true o) (observations entity) 0
            <= fold_left (fun s o => s + obsScore query false o) (observations entity) 0
               + 5 * length (observations entity)).
    { apply H; [|lia]. intros x. pose proof (proj1 (proj2 (obsScore_range query x))). lia. }
    lia.
Qed.

(** ** Well-formed queries *)

Lemma splitWs_no_space (s w : string) : In w (Js.splitWs s) -> anyChar Js.isSpace w = false.
Proof.
  revert w. induction s as [|c s IH]; intros w.
  - intros [<-|[]]. reflexivity.
  - rewrite splitWs_step. destruct (Js.isSpace c) eqn:Hc.
    + destruct s as [|c' s'].
      * intros [<-|H]; [reflexivity|now apply IH].
      * destruct (Js.isSpace c'); [apply IH|].
        intros [<-|H]; [reflexivity|now apply IH].
    + destruct (Js.splitWs s) as [|w0 ws] eqn:Hs.
      * intros [<-|[]]. simpl. now rewrite Hc.
      * intros [<-|H].
        -- simpl. rewrite Hc. apply IH. now left.
        -- apply IH. now right.
Qed.

Lemma words_In (s w : string) :
  In w (Js.words s) -> w <> EmptyString /\ anyChar Js.isSpace w = false.
Proof.
  unfold Js.words. rewrite filter_In. intros [Hin Hne]. split.
  - intros ->. discriminate.
  - now apply splitWs_no_space in Hin.
Qed.

Lemma anyChar_lower (p : ascii -> bool) (s : string) :
  (forall c, p (Js.lowerChar c) = p c) ->
  anyChar p (Js.toLowerCase s) = anyChar p s.
Proof. intros H. induction s as [|c s IH]; simpl; [reflexivity|]. now rewrite H, IH. Qed.

Lemma isQuote_lowerChar (c : ascii) : Js.isQuote (Js.lowerChar c) = Js.isQuote c.
Proof. destruct c as [[] [] [] [] [] [] [] []]; reflexivity. Qed.

Lemma anyChar_tail (p : ascii -> bool) (c : ascii) (s : string) :
  anyChar p (String c s) = false -> anyChar p s = false.
Proof. simpl. intros H. now apply orb_false_iff in H. Qed.

Lemma toLowerCase_nonempty (s : string) : s <> EmptyString -> Js.toLowerCase s <> EmptyString.
Proof. destruct s; [contradiction|discriminate]. Qed.

Lemma stripped_term (token : string) :
  anyChar Js.isSpace token = false -> Nat.ltb 1 (String.length token) = true ->
  isTerm (stripped token).
Proof.
  intros Hs Hl. unfold stripped.
  destruct token as [|c [|c' t]]; try discriminate. cbn [Js.slice].
  split; [discriminate|]. split; [apply toLowerCase_idem|].
  rewrite anyChar_lower by apply isSpace_lowerChar. now apply anyChar_tail in Hs.
Qed.

Lemma execAll_Forall {A} (matchAt : string -> option (A * nat)) (P : A -> Prop)
    (s : string) (skip : nat) :
  (forall t m len, matchAt t = Some (m, len) -> P m) ->
  Forall P (Js.execAll matchAt skip s).
Proof.
  intros H. revert skip. induction s as [|c s IH]; intros skip; [constructor|].
  cbn [Js.execAll]. destruct skip as [|k]; [|apply IH].
  destruct (matchAt (String c s)) as [[m len]|] eqn:E; [|apply IH].
  constructor; [now apply (H _ _ _ E)|apply IH].
Qed.

Lemma span_all (p : ascii -> bool) (s : string) :
  anyChar (fun c => negb (p c)) (fst (Js.span p s)) = false.
Proof.
  induction s as [|c s IH]; [reflexivity|]. cbn [Js.span].
  destruct (p c) eqn:Hc; [|reflexivity].
  destruct (Js.span p s) as [run rest]. simpl in *. now rewrite Hc, IH.
Qed.

Lemma quotedAt_phrase (t m : string) (len : nat) :
  Js.quotedAt t = Some (m, len) -> m <> EmptyString /\ anyChar Js.isQuote m = false.
Proof.
  unfold Js.quotedAt. destruct t as [|c t]; [discriminate|].
  destruct (Js.isQuote c); [|discriminate].
  pose proof (span_all (fun x => negb (Js.isQuote x)) t) as Hs.
  destruct (Js.span (fun x => negb (Js.isQuote x)) t) as [[|a run] [|r rest]]; try discriminate.
  intros [= <- _]. split; [discriminate|].
  cbn [fst] in Hs. rewrite <- Hs. clear.
  generalize (String a run) as s. induction s as [|c s IH]; simpl; [reflexivity|].
  now rewrite negb_involutive, IH.
Qed.

Lemma execAll_no_match {A} (matchAt : string -> option (A * nat)) (p : ascii -> bool)
    (s : string) (skip : nat) :
  (forall c t, p c = false -> matchAt (String c t) = None) ->
  anyChar p s = false -> Js.execAll matchAt skip s = [].
Proof.
  intros H. revert skip. induction s as [|c s IH]; intros skip Hs; [reflexivity|].
  simpl in Hs. apply orb_false_iff in Hs. destruct Hs as [Hc Hs].
  cbn [Js.execAll]. destruct skip as [|k]; [|now apply IH].
  rewrite (H c s Hc). now apply IH.
Qed.

(** X21: whatever the query, every required, optional and excluded term
    [parseQuery] stores is not empty, is in lower case and holds no white
    space, and every phrase is not empty, is in lower case and holds no
    double quote; a query without a double quote has no phrase, and its
    tokens are its words. *)
Theorem parseQuery_wellformed (query : string) :
  Forall isTerm (required (parseQuery query) ++ optional (parseQuery query)
                 ++ excluded (parseQuery query))
  /\ Forall isPhrase (phrases (parseQuery query))
  /\ (anyChar Js.isQuote query = false ->
      phrases (parseQuery query) = [] /\ queryTokens query = Js.words query).
Proof.
  rewrite parseQuery_fields. cbn [required optional excluded phrases].
  split; [|split].
  - rewrite !Forall_app. repeat split; apply List.Forall_forall; intros t Ht;
      apply in_map_iff in Ht; destruct Ht as (token & <- & Ht);
      apply filter_In in Ht; destruct Ht as [Hin Hk];
      apply words_In in Hin; destruct Hin as [Hne Hsp].
    + apply stripped_term; [exact Hsp|].
      unfold isRequiredToken in Hk. now apply andb_true_iff in Hk.
    + split; [now apply toLowerCase_nonempty|]. split; [apply toLowerCase_idem|].
      now rewrite anyChar_lower by apply isSpace_lowerChar.
    + apply stripped_term; [exact Hsp|].
      unfold isExcludedToken in Hk. now apply andb_true_iff in Hk.
  - unfold phraseMatches. apply List.Forall_forall. intros t Ht.
    apply in_map_iff in Ht. destruct Ht as (m & <- & Hm).
    pose proof (execAll_Forall Js.quotedAt
                  (fun m => m <> EmptyString /\ anyChar Js.isQuote m = false)
                  query 0 quotedAt_phrase) as Hall.
    rewrite List.Forall_forall in Hall. destruct (Hall m Hm) as [Hne Hq].
    split; [now apply toLowerCase_nonempty|]. split; [apply toLowerCase_idem|].
    now rewrite anyChar_lower by apply isQuote_lowerChar.
  - intros Hq.
    assert (E : phraseMatches query = []).
    { unfold phraseMatches. apply (execAll_no_match _ Js.isQuote); [|exact Hq].
      intros c t Hc. unfold Js.quotedAt. now rewrite Hc. }
    unfold queryTokens, stripPhrases. rewrite E. split; reflexivity.
Qed.

Lemma parseQuery_wellformed_witness :
  phrases (parseQuery "+Login -TODO page") = []
  /\ queryTokens "+Login -TODO page" = Js.words "+Login -TODO page".
Proof.
  apply (proj2 (proj2 (parseQuery_wellformed "+Login -TODO page"))). reflexivity.
Defined.

(** ** Search results *)

Lemma insertByScore_In (x y : Entity * nat) (l : list (Entity * nat)) :
  In y (insertByScore x l) <-> y = x \/ In y l.
Proof.
  induction l as [|z l IH]; simpl; [intuition|].
  destruct (Nat.leb (snd z) (snd x)); simpl; [intuition|]. rewrite IH. intuition.
Qed.

Lemma sortByScore_In (y : Entity * nat) (l : list (Entity * nat)) :
  In y (sortByScore l) <-> In y l.
Proof.
  unfold sortByScore. induction l as [|x l IH]; simpl; [tauto|].
  rewrite insertByScore_In, IH. intuition.
Qed.

Lemma insertByScore_desc (x : Entity * nat) (l : list (Entity * nat)) :
  descending (map snd l) -> descending (map snd (insertByScore x l)).
Proof.
  induction l as [|z l IH]; intros Hd; simpl; [split; [constructor|exact I]|].
  destruct (Nat.leb_spec (snd z) (snd x)) as [Hle|Hlt]; simpl.
  - split; [|exact Hd]. destruct Hd as [Hall _]. constructor; [exact Hle|].
    eapply List.Forall_impl; [|exact Hall]. simpl. intros; lia.
  - destruct Hd as [Hall Hd]. split; [|now apply IH].
    apply List.Forall_forall. intros s Hs. apply in_map_iff in Hs.
    destruct Hs as (y & <- & Hy). apply insertByScore_In in Hy.
    destruct Hy as [->|Hy]; [lia|].
    rewrite List.Forall_forall in Hall. apply Hall. now apply in_map.
Qed.

Lemma sortByScore_desc (l : list (Entity * nat)) : descending (map snd (sortByScore l)).
Proof.
  unfold sortByScore. induction l as [|x l IH]; simpl; [exact I|].
  now apply insertByScore_desc.
Qed.

Lemma firstn_subset {A} (n : nat) (l : list A) (x : A) : In x (firstn n l) -> In x l.
Proof. intros H. rewrite <- (firstn_skipn n l). apply in_or_app. now left. Qed.

Lemma descending_firstn (n : nat) (l : list nat) : descending l -> descending (firstn n l).
Proof.
  revert n. induction l as [|x l IH]; intros n Hd; destruct n; simpl; trivial.
  destruct Hd as [Hall Hd]. split; [|now apply IH].
  apply List.Forall_forall. intros y Hy. apply firstn_subset in Hy.
  rewrite List.Forall_forall in Hall. now apply Hall.
Qed.

Lemma applyLimit_firstn {A} (limit' : option Z) (l : list A) :
  exists k, applyLimit limit' l = firstn k l.
Proof.
  unfold applyLimit. destruct limit' as [n|]; [|exists (length l); now rewrite firstn_all].
  destruct (Z.eqb n 0); [exists (length l); now rewrite firstn_all|].
  destruct (Z.ltb 0 n); eauto.
Qed.

Lemma applyLimit_length {A} (n : Z) (l : list A) :
  (0 < n)%Z -> length (applyLimit (Some n) l) <= Z.to_nat n.
Proof.
  intros Hn. unfold applyLimit.
  destruct (Z.eqb_spec n 0); [lia|]. destruct (Z.ltb_spec 0 n); [|lia].
  rewrite length_firstn. lia.
Qed.

Lemma addName_In (names : list string) (n x : string) :
  In x (addName names n) <-> In x names \/ x = n.
Proof.
  unfold addName. destruct (includesStr names n) eqn:E.
  - apply includesStr_In in E. split; [auto|]. intros [H| ->]; assumption.
  - rewrite in_app_iff. simpl. intuition.
Qed.

Lemma withNeighbors_spec (graph : KnowledgeGraph) (ms : list Entity) (mn : gset string) :
  (forall x, x ∈ mn <-> In x (map name ms)) ->
  (exists extra, fst (withNeighbors graph ms mn) = (ms ++ extra)%list
                 /\ forall e, In e extra -> In e (entities graph))
  /\ (forall x, x ∈ snd (withNeighbors graph ms mn)
                <-> In x (map name (fst (withNeighbors graph ms mn)))).
Proof.
  intros Hmn. unfold withNeighbors.
  match goal with |- context [fold_left _ ?l (ms, mn)] => generalize l as todo end.
  intros todo.
  assert (Hinv : forall (todo : list string) (ents : list Entity) (names : gset string),
             (exists extra, ents = (ms ++ extra)%list
                            /\ forall e, In e extra -> In e (entities graph)) ->
             (forall x, x ∈ names <-> In x (map name ents)) ->
             let out :=
               fold_left
                 (fun (acc : list Entity * gset string) n =>
                    let '(ents, names) := acc in
                    if bool_decide (n ∈ names) then (ents, names)
                    else match List.find (fun e => String.eqb (name e) n) (entities graph) with
                         | Some neighborEntity =>
                             ((ents ++ [neighborEntity])%list, names ∪ {[n]})
                         | None => (ents, names)
                         end)
                 todo (ents, names) in
             (exists extra, fst out = (ms ++ extra)%list
                            /\ forall e, In e extra -> In e (entities graph))
             /\ (forall x, x ∈ snd out <-> In x (map name (fst out)))).
  { clear todo. induction todo as [|n todo IH]; intros ents names Hext Hnames; [now split|].
    cbn [fold_left]. destruct (bool_decide (n ∈ names)); [now apply IH|].
    destruct (List.find (fun e => String.eqb (name e) n) (entities graph)) as [ne|] eqn:Hf;
      [|now apply IH].
    apply find_some in Hf. destruct Hf as [Hin Hn]. apply String.eqb_eq in Hn.
    apply IH.
    - destruct Hext as (extra & -> & Hsub). exists (extra ++ [ne])%list.
      split; [now rewrite app_assoc|].
      intros e He. apply in_app_iff in He. destruct He as [He|[<-|[]]]; auto.
    - intros x. rewrite elem_of_union, elem_of_singleton, Hnames, map_app, in_app_iff.
      simpl. rewrite Hn. intuition. }
  apply Hinv; [|exact Hmn]. exists []. split; [now rewrite app_nil_r|]. intros e [].
Qed.

Lemma member_hasName (names : gset string) (l : list Entity) (x : string) :
  (forall y, y ∈ names <-> In y (map name l)) ->
  bool_decide (x ∈ names) = hasName l x.
Proof.
  intros H. destruct (hasName l x) eqn:E.
  - apply bool_decide_eq_true. apply H. now apply hasName_In.
  - apply bool_decide_eq_false. rewrite H. now apply hasName_false.
Qed.

(** the shape of every answer of [searchNodes]: the scored entities, in
    the order of their scores, then the neighbours *)
Lemma searchNodes_shape (query' : string) (options : SearchOptions) (graph : KnowledgeGraph) :
  exists (scored : list (Entity * nat)) (extra : list Entity),
    sr_entities (searchNodes query' options graph) = (map fst scored ++ extra)%list
    /\ sr_scores (searchNodes query' options graph)
       = map (fun s => {| score_name := name (fst s); score := snd s |}) scored
    /\ sr_relations (searchNodes query' options graph)
       = List.filter
           (fun r => hasName (sr_entities (searchNodes query' options graph)) (from r)
                     || hasName (sr_entities (searchNodes query' options graph)) (to r))
           (relations graph)
    /\ (forall s, In s scored -> In (fst s) (entities graph))
    /\ (forall e, In e extra -> In e (entities graph))
    /\ descending (map snd scored)
    /\ (includeNeighbors options = false -> extra = [])
    /\ (forall n, limit options = Some n -> (0 < n)%Z -> length scored <= Z.to_nat n).
Proof.
  assert (Hempty :
    exists (scored : list (Entity * nat)) (extra : list Entity),
      sr_entities emptyResult = (map fst scored ++ extra)%list
      /\ sr_scores emptyResult
         = map (fun s => {| score_name := name (fst s); score := snd s |}) scored
      /\ sr_relations emptyResult
         = List.filter
             (fun r => hasName (sr_entities emptyResult) (from r)
                       || hasName (sr_entities emptyResult) (to r))
             (relations graph)
      /\ (forall s, In s scored -> In (fst s) (entities graph))
      /\ (forall e, In e extra -> In e (entities graph))
      /\ descending (map snd scored)
      /\ (includeNeighbors options = false -> extra = [])
      /\ (forall n, limit options = Some n -> (0 < n)%Z -> length scored <= Z.to_nat n)).
  { exists [], []. cbn [emptyResult sr_entities sr_scores sr_relations map app].
    split; [reflexivity|]. split; [reflexivity|]. split.
    - symmetry. apply filter_none. reflexivity.
    - repeat split; simpl; try tauto; intros; lia. }
  unfold searchNodes.
  destruct (Js.isEmpty (Js.trim query')); [exact Hempty|].
  match goal with
  | |- context [if negb ?a && negb ?b then emptyResult else _] =>
      destruct (negb a && negb b); [exact Hempty|]
  end.
  clear Hempty.
  match goal with
  | |- context [applyLimit (limit options) ?s] =>
      set (scored := s); set (limited := applyLimit (limit options) scored)
  end.
  assert (Hsub : forall s, In s limited -> In (fst s) (entities graph)).
  { intros s Hs. unfold limited in Hs.
    destruct (applyLimit_firstn (limit options) scored) as [k Hk]. rewrite Hk in Hs.
    apply firstn_subset in Hs. unfold scored in Hs.
    apply (proj1 (sortByScore_In _ _)) in Hs.
    apply in_map_iff in Hs. destruct Hs as (e & <- & He). apply filter_In in He. apply He. }
  assert (Hdesc : descending (map snd limited)).
  { unfold limited. destruct (applyLimit_firstn (limit options) scored) as [k ->].
    rewrite <- List.firstn_map. apply descending_firstn, sortByScore_desc. }
  assert (Hlen : forall n, limit options = Some n -> (0 < n)%Z ->
                           length limited <= Z.to_nat n).
  { intros n Hn Hpos. unfold limited. rewrite Hn. now apply applyLimit_length. }
  assert (Hnames : forall x, x ∈ (list_to_set (map name (map fst limited)) : gset string)
                             <-> In x (map name (map fst limited))).
  { intros x. now rewrite elem_of_list_to_set, list_elem_of_In. }
  destruct (includeNeighbors options
            && negb (bool_decide ((list_to_set (map name (map fst limited)) : gset string) = ∅)))
    eqn:Hnb.
  - destruct (withNeighbors_spec graph (map fst limited) _ Hnames)
      as [(extra & Hext & Hin) Hmem].
    destruct (withNeighbors graph (map fst limited)
                (list_to_set (map name (map fst limited)))) as [ents' names'].
    cbn [fst snd] in *. subst ents'.
    exists limited, extra. cbn [sr_entities sr_scores sr_relations].
    split; [reflexivity|]. split; [reflexivity|]. split.
    + apply filter_ext. intros r. now rewrite !(member_hasName names' _ _ Hmem).
    + repeat split; trivial. intros Hoff. rewrite Hoff in Hnb. discriminate.
  - exists limited, []. cbn [sr_entities sr_scores sr_relations].
    rewrite app_nil_r. split; [reflexivity|]. split; [reflexivity|]. split.
    + apply filter_ext. intros r. now rewrite !(member_hasName _ _ _ Hnames).
    + repeat split; trivial. intros e [].
Qed.

(** X22: whatever the query and the options, [searchNodes] returns only
    entities of the graph; it returns exactly the relations an end of which
    is the name of a returned entity; the scores come in descending order
    and belong, in order, to the first entities returned, so that the
    neighbours, which carry no score, come last; without neighbours every
    entity has its score; and a positive limit bounds the number of
    scores. *)
Theorem searchNodes_result (query' : string) (options : SearchOptions)
    (graph : KnowledgeGraph) :
  (forall e, In e (sr_entities (searchNodes query' options graph)) -> In e (entities graph))
  /\ (forall r, In r (sr_relations (searchNodes query' options graph)) <->
                In r (relations graph)
                /\ (hasName (sr_entities (searchNodes query' options graph)) (from r) = true
                    \/ hasName (sr_entities (searchNodes query' options graph)) (to r) = true))
  /\ descending (map score (sr_scores (searchNodes query' options graph)))
  /\ map score_name (sr_scores (searchNodes query' options graph))
     = firstn (length (sr_scores (searchNodes query' options graph)))
         (map name (sr_entities (searchNodes query' options graph)))
  /\ (includeNeighbors options = false ->
      map score_name (sr_scores (searchNodes query' options graph))
      = map name (sr_entities (searchNodes query' options graph)))
  /\ (forall n, limit options = Some n -> (0 < n)%Z ->
                length (sr_scores (searchNodes query' options graph)) <= Z.to_nat n).
Proof.
  destruct (searchNodes_shape query' options graph)
    as (scored & extra & He & Hs & Hr & Hsub & Hext & Hdesc & Hoff & Hlen).
  rewrite Hr, Hs, He.
  assert (Hnames : map score_name
                     (map (fun s => {| score_name := name (fst s); score := snd s |}) scored)
                   = map name (map fst scored)).
  { rewrite !map_map. reflexivity. }
  split; [|split; [|split; [|split; [|split]]]].
  - intros e Hin. apply in_app_iff in Hin. destruct Hin as [Hin|Hin]; [|now apply Hext].
    apply in_map_iff in Hin. destruct Hin as (s & <- & Hin). now apply Hsub.
  - intros r. now rewrite filter_In, orb_true_iff.
  - rewrite map_map. cbn [score]. exact Hdesc.
  - rewrite Hnames, map_app, length_map.
    rewrite <- (length_map fst scored), <- (length_map name (map fst scored)).
    now rewrite firstn_app, Nat.sub_diag, firstn_all, firstn_O, app_nil_r.
  - intros H. rewrite (Hoff H), app_nil_r. exact Hnames.
  - intros n Hn Hpos. rewrite length_map. now apply Hlen.
Qed.

Lemma searchNodes_result_witness :
  length (sr_scores (searchNodes "person"
                       {| includeNeighbors := true; fuzzy := false; limit := Some 1%Z |}
                       twoEntities)) <= 1.
Proof.
  apply (proj2 (proj2 (proj2 (proj2 (proj2
           (searchNodes_result "person"
              {| includeNeighbors := true; fuzzy := false; limit := Some 1%Z |}
              twoEntities))))) 1%Z); [reflexivity|lia].
Defined.

(** ** Observation-level search *)

Lemma insertMatch_In (x y : ObservationMatch) (l : list ObservationMatch) :
  In y (insertMatch x l) <-> y = x \/ In y l.
Proof.
  induction l as [|z l IH]; simpl; [intuition|].
  destruct (Nat.leb (om_score z) (om_score x)); simpl; [intuition|]. rewrite IH. intuition.
Qed.

Lemma sortMatches_In (y : ObservationMatch) (l : list ObservationMatch) :
  In y (sortMatches l) <-> In y l.
Proof.
  unfold sortMatches. induction l as [|x l IH]; simpl; [tauto|].
  rewrite insertMatch_In, IH. intuition.
Qed.

Lemma insertMatch_desc (x : ObservationMatch) (l : list ObservationMatch) :
  descending (map om_score l) -> descending (map om_score (insertMatch x l)).
Proof.
  induction l as [|z l IH]; intros Hd; simpl; [split; [constructor|exact I]|].
  destruct (Nat.leb_spec (om_score z) (om_score x)) as [Hle|Hlt]; simpl.
  - split; [|exact Hd]. destruct Hd as [Hall _]. constructor; [exact Hle|].
    eapply List.Forall_impl; [|exact Hall]. simpl. intros; lia.
  - destruct Hd as [Hall Hd]. split; [|now apply IH].
    apply List.Forall_forall. intros s Hs. apply in_map_iff in Hs.
    destruct Hs as (y & <- & Hy). apply insertMatch_In in Hy.
    destruct Hy as [->|Hy]; [lia|].
    rewrite List.Forall_forall in Hall. apply Hall. now apply in_map.
Qed.

Lemma sortMatches_desc (l : list ObservationMatch) :
  descending (map om_score (sortMatches l)).
Proof.
  unfold sortMatches. induction l as [|x l IH]; simpl; [exact I|].
  now apply insertMatch_desc.
Qed.

Lemma sliceTo_firstn {A} (n : Z) (l : list A) : exists k, sliceTo n l = firstn k l.
Proof. unfold sliceTo. destruct (Z.leb 0 n); eauto. Qed.

Lemma sliceTo_length {A} (n : Z) (l : list A) :
  (0 <= n)%Z -> length (sliceTo n l) <= Z.to_nat n.
Proof.
  intros Hn. unfold sliceTo. destruct (Z.leb_spec 0 n); [|lia].
  rewrite length_firstn. lia.
Qed.

Lemma observationMatch_In (query' : string) (parsed : ParsedQuery) (fuzzy' : bool)
    (entity : Entity) (observation : string) (m : ObservationMatch) :
  In m (observationMatch query' parsed fuzzy' entity observation) ->
  m = {| om_entityName := name entity; om_entityType := entityType entity;
         om_observation := observation;
         om_score := scoreObservation observation (Js.trim (blankOperators query')) fuzzy' |}
  /\ 0 < scoreObservation observation (Js.trim (blankOperators query')) fuzzy'.
Proof.
  unfold observationMatch.
  match goal with |- context [if ?c then _ else []] => destruct c end; [|intros []].
  destruct (Nat.ltb_spec 0 (scoreObservation observation (Js.trim (blankOperators query'))
                              fuzzy')); [|intros []].
  intros [<-|[]]. split; [reflexivity|assumption].
Qed.

(** X23: every match [searchObservations] returns is an observation of an
    entity of the graph, with the name and the type of that entity and a
    positive score, the score of the observation against the query without
    its operators; the matches come in descending order of score; there
    are at most [limit] of them, 10 when no limit is given and none when it
    is 0; the entities are returned only when they are asked for and some
    match exists, and then they are exactly the entities named by a match. *)
Theorem searchObservations_result (query' : string) (options : ObservationSearchOptions)
    (graph : KnowledgeGraph) :
  (forall m, In m (matches (searchObservations query' options graph)) ->
             0 < om_score m
             /\ om_score m
                = scoreObservation (om_observation m) (Js.trim (blankOperators query'))
                    (os_fuzzy options)
             /\ exists e, In e (entities graph) /\ name e = om_entityName m
                          /\ entityType e = om_entityType m
                          /\ In (om_observation m) (observations e))
  /\ descending (map om_score (matches (searchObservations query' options graph)))
  /\ (forall n, os_limit options = Some n \/ (os_limit options = None /\ n = 10%Z) ->
                (0 <= n)%Z ->
                length (matches (searchObservations query' options graph)) <= Z.to_nat n)
  /\ (os_entities (searchObservations query' options graph) = None <->
      os_includeEntity options = false
      \/ matches (searchObservations query' options graph) = [])
  /\ (forall es, os_entities (searchObservations query' options graph) = Some es ->
        forall e, In e es <->
                  In e (entities graph)
                  /\ exists m, In m (matches (searchObservations query' options graph))
                               /\ om_entityName m = name e).
Proof.
  unfold searchObservations.
  destruct (Js.isEmpty (Js.trim query')).
  { cbn [matches os_entities map length]. split; [intros m []|]. split; [exact I|].
    split; [intros; lia|]. split; [split; auto|]. discriminate. }
  match goal with
  | |- context [sliceTo ?n (sortMatches ?all)] =>
      set (limit' := n); set (allMatches := all);
      set (limited := sliceTo limit' (sortMatches allMatches))
  end.
  cbn [matches os_entities].
  assert (Hin : forall m, In m limited -> In m allMatches).
  { intros m Hm. unfold limited in Hm.
    destruct (sliceTo_firstn limit' (sortMatches allMatches)) as [k Hk]. rewrite Hk in Hm.
    apply firstn_subset in Hm. now apply (proj1 (sortMatches_In _ _)) in Hm. }
  split; [|split; [|split; [|split]]].
  - intros m Hm. apply Hin in Hm. unfold allMatches in Hm.
    apply in_flat_map in Hm. destruct Hm as (e & He & Hm).
    apply in_flat_map in Hm. destruct Hm as (o & Ho & Hm).
    apply observationMatch_In in Hm. destruct Hm as [-> Hpos].
    cbn [om_score om_observation om_entityName om_entityType].
    split; [exact Hpos|]. split; [reflexivity|]. exists e. auto.
  - unfold limited. destruct (sliceTo_firstn limit' (sortMatches allMatches)) as [k ->].
    rewrite <- List.firstn_map. apply descending_firstn, sortMatches_desc.
  - intros n Hn Hpos. unfold limited.
    assert (limit' = n) as ->.
    { unfold limit'. destruct Hn as [->|[-> ->]]; reflexivity. }
    now apply sliceTo_length.
  - destruct (os_includeEntity options); cbn [andb].
    + destruct limited as [|m ms]; simpl; split; auto; try discriminate.
      intros [H|H]; discriminate.
    + split; auto.
  - intros es Hes e.
    destruct (os_includeEntity options && Nat.ltb 0 (length limited)); [|discriminate].
    injection Hes as <-.
    rewrite filter_In, bool_decide_eq_true, elem_of_list_to_set, list_elem_of_In, in_map_iff.
    split; intros (He & m & H1 & H2); (split; [exact He|]); exists m; auto.
Qed.

Lemma searchObservations_result_witness :
  length (matches (searchObservations "acme"
                     {| os_limit := Some 0%Z; os_includeEntity := true; os_fuzzy := false |}
                     twoEntities)) <= 0.
Proof.
  apply (proj1 (proj2 (proj2 (searchObservations_result "acme"
                                {| os_limit := Some 0%Z; os_includeEntity := true;
                                   os_fuzzy := false |} twoEntities))) 0%Z);
    [left; reflexivity|lia].
Defined.

(** ** Queries without a field *)

Lemma anyChar_slice (p : ascii -> bool) (k : nat) (s : string) :
  anyChar p s = false -> anyChar p (Js.slice k s) = false.
Proof.
  revert s. induction k as [|k IH]; intros s H; [now destruct s|].
  destruct s as [|c s]; [reflexivity|]. cbn [Js.slice]. apply IH.
  now apply anyChar_tail in H.
Qed.

Lemma execAll_none {A} (matchAt : string -> option (A * nat)) (p : ascii -> bool)
    (s : string) (skip : nat) :
  (forall t, anyChar p t = false -> matchAt t = None) ->
  anyChar p s = false -> Js.execAll matchAt skip s = [].
Proof.
  intros H. revert skip. induction s as [|c s IH]; intros skip Hs; [reflexivity|].
  cbn [Js.execAll]. pose proof (anyChar_tail _ _ _ Hs) as Hs'.
  destruct skip as [|k]; [|now apply IH].
  rewrite (H _ Hs). now apply IH.
Qed.

Lemma fieldAt_needs_colon (t : string) : anyChar isColon t = false -> fieldAt t = None.
Proof.
  intros H. unfold fieldAt. destruct (keywordAt t) as [[f k]|]; [|reflexivity].
  pose proof (anyChar_slice isColon k t H) as Hk.
  destruct (Js.slice k t) as [|c rest]; [reflexivity|].
  simpl in Hk. apply orb_false_iff in Hk. destruct Hk as [Hc _].
  unfold isColon in Hc. cbn [Js.startsWith]. now rewrite Hc.
Qed.

Lemma parseFieldQuery_plain (query : string) :
  anyChar isColon query = false ->
  parseFieldQuery query
  = {| fq_name := None; fq_type := None; fq_obs := None;
       fq_all := if Js.isEmpty (Js.trim query) then None
                 else Some (parseQuery (Js.trim query)) |}.
Proof.
  intros H. unfold parseFieldQuery.
  rewrite (execAll_none fieldAt isColon query 0 fieldAt_needs_colon H).
  cbn [fold_left]. now destruct (Js.isEmpty (Js.trim query)).
Qed.

Lemma asksFor_test (p : ParsedQuery) :
  Nat.ltb 0 (length (required p)) || Nat.ltb 0 (length (optional p))
  || Nat.ltb 0 (length (phrases p)) = true <-> asksFor p.
Proof.
  unfold asksFor. destruct (required p), (optional p), (phrases p); simpl;
    split; intros H; try reflexivity; try discriminate; auto;
    try (right; left; discriminate); try (right; right; discriminate);
    try (left; discriminate).
  destruct H as [H|[H|H]]; contradiction.
Qed.

(** X24: on a query without a colon, without fuzzy matching, neighbours
    or a limit, [searchNodes] returns exactly the entities whose text (the
    name, the type and the observations, joined by blanks) matches the
    parsed query, provided the query asks for a term or a phrase; when it
    asks for none, it returns nothing. *)
Theorem searchNodes_plain_query (query' : string) (options : SearchOptions)
    (graph : KnowledgeGraph) :
  anyChar isColon query' = false ->
  fuzzy options = false -> includeNeighbors options = false -> limit options = None ->
  forall e,
    In e (sr_entities (searchNodes query' options graph)) <->
    In e (entities graph)
    /\ asksFor (parseQuery (Js.trim query'))
    /\ matchesParsedQuery (allText e) (parseQuery (Js.trim query')) = true.
Proof.
  intros Hc Hf Hn Hl e. unfold searchNodes.
  rewrite (parseFieldQuery_plain query' Hc), Hf, Hn, Hl.
  destruct (Js.isEmpty (Js.trim query')) eqn:Hempty.
  { destruct (Js.trim query'); [|discriminate]. split; [intros []|].
    intros (_ & [H|[H|H]] & _); now apply H. }
  cbn [fq_name fq_type fq_obs fq_all negb andb].
  destruct (Nat.ltb 0 (length (required (parseQuery (Js.trim query'))))
            || Nat.ltb 0 (length (optional (parseQuery (Js.trim query'))))
            || Nat.ltb 0 (length (phrases (parseQuery (Js.trim query'))))) eqn:Hask.
  - apply asksFor_test in Hask. cbn [negb applyLimit andb sr_entities].
    rewrite in_map_iff. split.
    + intros (s & <- & Hs). apply (proj1 (sortByScore_In _ _)) in Hs.
      apply in_map_iff in Hs. destruct Hs as (x & <- & Hx). cbn [fst].
      apply filter_In in Hx. destruct Hx as [Hin Hm].
      split; [exact Hin|]. split; [exact Hask|].
      unfold entityMatches, entityMatchesFieldQuery in Hm.
      cbn [fq_name fq_type fq_obs fq_all passes negb] in Hm.
      now destruct (matchesParsedQuery (allText x) (parseQuery (Js.trim query'))).
    + intros (Hin & _ & Hm).
      eexists (e, _). split; [reflexivity|]. apply sortByScore_In.
      apply in_map_iff. exists e. split; [reflexivity|].
      apply filter_In. split; [exact Hin|].
      unfold entityMatches, entityMatchesFieldQuery.
      cbn [fq_name fq_type fq_obs fq_all passes negb]. now rewrite Hm.
  - cbn [negb sr_entities emptyResult]. split; [intros []|].
    intros (_ & H & _). apply asksFor_test in H. congruence.
Qed.

Lemma searchNodes_plain_query_witness :
  In alice (sr_entities (searchNodes "+acme -bob"
                           {| includeNeighbors := false; fuzzy := false; limit := None |}
                           twoEntities)).
Proof.
  apply (searchNodes_plain_query "+acme -bob"
           {| includeNeighbors := false; fuzzy := false; limit := None |} twoEntities);
    try reflexivity.
  split; [simpl; auto|]. split; [left; discriminate|reflexivity].
Defined.

(** ** Tokens *)

Lemma allSpace_lower (s : string) : allSpace (Js.toLowerCase s) = allSpace s.
Proof. induction s as [|c s IH]; simpl; [reflexivity|]. now rewrite isSpace_lowerChar, IH. Qed.

Lemma splitWs_allSpace (s : string) :
  allSpace s = true -> Forall (fun w => w = EmptyString) (Js.splitWs s).
Proof.
  induction s as [|c s IH]; [repeat constructor|].
  cbn [allSpace]. intros H. apply andb_true_iff in H. destruct H as [Hc Hs].
  rewrite splitWs_step, Hc. specialize (IH Hs).
  destruct s as [|c' s']; [now constructor|].
  destruct (Js.isSpace c'); [exact IH|now constructor].
Qed.

Lemma splitWs_word (s : string) :
  allSpace s = false -> exists w, In w (Js.splitWs s) /\ w <> EmptyString.
Proof.
  induction s as [|c s IH]; [discriminate|].
  cbn [allSpace]. rewrite splitWs_step. destruct (Js.isSpace c); cbn [andb].
  - intros Hs. destruct (IH Hs) as (w & Hw & Hne).
    exists w. split; [|exact Hne].
    destruct s as [|c' s']; [now right|]. destruct (Js.isSpace c'); [exact Hw|now right].
  - intros _. destruct (Js.splitWs s) as [|w ws].
    + eexists. split; [now left|discriminate].
    + eexists. split; [now left|discriminate].
Qed.

(** X25: the tokens of [tokenize] are not empty, are in lower case and hold
    no white space; the case of the letters of the text does not matter;
    and a text has no token exactly when it is white space only. *)
Theorem tokenize_tokens (text : string) :
  Forall isTerm (tokenize text)
  /\ tokenize (Js.toLowerCase text) = tokenize text
  /\ (tokenize text = [] <-> allSpace text = true).
Proof.
  split; [|split].
  - apply List.Forall_forall. intros t Ht. unfold tokenize in Ht.
    pose proof Ht as Hw. apply words_In in Hw. destruct Hw as [Hne Hsp].
    split; [exact Hne|]. split; [|exact Hsp].
    unfold Js.words in Ht. apply filter_In in Ht. destruct Ht as [Ht _].
    clear Hne Hsp. revert t Ht. generalize (toLowerCase_idem text).
    generalize (Js.toLowerCase text) as s. clear text.
    induction s as [|c s IH]; intros Hs t.
    + intros [<-|[]]. reflexivity.
    + cbn [Js.toLowerCase] in Hs. injection Hs as Hc Hs. specialize (IH Hs).
      rewrite splitWs_step. destruct (Js.isSpace c).
      * destruct s as [|c' s'].
        -- intros [<-|H]; [reflexivity|now apply IH].
        -- destruct (Js.isSpace c'); [apply IH|].
           intros [<-|H]; [reflexivity|now apply IH].
      * destruct (Js.splitWs s) as [|w ws] eqn:E.
        -- intros [<-|[]]. simpl. now rewrite Hc.
        -- intros [<-|H]; [|apply IH; now right].
           simpl. rewrite Hc. f_equal. apply IH. now left.
  - apply tokenize_lower.
  - unfold tokenize, Js.words. rewrite <- (allSpace_lower text).
    generalize (Js.toLowerCase text) as s. intros s. split.
    + intros H. destruct (allSpace s) eqn:Hs; [reflexivity|].
      destruct (splitWs_word s Hs) as (w & Hw & Hne).
      assert (Hin : In w (List.filter (fun t => negb (Js.isEmpty t)) (Js.splitWs s))).
      { apply filter_In. split; [exact Hw|]. now destruct w. }
      rewrite H in Hin. destruct Hin.
    + intros Hs. apply filter_none. intros w Hw.
      pose proof (splitWs_allSpace s Hs) as Hall. rewrite List.Forall_forall in Hall.
      now rewrite (Hall w Hw).
Qed.

Lemma tokenize_tokens_witness : tokenize (String " " (String (ascii_of_nat 9) " ")) = [].
Proof.
  apply (proj2 (proj2 (tokenize_tokens (String " " (String (ascii_of_nat 9) " "))))).
  reflexivity.
Defined.

(** ** One line for each record *)

(** X26: [saveGraph] always succeeds and writes one line for each entity,
    in order, then one line for each relation, in order, whatever
    characters the names, types and observations hold (a line break in
    them is written escaped); the empty graph makes the empty file; and the
    file it writes holds the graph. *)
Theorem saveGraph_lines (graph : KnowledgeGraph) (file : File) :
  saveGraph graph file = (inr tt, Some (serialize graph))
  /\ holds (Some (serialize graph)) graph
  /\ (graphLines graph <> [] -> splitLines (serialize graph) = graphLines graph)
  /\ (graphLines graph = [] -> serialize graph = EmptyString)
  /\ length (graphLines graph) = length (entities graph) + length (relations graph).
Proof.
  split; [reflexivity|]. split; [apply holds_serialize|]. split; [|split].
  - intros Hne. unfold serialize. fold (graphLines graph).
    destruct (graphLines_clean graph) as [Hnl _].
    destruct (graphLines graph) as [|x l]; [contradiction|].
    now apply splitLines_join.
  - intros E. unfold serialize. fold (graphLines graph). now rewrite E.
  - unfold graphLines. now rewrite length_app, !length_map.
Qed.

Lemma saveGraph_lines_witness :
  splitLines (serialize {| entities := [{| name := "two" ++ newlineStr ++ "lines";
                                           entityType := "note";
                                           observations := [newlineStr] |}];
                           relations := [] |})
  = graphLines {| entities := [{| name := "two" ++ newlineStr ++ "lines";
                                  entityType := "note";
                                  observations := [newlineStr] |}];
                  relations := [] |}.
Proof.
  apply (proj1 (proj2 (proj2 (saveGraph_lines
           {| entities := [{| name := "two" ++ newlineStr ++ "lines"; entityType := "note";
                              observations := [newlineStr] |}];
              relations := [] |} None)))).
  discriminate.
Defined.

(** ** The score of an observation *)








